(** * haul: order matching, navigation graph and route selection

    A shallow embedding of the Python back end (arbitrage.py, route.py,
    pathfinder.py, graph.py) and the properties of its specification.

    Numbers.  Python [int] is [Z].  Python [float] is read as an exact
    number: a rational ([Q], compared with [Qeq]/[Qle]) in the matcher and
    the route optimizer, where only +, -, *, / and floor division occur, and
    a real ([R]) in the warp-time and risk formulas of the graph, which use
    [log] and [sqrt].  Rounding, overflow, infinities and NaN are outside
    the model.

    Containers.  A [dict] is a [gmap], a [set] is a [gset], a [list] is a
    [list].  Where Python iterates over a set, the model iterates over
    [elements] of the [gset]: both orders are left unspecified.

    Exceptions.  A function that can raise returns a [result]. *)

From Stdlib Require Import ZArith QArith Qround Reals Psatz String.
From stdpp Require Import gmap strings list fin_maps sorting.

Local Open Scope Z_scope.

(** ** Exceptions and loops *)

Inductive exn : Type :=
| ZeroDivisionError
| KeyError
| IndexError
| ValueError
| AttributeError.

Inductive result (A : Type) : Type :=
| Ok (a : A)
| Raise (e : exn).

Arguments Ok {A} a.
Arguments Raise {A} e.

#[global] Instance result_ret : MRet result := @Ok.

#[global] Instance result_bind : MBind result :=
  fun A B (k : A -> result B) (r : result A) =>
    match r with
    | Ok a => k a
    | Raise e => Raise e
    end.

(** The outcome of one pass through the body of a [for] loop: the loop goes
    on with the next element ([continue], or the end of the body) or stops
    ([break]). *)
Inductive ctrl (S : Type) : Type :=
| Continue (s : S)
| Break (s : S).

Arguments Continue {S} s.
Arguments Break {S} s.

(** The state with which a pass ends. *)
Definition ctrl_state {S : Type} (c : ctrl S) : S :=
  match c with
  | Continue s => s
  | Break s => s
  end.

(** [for x in l: body], on the state [s] of the variables the loop assigns. *)
Fixpoint for_each {S A : Type} (body : S -> A -> result (ctrl S))
  (l : list A) (s : S) : result S :=
  match l with
  | [] => Ok s
  | x :: l' =>
      match body s x with
      | Raise e => Raise e
      | Ok (Break s') => Ok s'
      | Ok (Continue s') => for_each body l' s'
      end
  end.

(** ** Sorting

    [sorted] and [list.sort] are stable.  [sort_by le l] is the stable sort
    of [l] for the total preorder [le]: an element is put in front of the
    first element of the sorted tail that it may precede, so that elements
    which compare equal keep the order they have in [l].  With a [key] and
    [reverse=False], [le x y] is [key x <= key y]; with [reverse=True] it is
    [key y <= key x] (Python keeps the original order of equal keys in both
    cases). *)

Fixpoint insert_by {A : Type} (le : A -> A -> bool) (x : A) (l : list A) : list A :=
  match l with
  | [] => [x]
  | y :: l' => if le x y then x :: y :: l' else y :: insert_by le x l'
  end.

Fixpoint sort_by {A : Type} (le : A -> A -> bool) (l : list A) : list A :=
  match l with
  | [] => []
  | x :: l' => insert_by le x (sort_by le l')
  end.

Definition key_asc {A : Type} (key : A -> Q) (x y : A) : bool := Qle_bool (key x) (key y).
Definition key_desc {A : Type} (key : A -> Q) (x y : A) : bool := Qle_bool (key y) (key x).

(** [a // b] on floats, then [int]: the floor of the quotient; a zero
    divisor raises. *)
Definition floordiv (a b : Q) : result Z :=
  if Qeq_bool b 0 then Raise ZeroDivisionError else Ok (Qfloor (a / b)).

(** ** market.py *)

Module Market.

Record Order : Type := {
  order_id : Z;
  region_id : Z;
  location_id : Z;
  type_id : Z;
  is_buy_order : bool;
  price : Q;
  issued : Z;
  volume_remain : Z;
  item_name : string;
  item_cargo_volume : Q
}.

(** [order = Order( **vars(order)); order.volume_remain = v]: a copy of the
    order with one field changed. *)
Definition with_volume_remain (o : Order) (v : Z) : Order :=
  {| order_id := order_id o;
     region_id := region_id o;
     location_id := location_id o;
     type_id := type_id o;
     is_buy_order := is_buy_order o;
     price := price o;
     issued := issued o;
     volume_remain := v;
     item_name := item_name o;
     item_cargo_volume := item_cargo_volume o |}.

End Market.

(** ** arbitrage.py *)

Module Arbitrage.

Import Market.

Definition TAX_RATE : Q := 8 # 100.
Definition PROFIT_THRESHOLD : Q := 100000.
Definition MAX_CAPITAL : Z := 100000000.
Definition SNIPE_PROFIT_THRESHOLD : Q := 20000000.

Record Trade : Type := {
  from_station : Z;
  to_station : Z;
  from_order_id : Z;
  to_order_id : Z;
  item_name : string;
  type_id : Z;
  item_cargo_volume : Q;
  from_price : Q;
  to_price : Q;
  quantity : Z;
  cargo : Q;
  gross_profit : Q;
  net_profit : option Q
}.

(** The body of the loop of [filter_orders_for_cargo], on one order:
    [None] when the order is skipped, the capped copy otherwise.  The
    division is guarded by the test [item_volume == 0]. *)
Definition cap_for_cargo (cargo_space : Z) (order : Order) : option Order :=
  let item_volume := Market.item_cargo_volume order in
  if Qeq_bool item_volume 0 then None
  else
    let max_quantity := Qfloor (inject_Z cargo_space / item_volume) in
    let volume_remain := Z.min (Market.volume_remain order) max_quantity in
    if 0 <? volume_remain then Some (with_volume_remain order volume_remain)
    else None.

Definition filter_orders_for_cargo (orders : list Order) (cargo_space : Z) : list Order :=
  omap (cap_for_cargo cargo_space) orders.

Definition cap_for_capital_risk (max_amount : Z) (order : Order) : option Order :=
  let price := Market.price order in
  if Qeq_bool price 0 then None
  else
    let max_quantity := Qfloor (inject_Z max_amount / price) in
    let volume_remain := Z.min (Market.volume_remain order) max_quantity in
    if 0 <? volume_remain then Some (with_volume_remain order volume_remain)
    else None.

Definition filter_orders_for_capital_risk (orders : list Order) (max_amount : Z) : list Order :=
  omap (cap_for_capital_risk max_amount) orders.

(** [grouped.setdefault(order.type_id, []).append(order)] for every order. *)
Definition group_by_type (orders : list Order) : gmap Z (list Order) :=
  fold_left
    (fun grouped order =>
       <[Market.type_id order :=
           default [] (grouped !! Market.type_id order) ++ [order]]> grouped)
    orders ∅.

(** The body of the innermost loop of [create_trades]: [None] where the
    source says [continue]. *)
Definition match_orders (sell_order buy_order : Order) : option Trade :=
  let effective_buy_price := (Market.price buy_order * (1 - TAX_RATE))%Q in
  if Qlt_le_dec effective_buy_price (Market.price sell_order) then None
  else
    let quantity := Z.min (Market.volume_remain sell_order) (Market.volume_remain buy_order) in
    let gross_profit :=
      (inject_Z quantity * (effective_buy_price - Market.price sell_order))%Q in
    if Qlt_le_dec gross_profit PROFIT_THRESHOLD then None
    else
      let cargo_volume := (inject_Z quantity * Market.item_cargo_volume sell_order)%Q in
      Some {| from_station := Market.location_id sell_order;
              to_station := Market.location_id buy_order;
              from_order_id := Market.order_id sell_order;
              to_order_id := Market.order_id buy_order;
              item_name := Market.item_name sell_order;
              type_id := Market.type_id sell_order;
              item_cargo_volume := Market.item_cargo_volume sell_order;
              from_price := Market.price sell_order;
              to_price := Market.price buy_order;
              quantity := quantity;
              cargo := cargo_volume;
              gross_profit := gross_profit;
              net_profit := None |}.

Definition create_trades (sell_orders buy_orders : list Order) : list Trade :=
  let grouped_sell_orders := group_by_type sell_orders in
  let grouped_buy_orders := group_by_type buy_orders in
  flat_map
    (fun type_id =>
       flat_map
         (fun sell_order =>
            omap (match_orders sell_order)
              (default [] (grouped_buy_orders !! type_id)))
         (default [] (grouped_sell_orders !! type_id)))
    (elements (dom grouped_sell_orders ∩ dom grouped_buy_orders)).

Definition arbitrage (orders : list Order) (cargo_space : Z) : list Trade :=
  let sell_orders :=
    sort_by (key_asc Market.price) (filter (fun order => is_buy_order order = false) orders) in
  let buy_orders :=
    sort_by (key_desc Market.price) (filter (fun order => is_buy_order order = true) orders) in
  let sell_orders := filter_orders_for_cargo sell_orders cargo_space in
  let buy_orders := filter_orders_for_cargo buy_orders cargo_space in
  let sell_orders := filter_orders_for_capital_risk sell_orders MAX_CAPITAL in
  let buy_orders := filter_orders_for_capital_risk buy_orders MAX_CAPITAL in
  create_trades sell_orders buy_orders.

(** [{order.order_id: order.region_id for order in orders}]: a later order
    with the same id replaces the earlier entry. *)
Definition order_regions (orders : list Order) : gmap Z Z :=
  fold_left (fun m order => <[order_id order := region_id order]> m) orders ∅.

Definition snipe (orders : list Order) (cargo_space : Z) (current_region : Z) : option Trade :=
  let trades := arbitrage orders cargo_space in
  let region_trades :=
    filter (fun trade => order_regions orders !! from_order_id trade = Some current_region)
      trades in
  let region_trades := sort_by (key_desc gross_profit) region_trades in
  match region_trades with
  | best :: _ =>
      if Qlt_le_dec SNIPE_PROFIT_THRESHOLD (gross_profit best) then Some best else None
  | [] => None
  end.

(** *** The filters on objects

    A Python list holds references to [Order] objects.  [heap] is the list
    of the objects allocated so far and a reference is a position in it;
    [Order( **vars(order))] allocates a new object at the end of the heap,
    and the assignment to [volume_remain] that follows writes to that new
    object.  [cap] is the body of the loop ([cap_for_cargo] or
    [cap_for_capital_risk]). *)
Definition filter_objects (cap : Order -> option Order) (heap : list Order)
  (orders : list nat) : list Order * list nat :=
  fold_left
    (fun '(heap, filtered_orders) order =>
       match heap !! order with
       | Some object =>
           match cap object with
           | Some copy => (heap ++ [copy], filtered_orders ++ [length heap])
           | None => (heap, filtered_orders)
           end
       | None => (heap, filtered_orders)
       end)
    orders (heap, []).

Definition filter_orders_for_cargo_objects (heap : list Order) (orders : list nat)
  (cargo_space : Z) : list Order * list nat :=
  filter_objects (cap_for_cargo cargo_space) heap orders.

Definition filter_orders_for_capital_risk_objects (heap : list Order) (orders : list nat)
  (max_amount : Z) : list Order * list nat :=
  filter_objects (cap_for_capital_risk max_amount) heap orders.

End Arbitrage.

(** ** graph.py *)

Module Graph.

(** An entry of [stations], as the loader builds it: a station or a
    stargate.  [security] is always set by the loader, so the default of
    [station_data.get('security', 1.0)] is never used; [solar_system_name]
    and [region_name] are set only when the solar system of the station is
    known ([None] otherwise); the list [jumps] is never read. *)
Record Station : Type := {
  is_station : bool;
  item_name : string;
  security : R;
  position : R * R * R;
  solar_system_id : Z;
  region_id : Z;
  solar_system_name : option string;
  region_name : option string
}.

Record SolarSystem : Type := {
  sys_item_name : string;
  sys_position : R * R * R;
  sys_region_id : Z;
  sys_region_name : string
}.

(** The ship dictionary handed to [NavigationGraph]; a missing key is
    [None] and [ship.get(key, default)] is [default default_value field]. *)
Record ShipProfile : Type := {
  max_warp_speed : option R;
  max_subwarp_speed : option R;
  gankers_areas : option (gmap string R);
  player_cost : option R;
  risk_cost : option R
}.

Record LocationInfo : Type := {
  id : nat;
  location_id : Z;
  station_id : option Z;
  info_solar_system_id : Z;
  location_type : string;
  location : string;
  actions : list Z
}.

(** [shortest_path_length]: [self.paths[source][target]], with [KeyError]
    of either lookup caught and turned into [None]. *)
Definition shortest_path_length {A : Type} (paths : gmap Z (gmap Z A))
  (source target : Z) : option A :=
  match paths !! source with
  | None => None
  | Some row =>
      match row !! target with
      | None => None
      | Some length => Some length
      end
  end.

(** The body of the loop of [_combine_warp_gates] on one pair
    [(current_id, next_id)] of [zip(path, path[1:])]: what is appended to
    [combined_path]. *)
Definition combine_pair (stations : gmap Z Station) (current_id next_id : Z) : list Z :=
  let current_station := stations !! current_id in
  let next_station := stations !! next_id in
  match current_station with
  | Some current =>
      if is_station current then [current_id]
      else
        match next_station with
        | Some next =>
            if negb (is_station current) && negb (is_station next)
               && bool_decide (solar_system_id current = solar_system_id next)
            then [solar_system_id current]
            else []
        | None => []
        end
  | None => []
  end.

(** [_combine_warp_gates]; [path[-1]] raises [IndexError] on the empty path. *)
Definition combine_warp_gates (stations : gmap Z Station) (path : list Z) : result (list Z) :=
  let combined_path :=
    flat_map (fun '(current_id, next_id) => combine_pair stations current_id next_id)
      (zip path (tail path)) in
  match last path with
  | None => Raise IndexError
  | Some last_id =>
      match stations !! last_id with
      | Some last_station =>
          if is_station last_station then Ok (combined_path ++ [last_id])
          else Ok combined_path
      | None => Ok combined_path
      end
  end.

(** [_get_location_info]; [station_data['region_name']] raises [KeyError]
    when the loader found no solar system for the station. *)
Definition get_location_info (stations : gmap Z Station)
  (solar_systems : gmap Z SolarSystem) (loc : Z) (index : nat)
  : result (option LocationInfo) :=
  match stations !! loc with
  | Some station_data =>
      let solar_system := solar_systems !! solar_system_id station_data in
      match region_name station_data with
      | None => Raise KeyError
      | Some region =>
          Ok (Some {| id := index;
                      location_id := loc;
                      station_id := Some loc;
                      info_solar_system_id := solar_system_id station_data;
                      location_type := "station";
                      location :=
                        (region ++ " - " ++ from_option sys_item_name EmptyString solar_system
                           ++ " - " ++ item_name station_data)%string;
                      actions := [] |})
      end
  | None =>
      match solar_systems !! loc with
      | Some solar_system_data =>
          Ok (Some {| id := index;
                      location_id := loc;
                      station_id := None;
                      info_solar_system_id := loc;
                      location_type := "system";
                      location :=
                        (sys_region_name solar_system_data ++ " - "
                           ++ sys_item_name solar_system_data)%string;
                      actions := [] |})
      | None => Ok None
      end
  end.

(** The loop of [formatted_route] over [enumerate(combined_path)];
    [index] is the position of the first element of [combined_path]. *)
Fixpoint format_from (stations : gmap Z Station) (solar_systems : gmap Z SolarSystem)
  (index : nat) (combined_path : list Z) : result (list LocationInfo) :=
  match combined_path with
  | [] => Ok []
  | loc :: rest =>
      location_info ← get_location_info stations solar_systems loc index;
      formatted ← format_from stations solar_systems (S index) rest;
      Ok (match location_info with
          | Some info => info :: formatted
          | None => formatted
          end)
  end.

Definition formatted_route (stations : gmap Z Station) (solar_systems : gmap Z SolarSystem)
  (path : list Z) : result (list LocationInfo) :=
  combined_path ← combine_warp_gates stations path;
  format_from stations solar_systems 0 combined_path.

(** *** Edges *)

(** All pairs [(l[i], l[j])] with [i < j]. *)
Fixpoint pairs_of (l : list Z) : list (Z * Z) :=
  match l with
  | [] => []
  | x :: l' => map (pair x) l' ++ pairs_of l'
  end.

Definition stations_by_system (stations : gmap Z Station) : gmap Z (list Z) :=
  fold_left
    (fun by_system '(station_id, station_data) =>
       <[solar_system_id station_data :=
           default [] (by_system !! solar_system_id station_data) ++ [station_id]]> by_system)
    (map_to_list stations) ∅.

(** The pairs handed to [add_edge] by [_add_intra_system_connections] and
    [_load_star_gate_connections].  The graph is undirected: an edge of the
    graph is such a pair read in either direction. *)
Definition added_edges (stations : gmap Z Station) (connections : list (Z * Z)) : list (Z * Z) :=
  flat_map (fun '(_, system_stations) => pairs_of system_stations)
    (map_to_list (stations_by_system stations))
  ++ filter (fun '(from_station, to_station) =>
               is_Some (stations !! from_station) ∧ is_Some (stations !! to_station))
       connections.

Definition is_edge (stations : gmap Z Station) (connections : list (Z * Z)) (u v : Z) : Prop :=
  (u, v) ∈ added_edges stations connections ∨ (v, u) ∈ added_edges stations connections.

(** *** Time and risk *)

Local Open Scope R_scope.

(** Float division and [math.log], with the exceptions they raise. *)
Definition fdiv (a b : R) : result R :=
  if Req_dec_T b 0 then Raise ZeroDivisionError else Ok (a / b).

Definition log (x : R) : result R :=
  if Rlt_dec 0 x then Ok (ln x) else Raise ValueError.

Definition AU_IN_M : R := 149597870700.

Definition calculate_time_in_warp (warp_dist max_warp_speed max_subwarp_speed : R) : result R :=
  let k_accel := max_warp_speed in
  let k_decel := Rmin (max_warp_speed / 3) 2 in
  let warp_dropout_speed := Rmin (max_subwarp_speed / 2) 100 in
  let max_ms_warp_speed := max_warp_speed * AU_IN_M in
  let accel_dist := AU_IN_M in
  decel_dist ← fdiv max_ms_warp_speed k_decel;
  let minimum_dist := accel_dist + decel_dist in
  '(max_ms_warp_speed, cruise_time) ←
    (if Rlt_dec warp_dist minimum_dist
     then v ← fdiv (warp_dist * k_accel * k_decel) (k_accel + k_decel); Ok (v, 0)
     else c ← fdiv (warp_dist - minimum_dist) max_ms_warp_speed; Ok (max_ms_warp_speed, c));
  a ← fdiv max_ms_warp_speed k_accel;
  la ← log a;
  accel_time ← fdiv la k_accel;
  d ← fdiv max_ms_warp_speed warp_dropout_speed;
  ld ← log d;
  decel_time ← fdiv ld k_decel;
  Ok (cruise_time + accel_time + decel_time).

Definition warp_distance (position_from position_to : R * R * R) : R :=
  let '(x1, y1, z1) := position_from in
  let '(x2, y2, z2) := position_to in
  sqrt ((x1 - x2) ^ 2 + (y1 - y2) ^ 2 + (z1 - z2) ^ 2).

Definition station_data (stations : gmap Z Station) (station : Z) : result Station :=
  match stations !! station with
  | Some data => Ok data
  | None => Raise KeyError
  end.

Definition calculate_time (stations : gmap Z Station) (from_station to_station : Z)
  (ship : ShipProfile) : result R :=
  let max_warp_speed := default 1 (max_warp_speed ship) in
  let max_subwarp_speed := default 1 (max_subwarp_speed ship) in
  from_data ← station_data stations from_station;
  to_data ← station_data stations to_station;
  if bool_decide (solar_system_id from_data ≠ solar_system_id to_data) then Ok 9
  else
    let warp_dist := warp_distance (position from_data) (position to_data) in
    time_in_warp ← calculate_time_in_warp warp_dist max_warp_speed max_subwarp_speed;
    Ok (time_in_warp + 2).

Definition calculate_risk (stations : gmap Z Station) (to_station : Z)
  (gankers_areas : gmap string R) : result R :=
  data ← station_data stations to_station;
  let security := security data in
  let solar_system_name := default EmptyString (solar_system_name data) in
  let risk := 4 / 100000 + (1 - security) * (4 / 10000) in
  let risk := if Rlt_dec security (5 / 10) then risk + 5 / 1000 else risk in
  let risk := if Rlt_dec security (1 / 10) then risk + 5 / 10 else risk in
  Ok (risk + default 0 (gankers_areas !! solar_system_name)).

Record EdgeData : Type := {
  time : R;
  risk : R;
  weight : R
}.

(** The body of the loop of [_add_time_and_risk] for the edge [(u, v)]. *)
Definition edge_data (stations : gmap Z Station) (ship : ShipProfile) (u v : Z) : result EdgeData :=
  time ← calculate_time stations u v ship;
  risk ← calculate_risk stations v (default ∅ (gankers_areas ship));
  let weight := time * default 1 (player_cost ship) + default 1 (risk_cost ship) * risk in
  Ok {| time := time; risk := risk; weight := weight |}.

End Graph.

(** ** pathfinder.py *)

Module Pathfinder.

Import Arbitrage.

Record Ship : Type := {
  location : Z;
  cargo : Z;
  max_warp_speed : Q;
  max_subwarp_speed : Q;
  gankers_areas : list string;
  player_cost : Q;
  risk_cost : Q;
  (** not a field of the dataclass: [route] reads it with
      [getattr(ship, 'ship_cost', 0.0)]; [None] when the attribute is absent *)
  ship_cost : option Q
}.

Definition with_net_profit (order_match : Trade) (net : option Q) : Trade :=
  {| from_station := from_station order_match;
     to_station := to_station order_match;
     from_order_id := from_order_id order_match;
     to_order_id := to_order_id order_match;
     item_name := item_name order_match;
     type_id := type_id order_match;
     item_cargo_volume := item_cargo_volume order_match;
     from_price := from_price order_match;
     to_price := to_price order_match;
     quantity := quantity order_match;
     Arbitrage.cargo := Arbitrage.cargo order_match;
     gross_profit := gross_profit order_match;
     net_profit := net |}.

(** The body of the loop of [calculate_net_profit]: the assignment to
    [order_match.net_profit]. *)
Definition set_net_profit (paths : gmap Z (gmap Z Q)) (ship : Ship) (order_match : Trade) : Trade :=
  let cost_to_source :=
    Graph.shortest_path_length paths (location ship) (from_station order_match) in
  let cost_to_destination :=
    Graph.shortest_path_length paths (from_station order_match) (to_station order_match) in
  match cost_to_source, cost_to_destination with
  | Some to_source, Some to_destination =>
      let total_transport_cost := (to_source + to_destination)%Q in
      with_net_profit order_match (Some (gross_profit order_match - total_transport_cost)%Q)
  | _, _ => with_net_profit order_match None
  end.

Definition calculate_net_profit (order_matches : list Trade) (paths : gmap Z (gmap Z Q))
  (ship : Ship) : list Trade :=
  map (set_net_profit paths ship) order_matches.

(** [order_match.net_profit and order_match.net_profit > 0]: [None] and
    [0.0] are false. *)
Definition is_profitable (order_match : Trade) : bool :=
  match net_profit order_match with
  | None => false
  | Some net => negb (Qeq_bool net 0) && (if Qlt_le_dec 0 net then true else false)
  end.

Definition filter_order_matches_low_profit (order_matches : list Trade) : list Trade :=
  filter (fun order_match => is_profitable order_match = true) order_matches.

(** What the functions of this file read of the navigation graph: the
    nodes of [graph.graph], [graph.stations], [graph.solar_systems] and the
    table [graph.paths] behind [shortest_path_length]. *)
Record NavigationGraph : Type := {
  nodes : gset Z;
  stations : gmap Z Graph.Station;
  solar_systems : gmap Z Graph.SolarSystem;
  paths : gmap Z (gmap Z Q)
}.

Definition filter_order_matches_not_in_graph (order_matches : list Trade)
  (graph : NavigationGraph) : list Trade :=
  filter
    (fun order_match =>
       from_station order_match ∈ nodes graph ∧ to_station order_match ∈ nodes graph)
    order_matches.

(** The body of the loop of [filter_order_matches_same_region]: whether
    the trade is appended.  [graph.solar_systems[...]] raises [KeyError]
    for a solar system that is not in the table. *)
Definition in_one_region (graph : NavigationGraph) (order_match : Trade) : result bool :=
  let from_station_data := stations graph !! from_station order_match in
  let to_station_data := stations graph !! to_station order_match in
  match from_station_data, to_station_data with
  | Some from_data, Some to_data =>
      match solar_systems graph !! Graph.solar_system_id from_data with
      | None => Raise KeyError
      | Some from_system =>
          match solar_systems graph !! Graph.solar_system_id to_data with
          | None => Raise KeyError
          | Some to_system =>
              Ok (bool_decide
                    (Graph.sys_region_id from_system = Graph.sys_region_id to_system))
          end
      end
  | _, _ => Ok false
  end.

Fixpoint filter_order_matches_same_region (order_matches : list Trade)
  (graph : NavigationGraph) : result (list Trade) :=
  match order_matches with
  | [] => Ok []
  | order_match :: rest =>
      keep ← in_one_region graph order_match;
      filtered_order_matches ← filter_order_matches_same_region rest graph;
      Ok (if keep : bool then order_match :: filtered_order_matches
          else filtered_order_matches)
  end.

Definition pathfinder (order_matches : list Trade) (graph : NavigationGraph) (ship : Ship)
  : result (list Trade) :=
  let order_matches := filter_order_matches_not_in_graph order_matches graph in
  order_matches ← filter_order_matches_same_region order_matches graph;
  let order_matches := calculate_net_profit order_matches (paths graph) ship in
  Ok (filter_order_matches_low_profit order_matches).

End Pathfinder.

(** ** route.py *)

Module Route.

Import Arbitrage.

Definition MAX_TRADES_TO_CONSIDER : nat := Z.to_nat 20000.
Definition MAX_CAPITAL : Z := 100000000.

Record Action : Type := {
  action_type : string;
  item : string;
  action_type_id : Z;
  action_quantity : Z;
  price : Q
}.

Record RouteStep : Type := {
  location_id : Z;
  station_name : string;
  actions : list Action
}.

Definition Route : Type := list RouteStep.

(** A step at run time.  [Route] is annotated as a list of [RouteStep]
    objects, and [set_actions] reads the attributes of such an object;
    [formatted_route] of graph.py returns a list of dicts with the keys of
    [Graph.LocationInfo]. *)
Inductive Step : Type :=
| Object (step : RouteStep)
| Dict (info : Graph.LocationInfo).

(** [step.location_id] and [step.actions]: a [RouteStep] has these
    attributes, a dict has not. *)
Definition attributes (step : Step) : result RouteStep :=
  match step with
  | Object step => Ok step
  | Dict _ => Raise AttributeError
  end.

Record RouteInfo : Type := {
  profit_rate : Q;
  risk : Q;
  capital : Q;
  transport_time : Q;
  info_gross_profit : Q;
  info_net_profit : Q
}.

(** What [route] uses of the graph, an object of the class of graph.py:
    [shortest_path] ([None] when it returns [None] or raises, both of which
    end in [continue]), the [risk] and [time] attributes of an edge ([None]
    when [graph.graph[u][v]] has no such entry), and the two tables that
    [formatted_route] reads. *)
Record Graph : Type := {
  shortest_path : Z -> Z -> option (list Z);
  edge : Z -> Z -> option (Q * Q);
  stations : gmap Z Graph.Station;
  solar_systems : gmap Z Graph.SolarSystem
}.

(** [graph.formatted_route(path)]. *)
Definition formatted_route (graph : Graph) (path : list Z)
  : result (list Graph.LocationInfo) :=
  Graph.formatted_route (stations graph) (solar_systems graph) path.

(** [stations.index(x)]: the first position of [x]. *)
Fixpoint index (stations : list Z) (x : Z) : option nat :=
  match stations with
  | [] => None
  | y :: rest => if bool_decide (y = x) then Some O else S <$> index rest x
  end.

Definition on_the_way (stations : list Z) (trade : Trade) : bool :=
  match index stations (from_station trade), index stations (to_station trade) with
  | Some i, Some j => bool_decide (i < j)%nat
  | _, _ => false
  end.

Definition cargo_density (trade : Trade) : Q :=
  if Qlt_le_dec 0 (Arbitrage.cargo trade)
  then (gross_profit trade / Arbitrage.cargo trade)%Q else 0%Q.

(** The variables assigned in the loop of [select_trades]. *)
Record Selection : Type := {
  used_orders : gmap Z Z;
  optimized_trades : list Trade;
  cargo : Q;
  capital_spent : Q
}.

Definition requantified (trade : Trade) (max_quantity : Z) : Trade :=
  {| from_station := from_station trade;
     to_station := to_station trade;
     from_order_id := from_order_id trade;
     to_order_id := to_order_id trade;
     item_name := item_name trade;
     type_id := type_id trade;
     item_cargo_volume := item_cargo_volume trade;
     from_price := from_price trade;
     to_price := to_price trade;
     quantity := max_quantity;
     Arbitrage.cargo := (item_cargo_volume trade * inject_Z max_quantity)%Q;
     gross_profit := ((to_price trade - from_price trade) * inject_Z max_quantity)%Q;
     net_profit := None |}.

Definition select_body (ship : Pathfinder.Ship) (s : Selection) (trade : Trade)
  : result (ctrl Selection) :=
  let quantity := Arbitrage.quantity trade in
  let from_order := from_order_id trade in
  let to_order := to_order_id trade in
  let from_remaining := default quantity (used_orders s !! from_order) in
  let to_remaining := default quantity (used_orders s !! to_order) in
  max_quantity_by_cargo ←
    floordiv (inject_Z (Pathfinder.cargo ship) - cargo s) (item_cargo_volume trade);
  max_quantity_by_capital ←
    floordiv (inject_Z MAX_CAPITAL - capital_spent s) (from_price trade);
  let max_quantity :=
    Z.min quantity (Z.min from_remaining (Z.min to_remaining
      (Z.min max_quantity_by_cargo max_quantity_by_capital))) in
  if bool_decide (max_quantity ≤ 0) then Ok (Continue s)
  else
    let cargo := (cargo s + item_cargo_volume trade * inject_Z max_quantity)%Q in
    let capital := (capital_spent s + from_price trade * inject_Z max_quantity)%Q in
    let used_orders := <[from_order := from_remaining - max_quantity]> (used_orders s) in
    let used_orders := <[to_order := to_remaining - max_quantity]> used_orders in
    let s' := {| used_orders := used_orders;
                 optimized_trades := optimized_trades s ++ [requantified trade max_quantity];
                 cargo := cargo;
                 capital_spent := capital |} in
    if Qle_bool (inject_Z (Pathfinder.cargo ship)) cargo || Qle_bool (inject_Z MAX_CAPITAL) capital
    then Ok (Break s')
    else Ok (Continue s').

Definition select_trades (stations : list Z) (trades : list Trade) (ship : Pathfinder.Ship)
  : result (list Trade) :=
  let filtered_trades := filter (fun trade => on_the_way stations trade = true) trades in
  let filtered_trades := sort_by (key_desc cargo_density) filtered_trades in
  s ← for_each (select_body ship) filtered_trades
        {| used_orders := ∅; optimized_trades := []; cargo := 0; capital_spent := 0 |};
  Ok (optimized_trades s).

(** [sum(...)] over floats, from the left. *)
Definition sum_Q (l : list Q) : Q := fold_left Qplus l 0%Q.

Definition with_action (step : RouteStep) (action : Action) : RouteStep :=
  {| location_id := location_id step;
     station_name := station_name step;
     actions := actions step ++ [action] |}.

(** The inner loop of [set_actions], [for step in route], for one trade;
    [bought_items] is threaded through the steps. *)
Fixpoint visit_steps (trade : Trade) (bought_items : gset Z) (route : Route)
  : gset Z * Route :=
  match route with
  | [] => (bought_items, [])
  | step :: rest =>
      let '(bought_items, step) :=
        if bool_decide (from_station trade = location_id step)
        then ({[type_id trade]} ∪ bought_items,
              with_action step
                {| action_type := "buy";
                   item := item_name trade;
                   action_type_id := type_id trade;
                   action_quantity := quantity trade;
                   price := from_price trade |})
        else (bought_items, step) in
      let step :=
        if bool_decide (to_station trade = location_id step)
           && bool_decide (type_id trade ∈ bought_items)
        then with_action step
               {| action_type := "sell";
                  item := item_name trade;
                  action_type_id := type_id trade;
                  action_quantity := quantity trade;
                  price := to_price trade |}
        else step in
      let '(bought_items, rest) := visit_steps trade bought_items rest in
      (bought_items, step :: rest)
  end.

(** The order of the tuples [(action_type, item, price)]. *)
Definition action_le (a b : Action) : bool :=
  match String.compare (action_type a) (action_type b) with
  | Lt => true
  | Gt => false
  | Eq =>
      match String.compare (item a) (item b) with
      | Lt => true
      | Gt => false
      | Eq => Qle_bool (price a) (price b)
      end
  end.

Definition set_actions (route : Route) (trades : list Trade) : Route :=
  let '(_, route) :=
    fold_left (fun '(bought_items, route) trade => visit_steps trade bought_items route)
      trades (∅, route) in
  map (fun step =>
         {| location_id := location_id step;
            station_name := station_name step;
            actions := sort_by action_le (actions step) |})
    route.

(** [set_actions] on the steps that it is given at run time.  The body of
    the inner loop starts with [step.location_id] and the last loop with
    [step.actions]: on a [RouteStep] the loops do what [visit_steps] and
    the sort of [set_actions] do, on a dict they raise. *)
Definition visit_step (trade : Trade) (bought_items : gset Z) (step : RouteStep)
  : gset Z * RouteStep :=
  let '(bought_items, step) :=
    if bool_decide (from_station trade = location_id step)
    then ({[type_id trade]} ∪ bought_items,
          with_action step
            {| action_type := "buy";
               item := item_name trade;
               action_type_id := type_id trade;
               action_quantity := quantity trade;
               price := from_price trade |})
    else (bought_items, step) in
  let step :=
    if bool_decide (to_station trade = location_id step)
       && bool_decide (type_id trade ∈ bought_items)
    then with_action step
           {| action_type := "sell";
              item := item_name trade;
              action_type_id := type_id trade;
              action_quantity := quantity trade;
              price := to_price trade |}
    else step in
  (bought_items, step).

Fixpoint visit_run_time_steps (trade : Trade) (bought_items : gset Z) (route : list Step)
  : result (gset Z * list Step) :=
  match route with
  | [] => Ok (bought_items, [])
  | step :: rest =>
      step ← attributes step;
      let '(bought_items, step) := visit_step trade bought_items step in
      '(bought_items, rest) ← visit_run_time_steps trade bought_items rest;
      Ok (bought_items, Object step :: rest)
  end.

Fixpoint sort_run_time_steps (route : list Step) : result (list Step) :=
  match route with
  | [] => Ok []
  | step :: rest =>
      step ← attributes step;
      rest ← sort_run_time_steps rest;
      Ok (Object {| location_id := location_id step;
                    station_name := station_name step;
                    actions := sort_by action_le (actions step) |} :: rest)
  end.

Definition set_actions_at_run_time (route : list Step) (trades : list Trade)
  : result (list Step) :=
  '(_, route) ←
    for_each
      (fun '(bought_items, route) trade =>
         visited ← visit_run_time_steps trade bought_items route;
         Ok (Continue visited))
      trades (∅, route);
  sort_run_time_steps route.

(** The sort key of [route]. *)
Definition capital_density (trade : Trade) : Q :=
  if Qlt_le_dec 0 (from_price trade * inject_Z (quantity trade))
  then (gross_profit trade / (from_price trade * inject_Z (quantity trade)))%Q else 0%Q.

(** [sum(graph.graph[u][v][attribute] for u, v in zip(path, path[1:]))]. *)
Definition sum_over_path (graph : Graph) (attribute : Q * Q -> Q) (path : list Z) : result Q :=
  for_each
    (fun total '(u, v) =>
       match edge graph u v with
       | Some data => Ok (Continue (total + attribute data)%Q)
       | None => Raise KeyError
       end)
    (zip path (tail path)) 0%Q.

(** [path = shortest_path(a, b)[:-1]; path += shortest_path(b, c)] inside
    [try]: [None] when either call gives no path. *)
Definition find_path (graph : Graph) (a b c : Z) : option (list Z) :=
  first_leg ← shortest_path graph a b;
  second_leg ← shortest_path graph b c;
  Some (removelast first_leg ++ second_leg).

(** The variables assigned in the loop of [route]. *)
Record Search : Type := {
  best_profit_rate : Q;
  best_route : option (list Step);
  best_route_info : option RouteInfo;
  seen_routes : gset (Z * Z * Z)
}.

(** What the body of the loop of [route] computes for the trade of one
    skeleton before it compares: the path, the selected trades and the
    figures of the route, or [None] where the source says [continue]. *)
Record Evaluation : Type := {
  eval_path : list Z;
  eval_trades : list Trade;
  eval_info : RouteInfo
}.

Definition evaluate (trades : list Trade) (graph : Graph) (ship : Pathfinder.Ship)
  (trade : Trade) : result (option Evaluation) :=
  optimized_trades ←
    select_trades [Pathfinder.location ship; from_station trade; to_station trade] trades ship;
  let total_profit := sum_Q (map gross_profit optimized_trades) in
  if bool_decide (optimized_trades = []) || Qle_bool total_profit 0 then Ok None
  else
    match find_path graph (Pathfinder.location ship) (from_station trade) (to_station trade) with
    | None => Ok None
    | Some path =>
        risk ← sum_over_path graph fst path;
        transport_time ← sum_over_path graph snd path;
        let capital :=
          (default 0 (Pathfinder.ship_cost ship)
           + sum_Q (map (fun t => from_price t * inject_Z (quantity t)) optimized_trades))%Q in
        if Qeq_bool transport_time 0 then Ok None
        else
          let net_profit := (total_profit - risk * capital)%Q in
          let profit_rate := (net_profit / transport_time)%Q in
          Ok (Some {| eval_path := path;
                      eval_trades := optimized_trades;
                      eval_info :=
                        {| profit_rate := profit_rate;
                           risk := risk;
                           capital := capital;
                           transport_time := transport_time;
                           info_gross_profit := total_profit;
                           info_net_profit := net_profit |} |})
    end.

(** The end of the body: [if profit_rate > best_profit_rate: ...].  The
    steps that [set_actions] is given here are the dicts of
    [graph.formatted_route]. *)
Definition compare_with_best (graph : Graph) (s : Search) (e : Evaluation) : result Search :=
  if Qlt_le_dec (best_profit_rate s) (profit_rate (eval_info e))
  then
    formatted_route ← formatted_route graph (eval_path e);
    final_route ← set_actions_at_run_time (Dict <$> formatted_route) (eval_trades e);
    Ok {| best_profit_rate := profit_rate (eval_info e);
          best_route := Some final_route;
          best_route_info := Some (eval_info e);
          seen_routes := seen_routes s |}
  else Ok s.

Definition route_body (trades : list Trade) (graph : Graph) (ship : Pathfinder.Ship)
  (s : Search) (trade : Trade) : result (ctrl Search) :=
  let route_stations := (Pathfinder.location ship, from_station trade, to_station trade) in
  if bool_decide (route_stations ∈ seen_routes s) then Ok (Continue s)
  else
    let s := {| best_profit_rate := best_profit_rate s;
                best_route := best_route s;
                best_route_info := best_route_info s;
                seen_routes := {[route_stations]} ∪ seen_routes s |} in
    evaluation ← evaluate trades graph ship trade;
    match evaluation with
    | None => Ok (Continue s)
    | Some e => s ← compare_with_best graph s e; Ok (Continue s)
    end.

Definition route (trades : list Trade) (graph : Graph) (ship : Pathfinder.Ship)
  : result (option (list Step) * option RouteInfo) :=
  let trades := sort_by (key_desc capital_density) trades in
  s ← for_each (route_body trades graph ship) (take MAX_TRADES_TO_CONSIDER trades)
        {| best_profit_rate := 0;
           best_route := None;
           best_route_info := None;
           seen_routes := ∅ |};
  Ok (best_route s, best_route_info s).

End Route.

(** * Terms of the properties

    The predicates in which the properties are stated, and the examples
    on which they are tried. *)

Section MatcherExamples.

Import Market Arbitrage.

(** An order book: one seller in region 1, one buyer in region 2, and a
    small sell order. *)
Definition example_order (id region station : Z) (buy : bool) (price : Q) (volume : Z) : Order :=
  {| order_id := id;
     region_id := region;
     location_id := station;
     Market.type_id := 34;
     is_buy_order := buy;
     price := price;
     issued := 0;
     volume_remain := volume;
     Market.item_name := "Tritanium";
     Market.item_cargo_volume := 1 |}.

Definition example_orders : list Order :=
  [ example_order 1 1 10 false 1 1000000;
    example_order 2 2 20 true 100 1000000;
    example_order 3 1 10 false 2 50 ].

Definition example_trade : Trade :=
  {| from_station := 10;
     to_station := 20;
     from_order_id := 1;
     to_order_id := 2;
     item_name := "Tritanium";
     type_id := 34;
     item_cargo_volume := 1;
     from_price := 1;
     to_price := 100;
     quantity := 1000000;
     cargo := inject_Z 1000000 * 1;
     gross_profit := inject_Z 1000000 * (100 * (1 - TAX_RATE) - 1);
     net_profit := None |}.

End MatcherExamples.

Section FiltersTerms.

Import Market Arbitrage.

(** [s] is a copy of [o] with a smaller, positive [volume_remain]. *)
Definition capped_copy (o s : Order) : Prop :=
  s = with_volume_remain o (volume_remain s) ∧ 1 ≤ volume_remain s ≤ volume_remain o.

(** What a filter that was given the list [orders] of references into
    [heap] has done when it ends with the heap [heap'] and the list [out]:
    the objects of [heap] are as they were, the references of [out] are new
    and distinct, and they are capped copies of the objects of a
    subsequence [kept] of [orders], in the same order. *)
Definition copies_of (heap : list Order) (orders : list nat)
  (heap' : list Order) (out : list nat) : Prop :=
  heap `prefix_of` heap'
  ∧ Forall (fun new => (length heap ≤ new < length heap')%nat) out
  ∧ NoDup out
  ∧ ∃ kept, kept `sublist_of` orders
      ∧ Forall2
          (fun new old =>
             ∃ o s, heap !! old = Some o ∧ heap' !! new = Some s ∧ capped_copy o s)
          out kept.

End FiltersTerms.

Section SnipeTerms.

Import Market Arbitrage.

(** The trades [snipe] chooses from: those whose sell order is recorded in
    the region. *)
Definition region_trades (orders : list Order) (cargo_space current_region : Z) : list Trade :=
  filter (fun trade => order_regions orders !! from_order_id trade = Some current_region)
    (arbitrage orders cargo_space).

End SnipeTerms.

Section SelectionTerms.

Import Arbitrage Route.

(** The trade has the order [o] as its sell order or as its buy order. *)
Definition uses_order (o : Z) (t : Trade) : bool :=
  bool_decide (from_order_id t = o) || bool_decide (to_order_id t = o).

(** The quantity the trades of [selected] take from the order [o]. *)
Definition order_use (o : Z) (selected : list Trade) : Z :=
  foldr (fun t total => (if uses_order o t then quantity t else 0) + total) 0 selected.

(** The volume of the order [o] as the trades show it: the largest quantity
    of a trade on that order (a trade of the matcher has the smaller of the
    volumes of its two orders as its quantity). *)
Definition order_volume (o : Z) (trades : list Trade) : Z :=
  foldr (fun t volume => if uses_order o t then Z.max (quantity t) volume else volume) 0 trades.

Definition total_cargo (selected : list Trade) : Q :=
  sum_Q (map (fun t => item_cargo_volume t * inject_Z (quantity t))%Q selected).

Definition total_capital (selected : list Trade) : Q :=
  sum_Q (map (fun t => from_price t * inject_Z (quantity t))%Q selected).

(** The invariant of the loop of [select_trades]: the running totals are
    the totals of the trades accepted so far and are within the budgets,
    and what is recorded as left of an order, added to what the accepted
    trades take from it, is within the volume of the order. *)
Definition selection_ok (ship : Pathfinder.Ship) (trades : list Trade) (s : Selection) : Prop :=
  cargo s = total_cargo (optimized_trades s)
  ∧ capital_spent s = total_capital (optimized_trades s)
  ∧ (cargo s <= inject_Z (Pathfinder.cargo ship))%Q
  ∧ (capital_spent s <= inject_Z MAX_CAPITAL)%Q
  ∧ ∀ o,
      match used_orders s !! o with
      | Some remaining =>
          0 ≤ remaining ∧ order_use o (optimized_trades s) + remaining ≤ order_volume o trades
      | None => order_use o (optimized_trades s) = 0
      end.

End SelectionTerms.

Section SelectionExamples.

Import Arbitrage Route.

Definition example_ship (hold : Z) : Pathfinder.Ship :=
  {| Pathfinder.location := 0;
     Pathfinder.cargo := hold;
     Pathfinder.max_warp_speed := 8;
     Pathfinder.max_subwarp_speed := 200;
     Pathfinder.gankers_areas := [];
     Pathfinder.player_cost := 1;
     Pathfinder.risk_cost := 1;
     Pathfinder.ship_cost := None |}.

(** The scenario of the specification: a hold of 10 and two trades which
    need 6 each.  The denser trade is taken whole, the other for the 4
    units that are left. *)
Definition scenario_trade (sell_order buy_order : Z) (sell_price buy_price : Q) : Trade :=
  {| from_station := 10;
     to_station := 20;
     from_order_id := sell_order;
     to_order_id := buy_order;
     item_name := "Tritanium";
     type_id := 34;
     item_cargo_volume := 1;
     from_price := sell_price;
     to_price := buy_price;
     quantity := 6;
     Arbitrage.cargo := inject_Z 6 * 1;
     gross_profit := inject_Z 6 * (buy_price * (1 - TAX_RATE) - sell_price);
     net_profit := None |}.

End SelectionExamples.

Section SearchTerms.

Import Arbitrage Route.

Definition skeleton (ship : Pathfinder.Ship) (trade : Trade) : Z * Z * Z :=
  (Pathfinder.location ship, from_station trade, to_station trade).

(** The trades of [l] whose skeleton is neither in [seen] nor the skeleton
    of an earlier trade of [l]: the trades whose skeleton the loop
    evaluates. *)
Fixpoint unseen (ship : Pathfinder.Ship) (seen : gset (Z * Z * Z)) (l : list Trade)
  : list Trade :=
  match l with
  | [] => []
  | trade :: rest =>
      if bool_decide (skeleton ship trade ∈ seen) then unseen ship seen rest
      else trade :: unseen ship ({[skeleton ship trade]} ∪ seen) rest
  end.

(** The results of [f] on the elements of [l], in order, without those
    for which there is none; the first exception ends it. *)
Fixpoint evaluate_each {A B : Type} (f : A -> result (option B)) (l : list A)
  : result (list B) :=
  match l with
  | [] => Ok []
  | x :: rest =>
      r ← f x;
      results ← evaluate_each f rest;
      Ok (match r with
          | Some b => b :: results
          | None => results
          end)
  end.

(** The evaluated skeletons of a run of [route], in the order of their
    evaluation. *)
Definition evaluated_skeletons (trades : list Trade) (graph : Graph)
  (ship : Pathfinder.Ship) : result (list Evaluation) :=
  let trades := sort_by (key_desc capital_density) trades in
  evaluate_each (evaluate trades graph ship)
    (unseen ship ∅ (take MAX_TRADES_TO_CONSIDER trades)).

Definition rate (e : Evaluation) : Q := profit_rate (eval_info e).

(** [e] is at position [i] of [evals], its profit rate is positive and the
    largest of [evals], and no earlier evaluation has that profit rate. *)
Definition first_best (evals : list Evaluation) (i : nat) (e : Evaluation) : Prop :=
  evals !! i = Some e
  ∧ (0 < rate e)%Q
  ∧ (∀ j e', evals !! j = Some e' → (rate e' <= rate e)%Q)
  ∧ (∀ j e', (j < i)%nat → evals !! j = Some e' → (rate e' < rate e)%Q).

(** The best evaluation so far ([None] before the first), its profit rate,
    and the comparison of the loop. *)
Definition rate_of (best : option Evaluation) : Q := from_option rate 0%Q best.

Definition improve (best : option Evaluation) (e : Evaluation) : option Evaluation :=
  if Qlt_le_dec (rate_of best) (rate e) then Some e else best.

(** The state [s] of the search holds the evaluation [best]: its profit
    rate and its figures, with a route that has no step, the formatted
    route of [best] having none. *)
Definition holds (graph : Graph) (s : Search) (best : option Evaluation) : Prop :=
  best_profit_rate s = rate_of best
  ∧ best_route_info s = eval_info <$> best
  ∧ best_route s = (fun _ => []) <$> best
  ∧ ∀ e, best = Some e → formatted_route graph (eval_path e) = Ok [].

(** The paths that [graph] finds run along edges of [graph], as the paths
    of [networkx] do. *)
Definition paths_have_edges (graph : Graph) : Prop :=
  ∀ a b c path u v,
    find_path graph a b c = Some path → (u, v) ∈ zip path (tail path) →
    is_Some (edge graph u v).

(** A graph in which every two stations are joined by an edge of 5 seconds
    and a risk of one in a million, with the stations 10, 20 and 30 in its
    station table, and two trades of the same item from station 10, to
    station 20 and to station 30, with the same prices and quantities. *)
Definition trade_station : Graph.Station :=
  {| Graph.is_station := true;
     Graph.item_name := "Station";
     Graph.security := 1%R;
     Graph.position := (0%R, 0%R, 0%R);
     Graph.solar_system_id := 30000142;
     Graph.region_id := 10000002;
     Graph.solar_system_name := Some "Jita"%string;
     Graph.region_name := Some "The Forge"%string |}.

Definition example_graph : Graph :=
  {| shortest_path := fun a b => Some [a; b];
     edge := fun _ _ => Some ((1 # 1000000)%Q, 5%Q);
     stations := {[ 10 := trade_station; 20 := trade_station; 30 := trade_station ]};
     solar_systems := ∅ |}.

Definition trade_to (station sell_order buy_order : Z) : Trade :=
  {| from_station := 10;
     to_station := station;
     from_order_id := sell_order;
     to_order_id := buy_order;
     item_name := "Tritanium";
     type_id := 34;
     item_cargo_volume := 1;
     from_price := 1;
     to_price := 100;
     quantity := 1000;
     Arbitrage.cargo := inject_Z 1000 * 1;
     gross_profit := inject_Z 1000 * (100 * (1 - TAX_RATE) - 1);
     net_profit := None |}.

End SearchTerms.

Section NetProfitTerms.

Import Arbitrage Pathfinder.

(** The table of all pairs has an entry for the pair. *)
Definition has_entry {A : Type} (paths : gmap Z (gmap Z A)) (source target : Z) : Prop :=
  ∃ row length, paths !! source = Some row ∧ row !! target = Some length.

(** A table in which station 10 is reached from 0 and 20 from 10, and
    nothing leads to 30. *)
Definition example_paths : gmap Z (gmap Z Q) :=
  {[ 0 := {[ 10 := 5%Q ]}; 10 := {[ 20 := 7%Q ]} ]}.

Definition unreachable_trade : Trade :=
  {| from_station := 10;
     to_station := 30;
     from_order_id := 1;
     to_order_id := 2;
     item_name := "Tritanium";
     type_id := 34;
     item_cargo_volume := 1;
     from_price := 1;
     to_price := 100;
     quantity := 1000000;
     Arbitrage.cargo := inject_Z 1000000 * 1;
     gross_profit := inject_Z 1000000 * (100 * (1 - TAX_RATE) - 1);
     net_profit := None |}.

End NetProfitTerms.

Section ShortWarpExamples.

Import Graph.

Local Open Scope R_scope.

(** Two stations of one solar system, one metre apart. *)
Definition near_station (x : R) : Station :=
  {| is_station := true;
     item_name := "Station";
     security := 1;
     position := (x, 0, 0);
     solar_system_id := 30000142;
     region_id := 10000002;
     solar_system_name := Some "Jita"%string;
     region_name := Some "The Forge"%string |}.

Definition near_stations : gmap Z Station :=
  {[ 1%Z := near_station 0; 2%Z := near_station 1 ]}.

(** Two stations of one solar system, a kilometre apart. *)
Definition warp_stations : gmap Z Station :=
  {[ 1%Z := near_station 0; 2%Z := near_station 1000 ]}.

(** The speed in m/s that the ship reaches on a warp of [warp_dist]: the
    value of [max_ms_warp_speed] in [_calculate_time_in_warp] when the two
    logarithms are taken. *)
Definition reached_speed (warp_dist max_warp_speed : R) : R :=
  let k_decel := Rmin (max_warp_speed / 3) 2 in
  if Rlt_dec warp_dist (AU_IN_M + max_warp_speed * AU_IN_M / k_decel)
  then warp_dist * max_warp_speed * k_decel / (max_warp_speed + k_decel)
  else max_warp_speed * AU_IN_M.

Definition example_profile : ShipProfile :=
  {| max_warp_speed := Some 3;
     max_subwarp_speed := Some 200;
     gankers_areas := None;
     player_cost := Some 1;
     risk_cost := Some 1 |}.

End ShortWarpExamples.

Section GateExamples.

Import Graph.

Local Open Scope R_scope.

(** Nodes of two solar systems, for an edge between the systems. *)
Definition far_station (system : Z) (x : R) : Station :=
  {| is_station := true;
     item_name := "Station";
     security := 1;
     position := (x, 0, 0);
     solar_system_id := system;
     region_id := 10000002;
     solar_system_name := None;
     region_name := None |}.

Definition far_stations : gmap Z Station :=
  {[ 1%Z := far_station 30000142 0; 2%Z := far_station 30000144 0 ]}.

Definition gate_edge_data : EdgeData :=
  {| time := 9;
     risk := 4 / 100000 + (1 - 1) * (4 / 10000) + 0;
     weight := 9 * 1 + 1 * (4 / 100000 + (1 - 1) * (4 / 10000) + 0) |}.

End GateExamples.

Section FormattedRouteTerms.

Import Graph.

(** [x] is a gate (a node of [stations] that is not a station) of the
    solar system [system]. *)
Definition gate_of (stations : gmap Z Station) (system x : Z) : Prop :=
  ∃ data, stations !! x = Some data ∧ is_station data = false
          ∧ solar_system_id data = system.

Definition station_node (stations : gmap Z Station) (x : Z) : Prop :=
  ∃ data, stations !! x = Some data ∧ is_station data = true.







(** [combined_path] for the path [current_id :: rest], by recursion. *)
Fixpoint combined_from (stations : gmap Z Station) (current_id : Z) (rest : list Z) : list Z :=
  match rest with
  | [] =>
      match stations !! current_id with
      | Some last_station => if is_station last_station then [current_id] else []
      | None => []
      end
  | next_id :: rest' =>
      combine_pair stations current_id next_id ++ combined_from stations next_id rest'
  end.

End FormattedRouteTerms.

Section FormattedRouteExamples.

Import Graph.

(** A system with three gates and one station, and a second system with
    one gate. *)
Definition route_node (station : bool) (system : Z) : Station :=
  {| is_station := station;
     item_name := "Node";
     security := 1;
     position := (0%R, 0%R, 0%R);
     solar_system_id := system;
     region_id := 10000002;
     solar_system_name := Some "Jita"%string;
     region_name := Some "The Forge"%string |}.

Definition route_nodes : gmap Z Station :=
  {[ 1 := route_node false 30000142;
     2 := route_node false 30000142;
     3 := route_node false 30000142;
     4 := route_node false 30000144;
     10 := route_node true 30000144 ]}.


Definition route_systems : gmap Z SolarSystem :=
  {[ 30000142 :=
       {| sys_item_name := "Jita";
          sys_position := (0%R, 0%R, 0%R);
          sys_region_id := 10000002;
          sys_region_name := "The Forge" |} ]}.

End FormattedRouteExamples.

(** ** More terms: the matcher *)

Section MatcherTerms.

Import Market Arbitrage.

(** The two filters of [arbitrage], one after the other, on one order. *)
Definition capped_twice (cargo_space : Z) (order : Order) : option Order :=
  cap_for_cargo cargo_space order ≫= cap_for_capital_risk MAX_CAPITAL.

(** The order book of the examples with its orders in another order. *)
Definition example_orders_shuffled : list Order :=
  [ example_order 2 2 20 true 100 1000000;
    example_order 3 1 10 false 2 50;
    example_order 1 1 10 false 1 1000000 ].

End MatcherTerms.

Section ActionTerms.

Import Arbitrage Route.

(** The two actions that [set_actions] appends for a trade. *)
Definition buy_action (trade : Trade) : Action :=
  {| action_type := "buy";
     item := item_name trade;
     action_type_id := type_id trade;
     action_quantity := quantity trade;
     price := from_price trade |}.

Definition sell_action (trade : Trade) : Action :=
  {| action_type := "sell";
     item := item_name trade;
     action_type_id := type_id trade;
     action_quantity := quantity trade;
     price := to_price trade |}.

(** [new] is the step [old] with actions added at its end, each of them the
    buy action of a trade of [trades] that starts at the step or the sell
    action of one that ends there. *)
Definition step_gains (trades : list Trade) (old new : RouteStep) : Prop :=
  location_id new = location_id old
  ∧ station_name new = station_name old
  ∧ ∃ added,
      actions new = actions old ++ added
      ∧ Forall
          (fun a =>
             ∃ t, t ∈ trades
                  ∧ (a = buy_action t ∧ from_station t = location_id old
                     ∨ a = sell_action t ∧ to_station t = location_id old))
          added.

(** Some step of the route has a buy action for the item type. *)
Definition has_buy (route : Route) (item_type : Z) : Prop :=
  ∃ step a, step ∈ route ∧ a ∈ actions step
            ∧ action_type a = "buy"%string ∧ action_type_id a = item_type.

(** The sell actions of the route are for item types of which [known]
    holds or which the route has a buy action for. *)
Definition sells_covered (known : Z -> Prop) (route : Route) : Prop :=
  ∀ step a, step ∈ route → a ∈ actions step → action_type a = "sell"%string →
            known (action_type_id a) ∨ has_buy route (action_type_id a).

(** A route of two steps, at stations 10 and 20, without actions. *)
Definition example_route : Route :=
  [ {| location_id := 10; station_name := "Source"; actions := [] |};
    {| location_id := 20; station_name := "Destination"; actions := [] |} ].

End ActionTerms.

Section PathfinderTerms.

Import Arbitrage Pathfinder.

(** The two stations of the trade are known and their solar systems are in
    one region. *)
Definition same_region (graph : NavigationGraph) (t : Trade) : Prop :=
  ∃ from_data to_data from_system to_system,
    stations graph !! from_station t = Some from_data
    ∧ stations graph !! to_station t = Some to_data
    ∧ solar_systems graph !! Graph.solar_system_id from_data = Some from_system
    ∧ solar_systems graph !! Graph.solar_system_id to_data = Some to_system
    ∧ Graph.sys_region_id from_system = Graph.sys_region_id to_system.

(** The two stations of the trade are known and the solar system of one of
    them is not in the table of solar systems. *)
Definition system_missing (graph : NavigationGraph) (t : Trade) : Prop :=
  ∃ from_data to_data,
    stations graph !! from_station t = Some from_data
    ∧ stations graph !! to_station t = Some to_data
    ∧ (solar_systems graph !! Graph.solar_system_id from_data = None
       ∨ solar_systems graph !! Graph.solar_system_id to_data = None).

(** The trade passes [pathfinder]: both stations are nodes of the graph in
    one region, both distances are in the table, and what is left of the
    gross profit after them is positive. *)
Definition worth_hauling (graph : NavigationGraph) (ship : Ship) (t : Trade) : Prop :=
  from_station t ∈ nodes graph ∧ to_station t ∈ nodes graph
  ∧ same_region graph t
  ∧ ∃ to_source to_destination,
      Graph.shortest_path_length (paths graph) (location ship) (from_station t)
      = Some to_source
      ∧ Graph.shortest_path_length (paths graph) (from_station t) (to_station t)
        = Some to_destination
      ∧ (0 < gross_profit t - (to_source + to_destination))%Q
      ∧ set_net_profit (paths graph) ship t
        = with_net_profit t (Some (gross_profit t - (to_source + to_destination))%Q).

End PathfinderTerms.

Section EdgeTerms.

Import Graph.

(** The stations of [entries] that are in the solar system [system], in
    the order of [entries]. *)
Definition system_group (entries : list (Z * Station)) (system : Z) : list Z :=
  (filter (fun entry => solar_system_id entry.2 = system) entries).*1.

End EdgeTerms.

Section RiskTerms.

Import Graph.

Local Open Scope R_scope.

(** What [gankers_areas] adds to the risk of a node. *)
Definition ganker_bonus (gankers : gmap string R) (data : Station) : R :=
  default 0 (gankers !! default EmptyString (solar_system_name data)).

End RiskTerms.

Section StepTerms.

Import Graph.

(** The entries of [combined_path] that are in one of the two tables, each
    with its position in [enumerate(combined_path)] counted from [index]. *)
Definition known_locations (stations : gmap Z Station) (solar_systems : gmap Z SolarSystem)
  (index : nat) (combined_path : list Z) : list (nat * Z) :=
  filter (fun entry => is_Some (stations !! entry.2) ∨ is_Some (solar_systems !! entry.2))
    (zip (seq index (length combined_path)) combined_path).

End StepTerms.

(** * Properties *)

#[local] Arguments Qfloor : simpl never.
#[local] Arguments Qdiv : simpl never.
#[local] Arguments Qmult : simpl never.
#[local] Arguments Qplus : simpl never.
#[local] Arguments Qminus : simpl never.
#[local] Arguments Qopp : simpl never.
#[local] Arguments Qinv : simpl never.
#[local] Arguments inject_Z : simpl never.

(** ** Sorting *)

Section Sorting.

Context {A : Type} (le : A -> A -> bool).

Lemma insert_by_perm (x : A) (l : list A) : insert_by le x l ≡ₚ x :: l.
Proof.
  induction l as [|y l IH]; simpl; [done|].
  destruct (le x y); [done|].
  rewrite IH. apply Permutation_swap.
Qed.

Lemma sort_by_perm (l : list A) : sort_by le l ≡ₚ l.
Proof.
  induction l as [|x l IH]; simpl; [done|].
  by rewrite insert_by_perm, IH.
Qed.

Lemma elem_of_sort_by (x : A) (l : list A) : x ∈ sort_by le l ↔ x ∈ l.
Proof. by rewrite sort_by_perm. Qed.

Lemma sort_by_nil_inv (l : list A) : sort_by le l = [] → l = [].
Proof.
  intros H. apply Permutation_nil. rewrite <- H. apply sort_by_perm.
Qed.

Lemma insert_by_sorted (x : A) (l : list A) :
  (∀ a b, le a b = false → le b a = true) →
  Sorted (fun a b => le a b = true) l →
  Sorted (fun a b => le a b = true) (insert_by le x l).
Proof.
  intros Htotal. induction l as [|y l IH]; intros Hl; simpl.
  - by repeat constructor.
  - destruct (le x y) eqn:Hxy.
    + constructor; [done|]. by constructor.
    + apply Sorted_inv in Hl as [Hl Hy]. constructor; [by apply IH|].
      destruct l as [|z l]; simpl.
      * constructor. by apply Htotal.
      * destruct (le x z); constructor; [by apply Htotal|].
        by apply HdRel_inv in Hy.
Qed.

(** For a total comparison the result of [sort_by] is sorted. *)
Lemma sort_by_sorted (l : list A) :
  (∀ a b, le a b = false → le b a = true) →
  Sorted (fun a b => le a b = true) (sort_by le l).
Proof.
  intros Htotal. induction l as [|x l IH]; simpl; [constructor|].
  by apply insert_by_sorted.
Qed.

End Sorting.

(** With [reverse=True] the first element of the sorted list has the
    largest key. *)
Lemma sort_by_desc_head {A : Type} (key : A -> Q) (l : list A) (best : A) (rest : list A) :
  sort_by (key_desc key) l = best :: rest →
  ∀ x, x ∈ l → (key x <= key best)%Q.
Proof.
  revert best rest. induction l as [|a l IH]; intros best rest Hs x Hx.
  - by apply elem_of_nil in Hx.
  - simpl in Hs. destruct (sort_by (key_desc key) l) as [|y r] eqn:E.
    + apply sort_by_nil_inv in E. subst l. simpl in Hs.
      injection Hs as <- _. apply list_elem_of_singleton in Hx as ->. apply Qle_refl.
    + simpl in Hs. unfold key_desc at 1 in Hs.
      destruct (Qle_bool (key y) (key a)) eqn:Hle.
      * injection Hs as <- _. apply elem_of_cons in Hx as [->|Hx]; [apply Qle_refl|].
        apply Qle_bool_iff in Hle. eapply Qle_trans; [|exact Hle].
        by eapply IH.
      * injection Hs as <- _.
        apply elem_of_cons in Hx as [->|Hx]; [|by eapply IH].
        destruct (Qlt_le_dec (key a) (key y)) as [Hlt|Hge]; [by apply Qlt_le_weak|].
        apply Qle_bool_iff in Hge. congruence.
Qed.

(** ** Floor division *)

Lemma floor_quotient_bound (a b : Q) (q : Z) :
  (0 < b)%Q → q ≤ Qfloor (a / b) → (inject_Z q * b <= a)%Q.
Proof.
  intros Hb Hq.
  assert (inject_Z q <= a / b)%Q as H.
  { eapply Qle_trans; [|apply Qfloor_le]. by rewrite <- Zle_Qle. }
  apply (Qmult_le_compat_r _ _ b) in H; [|by apply Qlt_le_weak].
  rewrite (Qmult_comm (a / b)), Qmult_div_r in H; [done|].
  intros E. rewrite E in Hb. by apply Qlt_irrefl in Hb.
Qed.

Lemma Qeq_bool_false (x y : Q) : Qeq_bool x y = false → ¬ (x == y)%Q.
Proof. intros H E. apply Qeq_bool_iff in E. congruence. Qed.

(** ** The matcher *)

Section Matcher.

Import Market Arbitrage.

Lemma cap_for_cargo_Some (cargo_space : Z) (o s : Order) :
  cap_for_cargo cargo_space o = Some s →
  s = with_volume_remain o (volume_remain s)
  ∧ 1 ≤ volume_remain s ≤ volume_remain o
  ∧ ¬ (Market.item_cargo_volume o == 0)%Q
  ∧ volume_remain s ≤ Qfloor (inject_Z cargo_space / Market.item_cargo_volume o).
Proof.
  unfold cap_for_cargo.
  destruct (Qeq_bool _ 0) eqn:Hz; [done|].
  destruct (0 <? _) eqn:Hpos; [|done].
  intros [= <-]. simpl. apply Z.ltb_lt in Hpos. apply Qeq_bool_false in Hz.
  split_and!; [done|lia|lia|done|lia].
Qed.

Lemma cap_for_capital_risk_Some (max_amount : Z) (o s : Order) :
  cap_for_capital_risk max_amount o = Some s →
  s = with_volume_remain o (volume_remain s)
  ∧ 1 ≤ volume_remain s ≤ volume_remain o
  ∧ ¬ (Market.price o == 0)%Q
  ∧ volume_remain s ≤ Qfloor (inject_Z max_amount / Market.price o).
Proof.
  unfold cap_for_capital_risk.
  destruct (Qeq_bool _ 0) eqn:Hz; [done|].
  destruct (0 <? _) eqn:Hpos; [|done].
  intros [= <-]. simpl. apply Z.ltb_lt in Hpos. apply Qeq_bool_false in Hz.
  split_and!; [done|lia|lia|done|lia].
Qed.

(** Every order of a group of [group_by_type] is one of the orders grouped
    and has the type of its group. *)
Lemma group_by_type_sound (orders : list Order) (k : Z) (group : list Order) (o : Order) :
  group_by_type orders !! k = Some group → o ∈ group →
  o ∈ orders ∧ Market.type_id o = k.
Proof.
  unfold group_by_type.
  assert (∀ (m : gmap Z (list Order)) (seen : list Order),
    (∀ k g o, m !! k = Some g → o ∈ g → o ∈ seen ∧ Market.type_id o = k) →
    fold_left
      (fun grouped order =>
         <[Market.type_id order :=
             default [] (grouped !! Market.type_id order) ++ [order]]> grouped)
      orders m !! k = Some group →
    o ∈ group → o ∈ seen ++ orders ∧ Market.type_id o = k) as Hgen.
  { induction orders as [|x orders IH]; intros m seen Hm Hl Ho; simpl in Hl.
    - rewrite app_nil_r. by eapply Hm.
    - replace (seen ++ x :: orders) with ((seen ++ [x]) ++ orders)
        by (by rewrite <- app_assoc).
      eapply IH; [|exact Hl|exact Ho].
      intros k' g' o' Hk' Ho'.
      destruct (decide (Market.type_id x = k')) as [<-|Hne].
      + rewrite lookup_insert_eq in Hk'. injection Hk' as <-.
        apply elem_of_app in Ho' as [Ho'|Ho'].
        * destruct (m !! Market.type_id x) as [g|] eqn:Hg; simpl in Ho'.
          -- destruct (Hm _ _ _ Hg Ho') as [? ?]. split; [|done].
             apply elem_of_app. by left.
          -- by apply elem_of_nil in Ho'.
        * apply list_elem_of_singleton in Ho' as ->. split; [|done].
          apply elem_of_app. right. by apply list_elem_of_singleton.
      + rewrite lookup_insert_ne in Hk' by done.
        destruct (Hm _ _ _ Hk' Ho') as [? ?]. split; [|done].
        apply elem_of_app. by left. }
  intros Hl Ho. apply (Hgen ∅ []); [|done..].
  intros k' g' o' Hk'. by rewrite lookup_empty in Hk'.
Qed.

(** Every trade of [create_trades] is the match of a sell order and a buy
    order of the two lists. *)
Lemma create_trades_inv (sell_orders buy_orders : list Order) (t : Trade) :
  t ∈ create_trades sell_orders buy_orders →
  ∃ s b, s ∈ sell_orders ∧ b ∈ buy_orders ∧ match_orders s b = Some t.
Proof.
  unfold create_trades. intros Ht.
  apply list_elem_of_In, in_flat_map in Ht as (k & _ & Ht).
  apply in_flat_map in Ht as (s & Hs & Ht).
  apply list_elem_of_In, list_elem_of_omap in Ht as (b & Hb & Hm).
  apply list_elem_of_In in Hs.
  exists s, b. split_and!; [| |done].
  - destruct (group_by_type sell_orders !! k) as [g|] eqn:Hg; simpl in Hs.
    + by destruct (group_by_type_sound _ _ _ _ Hg Hs).
    + by apply elem_of_nil in Hs.
  - destruct (group_by_type buy_orders !! k) as [g|] eqn:Hg; simpl in Hb.
    + by destruct (group_by_type_sound _ _ _ _ Hg Hb).
    + by apply elem_of_nil in Hb.
Qed.

Lemma match_orders_Some (s b : Order) (t : Trade) :
  match_orders s b = Some t →
  from_order_id t = order_id s ∧ to_order_id t = order_id b
  ∧ item_cargo_volume t = Market.item_cargo_volume s
  ∧ from_price t = Market.price s ∧ to_price t = Market.price b
  ∧ quantity t = Z.min (volume_remain s) (volume_remain b)
  ∧ gross_profit t
    = (inject_Z (quantity t) * (to_price t * (1 - TAX_RATE) - from_price t))%Q
  ∧ (from_price t <= to_price t * (1 - TAX_RATE))%Q
  ∧ (PROFIT_THRESHOLD <= gross_profit t)%Q.
Proof.
  unfold match_orders.
  destruct (Qlt_le_dec _ _) as [|Hprice]; [done|].
  destruct (Qlt_le_dec _ _) as [|Hprofit]; [done|].
  intros [= <-]. simpl. by repeat split.
Qed.

End Matcher.

Section MatcherResults.

Import Market Arbitrage.

(** What the two filters, one after the other, leave of one side of the
    book. *)
Lemma filtered_twice (side : list Order) (cargo_space max_amount : Z) (s : Order) :
  s ∈ filter_orders_for_capital_risk (filter_orders_for_cargo side cargo_space) max_amount →
  ∃ o, o ∈ side
    ∧ s = with_volume_remain o (volume_remain s)
    ∧ ¬ (Market.item_cargo_volume o == 0)%Q
    ∧ ¬ (Market.price o == 0)%Q
    ∧ volume_remain s ≤ Qfloor (inject_Z cargo_space / Market.item_cargo_volume o)
    ∧ volume_remain s ≤ Qfloor (inject_Z max_amount / Market.price o).
Proof.
  intros Hs.
  apply list_elem_of_omap in Hs as (o1 & Ho1 & Hcap1).
  apply list_elem_of_omap in Ho1 as (o & Ho & Hcap).
  apply cap_for_capital_risk_Some in Hcap1 as (Hs & Hvr1 & Hprice & Hq1).
  apply cap_for_cargo_Some in Hcap as (Ho1 & Hvr & Hvol & Hq).
  exists o. rewrite Ho1 in Hs, Hprice, Hq1, Hvr1. simpl in *.
  split_and!; [done|done|done|done|lia|done].
Qed.

Lemma arbitrage_inv (orders : list Order) (cargo_space : Z) (t : Trade) :
  t ∈ arbitrage orders cargo_space →
  ∃ s b so,
    match_orders s b = Some t
    ∧ so ∈ orders
    ∧ s = with_volume_remain so (volume_remain s)
    ∧ ¬ (Market.item_cargo_volume so == 0)%Q
    ∧ ¬ (Market.price so == 0)%Q
    ∧ volume_remain s ≤ Qfloor (inject_Z cargo_space / Market.item_cargo_volume so)
    ∧ volume_remain s ≤ Qfloor (inject_Z MAX_CAPITAL / Market.price so).
Proof.
  unfold arbitrage. intros Ht.
  apply create_trades_inv in Ht as (s & b & Hs & _ & Hm).
  apply filtered_twice in Hs as (so & Hso & ?).
  apply elem_of_sort_by, list_elem_of_filter in Hso as [_ Hso].
  by exists s, b, so.
Qed.

(** C3.  Every trade of the matcher pays: the buy price after tax is at
    least the sell price, and the gross profit is at least the profit
    threshold. *)
Theorem arbitrage_trades_are_profitable (orders : list Order) (cargo_space : Z) :
  Forall
    (fun t =>
       (from_price t <= to_price t * (1 - TAX_RATE))%Q
       ∧ (PROFIT_THRESHOLD <= gross_profit t)%Q)
    (arbitrage orders cargo_space).
Proof.
  apply Forall_forall. intros t Ht.
  apply arbitrage_inv in Ht as (s & b & so & Hm & _).
  apply match_orders_Some in Hm. tauto.
Qed.

(** The gross profit of a trade of the matcher is the quantity times the
    margin after tax. *)
Lemma arbitrage_gross_profit (orders : list Order) (cargo_space : Z) :
  Forall
    (fun t =>
       gross_profit t
       = (inject_Z (quantity t) * (to_price t * (1 - TAX_RATE) - from_price t))%Q)
    (arbitrage orders cargo_space).
Proof.
  apply Forall_forall. intros t Ht.
  apply arbitrage_inv in Ht as (s & b & so & Hm & _).
  apply match_orders_Some in Hm. tauto.
Qed.

(** C5.  When no order has a negative price or a negative item volume, a
    trade of the matcher fits the hold and the capital limit on its own:
    quantity * item_cargo_volume <= cargo_space and quantity * from_price
    <= MAX_CAPITAL. *)
Theorem arbitrage_within_cargo_and_capital (orders : list Order) (cargo_space : Z) :
  Forall
    (fun o => (0 <= Market.price o)%Q ∧ (0 <= Market.item_cargo_volume o)%Q) orders →
  Forall
    (fun t =>
       (inject_Z (quantity t) * item_cargo_volume t <= inject_Z cargo_space)%Q
       ∧ (inject_Z (quantity t) * from_price t <= inject_Z MAX_CAPITAL)%Q)
    (arbitrage orders cargo_space).
Proof.
  intros Hpos. apply Forall_forall. intros t Ht.
  apply arbitrage_inv in Ht as (s & b & so & Hm & Hso & Hs & Hvol & Hprice & Hq1 & Hq2).
  apply match_orders_Some in Hm as (_ & _ & Hicv & Hfrom & _ & Hq & _).
  rewrite Forall_forall in Hpos. destruct (Hpos _ Hso) as [Hp Hv].
  rewrite Hicv, Hfrom, Hs. simpl.
  split; apply floor_quotient_bound.
  - destruct (Qlt_le_dec 0 (Market.item_cargo_volume so)) as [|Hle]; [done|].
    exfalso. apply Hvol. by apply Qle_antisym.
  - lia.
  - destruct (Qlt_le_dec 0 (Market.price so)) as [|Hle]; [done|].
    exfalso. apply Hprice. by apply Qle_antisym.
  - lia.
Qed.

Example arbitrage_example : arbitrage example_orders 1000000 = [example_trade].
Proof. reflexivity. Qed.

Lemma arbitrage_within_cargo_and_capital_witness :
  Forall
    (fun o => (0 <= Market.price o)%Q ∧ (0 <= Market.item_cargo_volume o)%Q)
    example_orders
  ∧ Forall
      (fun t =>
         (inject_Z (quantity t) * item_cargo_volume t <= inject_Z 1000000)%Q
         ∧ (inject_Z (quantity t) * from_price t <= inject_Z MAX_CAPITAL)%Q)
      (arbitrage example_orders 1000000).
Proof.
  assert (Forall
    (fun o => (0 <= Market.price o)%Q ∧ (0 <= Market.item_cargo_volume o)%Q)
    example_orders) as H.
  { repeat first [apply Forall_nil | apply List.Forall_cons | split];
      vm_compute; discriminate. }
  split; [exact H|].
  exact (arbitrage_within_cargo_and_capital example_orders 1000000 H).
Defined.

End MatcherResults.

(** ** The filters copy *)

Section Filters.

Import Market Arbitrage.

Lemma filter_objects_snoc (cap : Order -> option Order) (heap : list Order)
  (orders : list nat) (x : nat) :
  filter_objects cap heap (orders ++ [x])
  = let '(heap', out) := filter_objects cap heap orders in
    match heap' !! x with
    | Some object =>
        match cap object with
        | Some copy => (heap' ++ [copy], out ++ [length heap'])
        | None => (heap', out)
        end
    | None => (heap', out)
    end.
Proof.
  unfold filter_objects. rewrite fold_left_app. simpl.
  by destruct (fold_left _ orders (heap, [])).
Qed.

Lemma filter_objects_copies (cap : Order -> option Order) (heap : list Order)
  (orders : list nat) :
  (∀ o s, cap o = Some s → capped_copy o s) →
  Forall (fun order => (order < length heap)%nat) orders →
  copies_of heap orders (filter_objects cap heap orders).1 (filter_objects cap heap orders).2.
Proof.
  intros Hcap. induction orders as [|x orders IH] using rev_ind; intros Hvalid.
  - unfold copies_of. simpl. split_and!; [done|constructor|constructor|].
    exists []. split; [done|constructor].
  - apply Forall_app in Hvalid as [Hvalid Hx]. rewrite Forall_singleton in Hx.
    specialize (IH Hvalid). rewrite filter_objects_snoc.
    destruct (filter_objects cap heap orders) as [heap' out]. simpl in IH.
    destruct IH as (Hpre & Hfresh & Hnodup & kept & Hsub & Hall).
    assert (copies_of heap (orders ++ [x]) heap' out) as Hskip.
    { unfold copies_of. split_and!; [done..|]. exists kept. split; [|done].
      by apply sublist_inserts_r. }
    destruct (heap' !! x) as [object|] eqn:Hobj; [|done].
    destruct (cap object) as [copy|] eqn:Hcopy; [|done].
    unfold copies_of. simpl. split_and!.
    + by apply prefix_app_r.
    + apply Forall_app. split.
      * eapply Forall_impl; [exact Hfresh|]. simpl. intros n Hn.
        rewrite length_app. simpl. lia.
      * apply Forall_singleton. rewrite length_app. simpl.
        apply prefix_length in Hpre. lia.
    + apply NoDup_app. split_and!; [done| |apply NoDup_singleton].
      intros n Hn Hn'. apply list_elem_of_singleton in Hn' as ->.
      rewrite Forall_forall in Hfresh. specialize (Hfresh _ Hn). lia.
    + exists (kept ++ [x]). split; [by apply sublist_app|].
      apply Forall2_app.
      * eapply Forall2_impl; [exact Hall|]. simpl.
        intros new old (o & s & Ho & Hs & Hc). exists o, s.
        split; [done|]. split; [|done]. by apply lookup_app_l_Some.
      * constructor; [|constructor].
        exists object, copy. split; [|split].
        -- destruct Hpre as [k ->].
           rewrite lookup_app_l in Hobj; done.
        -- by rewrite lookup_app_r, Nat.sub_diag.
        -- by apply Hcap.
Qed.

(** The values behind the references of the result are the result of the
    filter on values. *)
Lemma filter_objects_values (cap : Order -> option Order) (heap : list Order)
  (orders : list nat) (objects : list Order) :
  Forall2 (fun order object => heap !! order = Some object) orders objects →
  heap `prefix_of` (filter_objects cap heap orders).1
  ∧ Forall2 (fun new s => (filter_objects cap heap orders).1 !! new = Some s)
      (filter_objects cap heap orders).2 (omap cap objects).
Proof.
  revert objects. induction orders as [|x orders IH] using rev_ind; intros objects Hobjs.
  - apply Forall2_nil_inv_l in Hobjs as ->. simpl. split; [done|constructor].
  - apply Forall2_app_inv_l in Hobjs as (objs & last & Hobjs & Hlast & ->).
    apply Forall2_cons_inv_l in Hlast as (object & ? & Hx & Hnil & ->).
    apply Forall2_nil_inv_l in Hnil as ->.
    destruct (IH _ Hobjs) as [Hpre Hall]. rewrite filter_objects_snoc, omap_app.
    destruct (filter_objects cap heap orders) as [heap' out]. simpl in *.
    assert (heap' !! x = Some object) as ->.
    { destruct Hpre as [k ->]. by apply lookup_app_l_Some. }
    destruct (cap object) as [copy|]; simpl.
    + split; [by apply prefix_app_r|]. apply Forall2_app.
      * eapply Forall2_impl; [exact Hall|]. simpl. intros new s Hs.
        by apply lookup_app_l_Some.
      * constructor; [|constructor].
        by rewrite lookup_app_r, Nat.sub_diag.
    + rewrite app_nil_r. by split.
Qed.

(** C10.  Each filter, given references to orders of the heap, leaves
    those orders as they are and returns references to new objects: capped
    copies (all fields but [volume_remain] equal, 1 <= volume_remain <= the
    original's) of a subsequence of the input, in the input's order. *)
Theorem filters_return_capped_copies (heap : list Order) (orders : list nat)
  (cargo_space max_amount : Z) :
  Forall (fun order => (order < length heap)%nat) orders →
  copies_of heap orders
    (filter_orders_for_cargo_objects heap orders cargo_space).1
    (filter_orders_for_cargo_objects heap orders cargo_space).2
  ∧ copies_of heap orders
      (filter_orders_for_capital_risk_objects heap orders max_amount).1
      (filter_orders_for_capital_risk_objects heap orders max_amount).2.
Proof.
  intros Hvalid. split; apply filter_objects_copies; try done.
  - intros o s Hs. apply cap_for_cargo_Some in Hs. unfold capped_copy. tauto.
  - intros o s Hs. apply cap_for_capital_risk_Some in Hs. unfold capped_copy. tauto.
Qed.

Lemma filters_return_capped_copies_witness :
  Forall (fun order => (order < length example_orders)%nat) [0%nat; 2%nat; 1%nat]
  ∧ copies_of example_orders [0%nat; 2%nat; 1%nat]
      (filter_orders_for_cargo_objects example_orders [0%nat; 2%nat; 1%nat] 600).1
      (filter_orders_for_cargo_objects example_orders [0%nat; 2%nat; 1%nat] 600).2
  ∧ copies_of example_orders [0%nat; 2%nat; 1%nat]
      (filter_orders_for_capital_risk_objects example_orders [0%nat; 2%nat; 1%nat] 1000).1
      (filter_orders_for_capital_risk_objects example_orders [0%nat; 2%nat; 1%nat] 1000).2.
Proof.
  assert (Forall (fun order => (order < length example_orders)%nat)
            [0%nat; 2%nat; 1%nat]) as H.
  { repeat first [apply Forall_nil | apply List.Forall_cons]; simpl; lia. }
  split; [exact H|].
  exact (filters_return_capped_copies example_orders [0%nat; 2%nat; 1%nat] 600 1000 H).
Defined.

(** The copies on an example: the cargo filter caps the large orders at
    600 units and keeps the small one; the capital filter caps order 1 at
    1000 units and order 2 (price 100) at 10. *)
Example filter_orders_for_cargo_example :
  map volume_remain (filter_orders_for_cargo example_orders 600) = [600; 600; 50]
  ∧ map volume_remain (filter_orders_for_capital_risk example_orders 1000) = [1000; 10; 50].
Proof. split; reflexivity. Qed.

End Filters.

(** ** Sniping *)

Section Snipe.

Import Market Arbitrage.

(** A region recorded for an order id is the region of an order with that
    id. *)
Lemma order_regions_sound (orders : list Order) (i r : Z) :
  order_regions orders !! i = Some r →
  ∃ o, o ∈ orders ∧ order_id o = i ∧ region_id o = r.
Proof.
  unfold order_regions.
  assert (∀ m : gmap Z Z,
    fold_left (fun m order => <[order_id order := region_id order]> m) orders m !! i = Some r →
    m !! i = Some r ∨ ∃ o, o ∈ orders ∧ order_id o = i ∧ region_id o = r) as Hgen.
  { induction orders as [|x orders IH]; intros m Hm; simpl in Hm; [by left|].
    destruct (IH _ Hm) as [Hx|(o & Ho & ?)].
    - destruct (decide (order_id x = i)) as [Hi|Hne].
      + rewrite Hi, lookup_insert_eq in Hx. injection Hx as <-.
        right. exists x. split; [apply elem_of_cons; by left|done].
      + rewrite lookup_insert_ne in Hx by done. by left.
    - right. exists o. split; [apply elem_of_cons; by right|done]. }
  intros H. destruct (Hgen _ H) as [H0|?]; [|done].
  by rewrite lookup_empty in H0.
Qed.

(** C8, as the code has it.  [snipe] looks at the trades of the matcher
    whose sell order (the [from] order) is recorded in the region, whatever
    the region of the buy order.  It returns one of them with the largest
    gross profit when that profit is above the snipe threshold, and [None]
    when none of them is above the threshold. *)
Theorem snipe_best_of_region (orders : list Order) (cargo_space current_region : Z) :
  match snipe orders cargo_space current_region with
  | Some best =>
      best ∈ region_trades orders cargo_space current_region
      ∧ (∃ o, o ∈ orders ∧ order_id o = from_order_id best ∧ region_id o = current_region)
      ∧ (SNIPE_PROFIT_THRESHOLD < gross_profit best)%Q
      ∧ ∀ t, t ∈ region_trades orders cargo_space current_region →
             (gross_profit t <= gross_profit best)%Q
  | None =>
      ∀ t, t ∈ region_trades orders cargo_space current_region →
           (gross_profit t <= SNIPE_PROFIT_THRESHOLD)%Q
  end.
Proof.
  unfold snipe. fold (region_trades orders cargo_space current_region).
  destruct (sort_by _ (region_trades _ _ _)) as [|best rest] eqn:Hsort.
  - apply sort_by_nil_inv in Hsort. rewrite Hsort. intros t Ht.
    by apply elem_of_nil in Ht.
  - pose proof (sort_by_desc_head _ _ _ _ Hsort) as Hmax.
    assert (best ∈ region_trades orders cargo_space current_region) as Hbest.
    { eapply elem_of_sort_by. rewrite Hsort. apply elem_of_cons. by left. }
    destruct (Qlt_le_dec _ _) as [Hgt|Hle].
    + split_and!; [done| |done|done].
      apply list_elem_of_filter in Hbest as [Hreg _].
      by apply order_regions_sound in Hreg.
    + intros t Ht. eapply Qle_trans; [by apply Hmax|done].
Qed.

(** C8 as stated fails: with the seller in region 1 and the buyer in
    region 2, [snipe] for region 1 returns their trade, whose buy order is
    not in region 1. *)
Lemma snipe_buy_order_elsewhere :
  snipe example_orders 1000000 1 = Some example_trade
  ∧ ∃ o, o ∈ example_orders ∧ order_id o = to_order_id example_trade ∧ region_id o ≠ 1.
Proof.
  split; [reflexivity|].
  exists (example_order 2 2 20 true 100 1000000).
  split_and!; [|done|done].
  apply elem_of_cons. right. apply elem_of_cons. by left.
Qed.

End Snipe.

(** ** Loops *)

(** A property of the state that every pass through the body keeps holds
    when the loop ends. *)
Lemma for_each_invariant {S A : Type} (body : S -> A -> result (ctrl S))
  (I : S -> Prop) (l : list A) (s s' : S) :
  (∀ s x c, I s → x ∈ l → body s x = Ok c → I (ctrl_state c)) →
  I s → for_each body l s = Ok s' → I s'.
Proof.
  revert s. induction l as [|x l IH]; intros s Hbody Hs Hloop; simpl in Hloop.
  - by injection Hloop as <-.
  - destruct (body s x) as [[s1|s1]|] eqn:Hx; [| |done].
    + eapply (IH s1); [|by eapply (Hbody s x (Continue s1)); [|left|]|done].
      intros s2 y c H2 Hy. apply Hbody; [done|by right].
    + injection Hloop as <-. eapply (Hbody s x (Break s1)); [done|left|done].
Qed.

(** A loop whose body never raises on a state with the invariant ends
    without raising. *)
Lemma for_each_total {S A : Type} (body : S -> A -> result (ctrl S))
  (I : S -> Prop) (l : list A) (s : S) :
  (∀ s x c, I s → x ∈ l → body s x = Ok c → I (ctrl_state c)) →
  (∀ s x, I s → x ∈ l → ∃ c, body s x = Ok c) →
  I s → ∃ s', for_each body l s = Ok s'.
Proof.
  revert s. induction l as [|x l IH]; intros s Hbody Hok Hs; simpl.
  - by exists s.
  - destruct (Hok s x Hs) as [c Hc]; [left|]. rewrite Hc.
    pose proof (Hbody s x c Hs (list_elem_of_here _ _) Hc) as Hc'.
    destruct c as [s1|s1]; [|by exists s1].
    apply IH; [| |done].
    + intros s2 y c H2 Hy. apply Hbody; [done|by right].
    + intros s2 y H2 Hy. apply Hok; [done|by right].
Qed.

(** ** Trade selection *)

Section Selection.

Import Arbitrage Route.

Lemma sum_Q_snoc (l : list Q) (x : Q) : sum_Q (l ++ [x]) = (sum_Q l + x)%Q.
Proof. unfold sum_Q. by rewrite fold_left_app. Qed.

Lemma order_use_snoc (o : Z) (selected : list Trade) (t : Trade) :
  order_use o (selected ++ [t])
  = order_use o selected + (if uses_order o t then quantity t else 0).
Proof.
  unfold order_use. induction selected as [|x l IH]; simpl; [lia|].
  rewrite IH. lia.
Qed.

Lemma order_volume_nonneg (o : Z) (trades : list Trade) : 0 ≤ order_volume o trades.
Proof.
  unfold order_volume. induction trades as [|x l IH]; simpl; [done|].
  destruct (uses_order o x); lia.
Qed.

Lemma order_volume_bound (o : Z) (trades : list Trade) (t : Trade) :
  t ∈ trades → uses_order o t = true → quantity t ≤ order_volume o trades.
Proof.
  unfold order_volume. induction trades as [|x l IH]; intros Ht Ho.
  - by apply elem_of_nil in Ht.
  - simpl. apply elem_of_cons in Ht as [<-|Ht].
    + rewrite Ho. lia.
    + specialize (IH Ht Ho). destruct (uses_order o x); lia.
Qed.

Lemma floordiv_Ok (a b : Q) : (0 < b)%Q → floordiv a b = Ok (Qfloor (a / b)).
Proof.
  intros Hb. unfold floordiv. destruct (Qeq_bool b 0) eqn:E; [|done].
  apply Qeq_bool_iff in E. rewrite E in Hb. by apply Qlt_irrefl in Hb.
Qed.

Lemma select_body_total (ship : Pathfinder.Ship) (s : Selection) (trade : Trade) :
  (0 < item_cargo_volume trade)%Q → (0 < from_price trade)%Q →
  ∃ c, select_body ship s trade = Ok c.
Proof.
  intros Hv Hp. unfold select_body.
  rewrite (floordiv_Ok _ _ Hv), (floordiv_Ok _ _ Hp). simpl.
  destruct (bool_decide _); [by eexists|].
  destruct (_ || _); by eexists.
Qed.

Lemma select_body_ok (ship : Pathfinder.Ship) (trades : list Trade) (s : Selection)
  (trade : Trade) (c : ctrl Selection) :
  (0 < item_cargo_volume trade)%Q → (0 < from_price trade)%Q → trade ∈ trades →
  selection_ok ship trades s → select_body ship s trade = Ok c →
  selection_ok ship trades (ctrl_state c).
Proof.
  intros Hv Hp Hin Hs. unfold select_body.
  rewrite (floordiv_Ok _ _ Hv), (floordiv_Ok _ _ Hp). simpl.
  set (from_remaining := default (quantity trade) (used_orders s !! from_order_id trade)).
  set (to_remaining := default (quantity trade) (used_orders s !! to_order_id trade)).
  set (by_cargo := Qfloor ((inject_Z (Pathfinder.cargo ship) - cargo s) / item_cargo_volume trade)).
  set (by_capital := Qfloor ((inject_Z MAX_CAPITAL - capital_spent s) / from_price trade)).
  set (max_quantity := Z.min (quantity trade) _).
  assert (max_quantity ≤ quantity trade
          ∧ max_quantity ≤ from_remaining ∧ max_quantity ≤ to_remaining
          ∧ max_quantity ≤ by_cargo ∧ max_quantity ≤ by_capital)
    as (Hq0 & Hq1 & Hq2 & Hq3 & Hq4) by (unfold max_quantity; lia).
  clearbody max_quantity.
  destruct (bool_decide (max_quantity ≤ 0)) eqn:Hskip.
  { by intros [= <-]. }
  apply bool_decide_eq_false in Hskip.
  set (s' := Build_Selection _ _ _ _).
  assert (selection_ok ship trades s') as Hs'; [|by destruct (_ || _); intros [= <-]].
  destruct Hs as (Hcargo & Hcapital & Hhold & Hmoney & Horders).
  assert (inject_Z max_quantity * item_cargo_volume trade
          <= inject_Z (Pathfinder.cargo ship) - cargo s)%Q as Hfit.
  { by apply floor_quotient_bound. }
  assert (inject_Z max_quantity * from_price trade
          <= inject_Z MAX_CAPITAL - capital_spent s)%Q as Hpay.
  { by apply floor_quotient_bound. }
  unfold selection_ok, s'. simpl. split_and!.
  - unfold total_cargo. rewrite map_app. cbn [map]. by rewrite sum_Q_snoc, Hcargo.
  - unfold total_capital. rewrite map_app. cbn [map]. by rewrite sum_Q_snoc, Hcapital.
  - lra.
  - lra.
  - intros o. rewrite order_use_snoc.
    replace (uses_order o (requantified trade max_quantity))
      with (bool_decide (from_order_id trade = o) || bool_decide (to_order_id trade = o))
      by done.
    simpl.
    assert (∀ i, i = from_order_id trade ∨ i = to_order_id trade →
      0 ≤ default (quantity trade) (used_orders s !! i)
      ∧ order_use i (optimized_trades s) + default (quantity trade) (used_orders s !! i)
        ≤ order_volume i trades) as Hleft.
    { intros i Hi. specialize (Horders i).
      destruct (used_orders s !! i) as [r|]; simpl; [done|].
      rewrite Horders. split; [lia|].
      apply (order_volume_bound i trades trade Hin).
      unfold uses_order. destruct Hi as [->| ->].
      - by rewrite bool_decide_eq_true_2.
      - rewrite (bool_decide_eq_true_2 (to_order_id trade = _)) by done.
        apply orb_true_r. }
    destruct (decide (to_order_id trade = o)) as [Hto|Hto].
    + rewrite Hto, lookup_insert_eq. rewrite (bool_decide_eq_true_2 (o = o)) by done.
      rewrite orb_true_r. destruct (Hleft o) as [? ?]; [by right|].
      subst o. unfold to_remaining in *. lia.
    + rewrite lookup_insert_ne by done. rewrite (bool_decide_eq_false_2 _ Hto), orb_false_r.
      destruct (decide (from_order_id trade = o)) as [Hfrom|Hfrom].
      * rewrite Hfrom, lookup_insert_eq. rewrite (bool_decide_eq_true_2 (o = o)) by done.
        destruct (Hleft o) as [? ?]; [by left|].
        subst o. unfold from_remaining in *. lia.
      * rewrite lookup_insert_ne by done. rewrite (bool_decide_eq_false_2 _ Hfrom).
        specialize (Horders o). destruct (used_orders s !! o); lia.
Qed.

End Selection.

Section SelectionResults.

Import Arbitrage Route.

(** C2.  For a ship with a cargo capacity (a hold that is not negative)
    and trades that all have a positive item volume and a positive buying
    price, [select_trades] returns a list of trades whose cargo is within
    the capacity, whose capital is within [MAX_CAPITAL], and which take from
    no order more than the largest quantity of an input trade on that
    order. *)
Theorem select_trades_within_budgets (stations : list Z) (trades : list Trade)
  (ship : Pathfinder.Ship) :
  0 ≤ Pathfinder.cargo ship →
  Forall (fun t => (0 < item_cargo_volume t)%Q ∧ (0 < from_price t)%Q) trades →
  ∃ selected,
    select_trades stations trades ship = Ok selected
    ∧ (total_cargo selected <= inject_Z (Pathfinder.cargo ship))%Q
    ∧ (total_capital selected <= inject_Z MAX_CAPITAL)%Q
    ∧ ∀ o, order_use o selected ≤ order_volume o trades.
Proof.
  intros Hhold Hpos. rewrite Forall_forall in Hpos. unfold select_trades.
  set (filtered := sort_by _ _).
  assert (∀ t, t ∈ filtered → t ∈ trades) as Hsub.
  { intros t Ht. apply elem_of_sort_by, list_elem_of_filter in Ht. tauto. }
  set (s0 := Build_Selection _ _ _ _).
  assert (selection_ok ship trades s0) as H0.
  { unfold selection_ok, s0. simpl. split_and!; [done|done| |done|].
    - change 0%Q with (inject_Z 0). by rewrite <- Zle_Qle.
    - intros o. by rewrite lookup_empty. }
  assert (∀ s x c, selection_ok ship trades s → x ∈ filtered →
            select_body ship s x = Ok c → selection_ok ship trades (ctrl_state c)) as Hstep.
  { intros s x c Hs Hx. destruct (Hpos x (Hsub _ Hx)).
    apply select_body_ok; auto. }
  destruct (for_each_total (select_body ship) (selection_ok ship trades) filtered s0)
    as [s Hloop]; [done| |done|].
  { intros s x _ Hx. destruct (Hpos x (Hsub _ Hx)). by apply select_body_total. }
  pose proof (for_each_invariant _ _ _ _ _ Hstep H0 Hloop) as (Hc & Hk & Hhold' & Hmoney & Horders).
  exists (optimized_trades s). rewrite Hloop. simpl.
  split_and!; [done|by rewrite <- Hc|by rewrite <- Hk|].
  intros o. specialize (Horders o). pose proof (order_volume_nonneg o trades).
  destruct (used_orders s !! o); lia.
Qed.

Lemma select_trades_within_budgets_witness :
  0 ≤ Pathfinder.cargo (example_ship 600)
  ∧ Forall (fun t => (0 < item_cargo_volume t)%Q ∧ (0 < from_price t)%Q) [example_trade]
  ∧ ∃ selected,
      select_trades [0; 10; 20] [example_trade] (example_ship 600) = Ok selected
      ∧ (total_cargo selected <= inject_Z (Pathfinder.cargo (example_ship 600)))%Q
      ∧ (total_capital selected <= inject_Z MAX_CAPITAL)%Q
      ∧ ∀ o, order_use o selected ≤ order_volume o [example_trade].
Proof.
  assert (0 ≤ Pathfinder.cargo (example_ship 600)) as H1 by (simpl; lia).
  assert (Forall (fun t => (0 < item_cargo_volume t)%Q ∧ (0 < from_price t)%Q)
            [example_trade]) as H2.
  { apply List.Forall_cons; [|apply List.Forall_nil]. split; reflexivity. }
  split; [exact H1|]. split; [exact H2|].
  exact (select_trades_within_budgets [0; 10; 20] [example_trade] (example_ship 600) H1 H2).
Defined.

Example select_trades_scenario :
  select_trades [0; 10; 20]
    [scenario_trade 1 2 10 20; scenario_trade 3 4 10 50] (example_ship 10)
  = Ok [requantified (scenario_trade 3 4 10 50) 6;
        requantified (scenario_trade 1 2 10 20) 4].
Proof. reflexivity. Qed.

(** C1 fails in [select_trades].  The trade of the matcher on the example
    book has 1000000 units; a ship with a hold of 600 takes 600 of them, and
    the re-quantified trade has the gross profit (100 - 1) * 600 = 59400,
    without the tax: quantity * (to_price * (1 - TAX_RATE) - from_price) is
    600 * (92 - 1) = 54600. *)
Theorem select_trades_gross_profit_without_tax :
  ∃ t,
    select_trades [0; 10; 20] (arbitrage example_orders 1000000) (example_ship 600) = Ok [t]
    ∧ quantity t = 600
    ∧ (gross_profit t == 59400)%Q
    ∧ (inject_Z (quantity t) * (to_price t * (1 - TAX_RATE) - from_price t) == 54600)%Q.
Proof.
  eexists. split; [reflexivity|]. split; [reflexivity|]. split; reflexivity.
Qed.

(** In general a re-quantified trade has the margin before tax as its
    profit per unit. *)
Lemma requantified_gross_profit (trade : Trade) (max_quantity : Z) :
  gross_profit (requantified trade max_quantity)
  = ((to_price trade - from_price trade) * inject_Z max_quantity)%Q.
Proof. reflexivity. Qed.

End SelectionResults.

(** ** The search for the best route *)

Section Search.

Import Arbitrage Route.

(** On [RouteStep] objects, as [Route] is annotated, the loops at run time
    are those of [set_actions]. *)
Lemma visit_run_time_objects (trade : Trade) (bought_items : gset Z) (route : Route) :
  visit_run_time_steps trade bought_items (Object <$> route)
  = Ok ((visit_steps trade bought_items route).1,
        Object <$> (visit_steps trade bought_items route).2).
Proof.
  revert bought_items. induction route as [|step rest IH]; intros bought_items; [done|].
  cbn [fmap list_fmap visit_run_time_steps attributes mbind result_bind visit_steps].
  unfold visit_step.
  destruct (bool_decide (from_station trade = location_id step)); cbn zeta beta iota.
  - rewrite IH. simpl. by destruct (visit_steps trade _ rest).
  - rewrite IH. simpl. by destruct (visit_steps trade _ rest).
Qed.

Lemma sort_run_time_objects (route : Route) :
  sort_run_time_steps (Object <$> route)
  = Ok (Object <$> map (fun step =>
                          {| location_id := location_id step;
                             station_name := station_name step;
                             actions := sort_by action_le (actions step) |}) route).
Proof.
  induction route as [|step rest IH]; [done|].
  change (sort_run_time_steps (Object <$> step :: rest))
    with (rest' ← sort_run_time_steps (Object <$> rest);
          Ok (Object {| location_id := location_id step;
                        station_name := station_name step;
                        actions := sort_by action_le (actions step) |} :: rest')).
  by rewrite IH.
Qed.

Lemma set_actions_at_run_time_objects (route : Route) (trades : list Trade) :
  set_actions_at_run_time (Object <$> route) trades = Ok (Object <$> set_actions route trades).
Proof.
  unfold set_actions_at_run_time, set_actions.
  generalize (∅ : gset Z). revert route.
  induction trades as [|trade trades IH]; intros route bought_items.
  - simpl. apply sort_run_time_objects.
  - cbn [for_each fold_left]. rewrite visit_run_time_objects. simpl.
    destruct (visit_steps trade bought_items route) as [bought_items' route']. apply IH.
Qed.

(** On the dicts of [graph.formatted_route] the first step raises. *)
Lemma set_actions_at_run_time_dicts (formatted_route : list Graph.LocationInfo)
  (trades : list Trade) :
  set_actions_at_run_time (Dict <$> formatted_route) trades
  = match formatted_route with
    | [] => Ok []
    | _ :: _ => Raise AttributeError
    end.
Proof.
  unfold set_actions_at_run_time. destruct formatted_route as [|info rest].
  - generalize (∅ : gset Z). induction trades as [|trade trades IH]; intros bought_items.
    + done.
    + simpl. apply IH.
  - by destruct trades.
Qed.

Lemma compare_with_best_Ok (graph : Graph) (s s' : Search) (e : Evaluation) :
  compare_with_best graph s e = Ok s' →
  ((best_profit_rate s < rate e)%Q
   ∧ formatted_route graph (eval_path e) = Ok []
   ∧ s' = {| best_profit_rate := rate e;
             best_route := Some [];
             best_route_info := Some (eval_info e);
             seen_routes := seen_routes s |})
  ∨ ((rate e <= best_profit_rate s)%Q ∧ s' = s).
Proof.
  unfold compare_with_best, rate.
  destruct (Qlt_le_dec _ _) as [Hlt|Hle]; [|intros [= <-]; by right].
  destruct (formatted_route graph (eval_path e)) as [formatted|] eqn:Hformatted; [|done].
  simpl. rewrite set_actions_at_run_time_dicts.
  destruct formatted as [|info rest]; [|done]. simpl. intros [= <-]. by left.
Qed.

Lemma compare_with_best_Raise (graph : Graph) (s : Search) (e : Evaluation) (exn : exn) :
  compare_with_best graph s e = Raise exn →
  formatted_route graph (eval_path e) = Raise exn
  ∨ (exn = AttributeError
     ∧ ∃ steps, formatted_route graph (eval_path e) = Ok steps ∧ steps ≠ []).
Proof.
  unfold compare_with_best. destruct (Qlt_le_dec _ _) as [Hlt|Hle]; [|done].
  destruct (formatted_route graph (eval_path e)) as [formatted|] eqn:Hformatted;
    [|intros [= <-]; by left].
  simpl. rewrite set_actions_at_run_time_dicts.
  destruct formatted as [|info rest]; [done|]. simpl. intros [= <-].
  right. split; [done|]. by eexists.
Qed.

Lemma holds_compare (graph : Graph) (s s' : Search) (best : option Evaluation)
  (e : Evaluation) :
  holds graph s best → compare_with_best graph s e = Ok s' →
  holds graph s' (improve best e) ∧ seen_routes s' = seen_routes s.
Proof.
  intros (Hrate & Hinfo & Hroute & Hformat) Hcompare. unfold improve. rewrite <- Hrate.
  apply compare_with_best_Ok in Hcompare as [(Hlt & Hempty & ->)|[Hle ->]].
  - destruct (Qlt_le_dec _ _) as [_|Hle]; [|by apply Qle_not_lt in Hle].
    split; [|done]. split_and!; [done|done|done|]. by intros ? [= <-].
  - destruct (Qlt_le_dec _ _) as [Hlt|_]; [by apply Qle_not_lt in Hle|]. done.
Qed.

(** When the loop ends, every evaluation has returned and the state holds
    the fold of the comparison over the evaluated skeletons. *)
Lemma route_loop (trades : list Trade) (graph : Graph) (ship : Pathfinder.Ship)
  (l : list Trade) (s s' : Search) (best : option Evaluation) :
  holds graph s best →
  for_each (route_body trades graph ship) l s = Ok s' →
  ∃ evals,
    evaluate_each (evaluate trades graph ship) (unseen ship (seen_routes s) l) = Ok evals
    ∧ holds graph s' (fold_left improve evals best).
Proof.
  revert s best. induction l as [|trade l IH]; intros s best Hs; simpl.
  - intros [= <-]. by exists [].
  - unfold route_body at 1. fold (skeleton ship trade).
    destruct (bool_decide (skeleton ship trade ∈ seen_routes s)) eqn:Hseen.
    + by apply IH.
    + simpl. set (s1 := Build_Search _ _ _ _).
      assert (holds graph s1 best) as Hs1 by done.
      destruct (evaluate trades graph ship trade) as [[e|]|exn]; simpl; [| |done].
      * destruct (compare_with_best graph s1 e) as [s2|exn] eqn:Hcompare; [|done]. simpl.
        destruct (holds_compare _ _ _ _ _ Hs1 Hcompare) as [Hs2 Hseen2].
        intros Hloop. destruct (IH _ _ Hs2 Hloop) as (evals & Hevals & Hs').
        rewrite Hseen2 in Hevals. simpl in Hevals. rewrite Hevals. simpl.
        by exists (e :: evals).
      * intros Hloop. destruct (IH _ _ Hs1 Hloop) as (evals & Hevals & Hs').
        simpl in Hevals. rewrite Hevals. simpl. by exists evals.
Qed.

(** The fold keeps the first evaluation with the largest profit rate, when
    that rate is positive. *)
Lemma improve_first_best (evals : list Evaluation) :
  match fold_left improve evals None with
  | Some e => ∃ i, first_best evals i e
  | None => ∀ e, e ∈ evals → (rate e <= 0)%Q
  end.
Proof.
  induction evals as [|x evals IH] using rev_ind; simpl.
  - intros e He. by apply elem_of_nil in He.
  - rewrite fold_left_app. simpl.
    destruct (fold_left improve evals None) as [e|]; unfold improve; simpl.
    + destruct IH as (i & Hi & Hpos & Hmax & Hfirst).
      destruct (Qlt_le_dec (rate e) (rate x)) as [Hlt|Hle].
      * exists (length evals). split_and!.
        -- by rewrite lookup_app_r, Nat.sub_diag.
        -- by eapply Qlt_trans.
        -- intros j e' Hj. apply lookup_app_Some in Hj as [Hj|[_ Hj]].
           ++ eapply Qle_trans; [by eapply Hmax|]. by apply Qlt_le_weak.
           ++ apply list_lookup_singleton_Some in Hj as [_ <-]. apply Qle_refl.
        -- intros j e' Hlen Hj. rewrite lookup_app_l in Hj by done.
           eapply Qle_lt_trans; [by eapply Hmax|done].
      * exists i. split_and!.
        -- by apply lookup_app_l_Some.
        -- done.
        -- intros j e' Hj. apply lookup_app_Some in Hj as [Hj|[_ Hj]].
           ++ by eapply Hmax.
           ++ apply list_lookup_singleton_Some in Hj as [_ <-]. exact Hle.
        -- intros j e' Hlt Hj. apply lookup_lt_Some in Hi.
           rewrite lookup_app_l in Hj by lia. by eapply Hfirst.
    + destruct (Qlt_le_dec 0 (rate x)) as [Hlt|Hle].
      * exists (length evals). split_and!.
        -- by rewrite lookup_app_r, Nat.sub_diag.
        -- done.
        -- intros j e' Hj. apply lookup_app_Some in Hj as [Hj|[_ Hj]].
           ++ eapply Qle_trans; [|by apply Qlt_le_weak].
              apply IH. by eapply list_elem_of_lookup_2.
           ++ apply list_lookup_singleton_Some in Hj as [_ <-]. apply Qle_refl.
        -- intros j e' Hlen Hj. rewrite lookup_app_l in Hj by done.
           eapply Qle_lt_trans; [|done]. apply IH. by eapply list_elem_of_lookup_2.
      * intros e He.
        apply elem_of_app in He as [He|He]; [by apply IH|].
        apply list_elem_of_singleton in He as ->. exact Hle.
Qed.

(** C6 fails in [route].  The two skeletons of the example have the same
    positive profit rate, and the claim has the route of the first of them
    returned.  [route] gives the formatted route of the first skeleton, a
    list of dicts, to [set_actions], which reads [step.location_id]: the
    call raises [AttributeError]. *)
Theorem route_raises_on_formatted_route :
  ∃ evaluation1 evaluation2 formatted,
    evaluated_skeletons [trade_to 20 1 2; trade_to 30 3 4] example_graph (example_ship 600)
    = Ok [evaluation1; evaluation2]
    ∧ (0 < rate evaluation1)%Q
    ∧ (rate evaluation1 == rate evaluation2)%Q
    ∧ formatted_route example_graph (eval_path evaluation1) = Ok formatted
    ∧ map Graph.location_id formatted = [10; 20]
    ∧ route [trade_to 20 1 2; trade_to 30 3 4] example_graph (example_ship 600)
      = Raise AttributeError.
Proof. do 3 eexists. repeat split; reflexivity. Qed.

End Search.

Section SearchOrder.

Import Arbitrage Route.

(** [unseen] keeps the first trade of every skeleton that is not in
    [seen], in the order of the list. *)
Lemma unseen_first_occurrences (ship : Pathfinder.Ship) (seen : gset (Z * Z * Z))
  (l : list Trade) :
  unseen ship seen l `sublist_of` l
  ∧ NoDup (skeleton ship <$> unseen ship seen l)
  ∧ (∀ t, t ∈ unseen ship seen l → skeleton ship t ∉ seen)
  ∧ (∀ t, t ∈ l → skeleton ship t ∈ seen
                   ∨ skeleton ship t ∈ skeleton ship <$> unseen ship seen l).
Proof.
  revert seen. induction l as [|x l IH]; intros seen; simpl.
  - split_and!; [done|constructor| |]; intros t Ht; by apply elem_of_nil in Ht.
  - destruct (bool_decide (skeleton ship x ∈ seen)) eqn:Hx.
    + apply bool_decide_eq_true in Hx.
      destruct (IH seen) as (Hsub & Hnd & Hout & Hall).
      split_and!; [by apply sublist_cons|done|done|].
      intros t Ht. apply elem_of_cons in Ht as [->|Ht]; [by left|by apply Hall].
    + apply bool_decide_eq_false in Hx.
      destruct (IH ({[skeleton ship x]} ∪ seen)) as (Hsub & Hnd & Hout & Hall).
      split_and!.
      * by apply sublist_skip.
      * simpl. apply NoDup_cons. split; [|done].
        intros Hin. apply list_elem_of_fmap in Hin as (t & Heq & Ht).
        apply Hout in Ht. apply Ht. rewrite <- Heq.
        apply elem_of_union. left. by apply elem_of_singleton.
      * intros t Ht. apply elem_of_cons in Ht as [->|Ht]; [done|].
        apply Hout in Ht. intros Hs. apply Ht. apply elem_of_union. by right.
      * intros t Ht. simpl. apply elem_of_cons in Ht as [->|Ht].
        -- right. apply elem_of_cons. by left.
        -- destruct (Hall t Ht) as [Hs|Hs].
           ++ apply elem_of_union in Hs as [Hs|Hs]; [|by left].
              apply elem_of_singleton in Hs. right. apply elem_of_cons. by left.
           ++ right. apply elem_of_cons. by right.
Qed.

Lemma select_trades_total (stations : list Z) (trades : list Trade) (ship : Pathfinder.Ship) :
  Forall (fun t => (0 < item_cargo_volume t)%Q ∧ (0 < from_price t)%Q) trades →
  ∃ selected, select_trades stations trades ship = Ok selected.
Proof.
  intros Hpos. rewrite Forall_forall in Hpos. unfold select_trades.
  set (filtered := sort_by _ _). set (s0 := Build_Selection _ _ _ _).
  destruct (for_each_total (select_body ship) (fun _ => True) filtered s0) as [s ->];
    [done| |done|by eexists].
  intros s x _ Hx. apply elem_of_sort_by, list_elem_of_filter in Hx as [_ Hx].
  destruct (Hpos x Hx). by apply select_body_total.
Qed.

Lemma sum_over_path_total (graph : Graph) (attribute : Q * Q -> Q) (path : list Z) :
  (∀ u v, (u, v) ∈ zip path (tail path) → is_Some (edge graph u v)) →
  ∃ total, sum_over_path graph attribute path = Ok total.
Proof.
  intros Hedges. unfold sum_over_path.
  apply (for_each_total _ (fun _ => True)); [done| |done].
  intros total [u v] _ Huv. destruct (Hedges u v Huv) as [data ->]. by eexists.
Qed.

Lemma evaluate_total (trades : list Trade) (graph : Graph) (ship : Pathfinder.Ship)
  (trade : Trade) :
  Forall (fun t => (0 < item_cargo_volume t)%Q ∧ (0 < from_price t)%Q) trades →
  paths_have_edges graph →
  ∃ r, evaluate trades graph ship trade = Ok r.
Proof.
  intros Hpos Hedges. unfold evaluate.
  destruct (select_trades_total
              [Pathfinder.location ship; from_station trade; to_station trade]
              trades ship Hpos) as [selected ->]. simpl.
  destruct (_ || _); [by eexists|].
  destruct (find_path _ _ _ _) as [path|] eqn:Hpath; [|by eexists].
  assert (∀ u v, (u, v) ∈ zip path (tail path) → is_Some (edge graph u v)) as Hpath'.
  { intros u v Huv. by eapply (Hedges _ _ _ path). }
  destruct (sum_over_path_total graph fst path Hpath') as [r ->].
  destruct (sum_over_path_total graph snd path Hpath') as [t ->].
  simpl. destruct (Qeq_bool t 0); by eexists.
Qed.

Lemma evaluate_each_total {A B : Type} (f : A -> result (option B)) (l : list A) :
  (∀ x, x ∈ l → ∃ r, f x = Ok r) → ∃ results, evaluate_each f l = Ok results.
Proof.
  induction l as [|x l IH]; intros Hf; simpl; [by eexists|].
  destruct (Hf x) as [r ->]; [by left|].
  destruct IH as [results ->]; [intros y Hy; apply Hf; by right|].
  simpl. by eexists.
Qed.

End SearchOrder.

(** ** Distances and net profit *)

Section NetProfit.

Import Arbitrage Pathfinder.

Lemma shortest_path_length_None {A : Type} (paths : gmap Z (gmap Z A)) (source target : Z) :
  Graph.shortest_path_length paths source target = None ↔ ¬ has_entry paths source target.
Proof.
  unfold Graph.shortest_path_length, has_entry. split.
  - intros H (row & d & Hrow & Hd). by rewrite Hrow, Hd in H.
  - intros H. destruct (paths !! source) as [row|] eqn:Hrow; [|done].
    destruct (row !! target) as [d|] eqn:Hd; [|done].
    exfalso. apply H. by exists row, d.
Qed.

Lemma shortest_path_length_Some {A : Type} (paths : gmap Z (gmap Z A))
  (source target : Z) (length : A) :
  Graph.shortest_path_length paths source target = Some length
  ↔ ∃ row, paths !! source = Some row ∧ row !! target = Some length.
Proof.
  unfold Graph.shortest_path_length. split.
  - intros H. destruct (paths !! source) as [row|] eqn:Hrow; [|done].
    destruct (row !! target) as [d|] eqn:Hd; [|done].
    exists row. by injection H as <-.
  - intros (row & -> & ->). done.
Qed.

Lemma is_profitable_net_profit (t : Trade) :
  is_profitable t = true → ∃ net, net_profit t = Some net ∧ (0 < net)%Q.
Proof.
  unfold is_profitable. destruct (net_profit t) as [net|]; [|done].
  destruct (Qlt_le_dec 0 net); [|by rewrite andb_false_r].
  intros _. by exists net.
Qed.

(** C7.  [shortest_path_length] returns [None] exactly when the table has
    no entry for the pair (it is a total function: it does not raise).  A
    trade for which the distance to its source or from its source to its
    destination is missing gets the net profit [None] and is not in the
    list that the low-profit filter returns; every trade of that list has
    both distances and a positive net profit. *)
Theorem missing_distance_drops_trade (paths : gmap Z (gmap Z Q)) (ship : Ship)
  (order_matches : list Trade) :
  (∀ source target,
     Graph.shortest_path_length paths source target = None
     ↔ ¬ has_entry paths source target)
  ∧ (∀ t, t ∈ order_matches →
       ¬ has_entry paths (location ship) (from_station t)
       ∨ ¬ has_entry paths (from_station t) (to_station t) →
       set_net_profit paths ship t ∈ calculate_net_profit order_matches paths ship
       ∧ net_profit (set_net_profit paths ship t) = None
       ∧ set_net_profit paths ship t
         ∉ filter_order_matches_low_profit (calculate_net_profit order_matches paths ship))
  ∧ (∀ u, u ∈ filter_order_matches_low_profit (calculate_net_profit order_matches paths ship) →
       has_entry paths (location ship) (from_station u)
       ∧ has_entry paths (from_station u) (to_station u)
       ∧ ∃ net, net_profit u = Some net ∧ (0 < net)%Q).
Proof.
  split_and!.
  - intros source target. apply shortest_path_length_None.
  - intros t Ht Hmissing.
    assert (net_profit (set_net_profit paths ship t) = None) as Hnone.
    { unfold set_net_profit.
      destruct Hmissing as [H|H];
        apply (proj2 (shortest_path_length_None _ _ _)) in H; rewrite H; [done|].
      by destruct (Graph.shortest_path_length paths (location ship) (from_station t)). }
    split_and!; [|done|].
    + unfold calculate_net_profit. apply list_elem_of_In, in_map. by apply list_elem_of_In.
    + intros Hin. apply list_elem_of_filter in Hin as [Hp _].
      apply is_profitable_net_profit in Hp as (net & Hnet & _). congruence.
  - intros u Hu. apply list_elem_of_filter in Hu as [Hp Hu].
    unfold calculate_net_profit in Hu.
    apply list_elem_of_In, in_map_iff in Hu as (t & <- & _).
    apply is_profitable_net_profit in Hp as (net & Hnet & Hpos).
    unfold set_net_profit in *.
    destruct (Graph.shortest_path_length paths (location ship) (from_station t))
      as [d1|] eqn:H1; [|done].
    destruct (Graph.shortest_path_length paths (from_station t) (to_station t))
      as [d2|] eqn:H2; [|done].
    simpl in *. apply shortest_path_length_Some in H1 as (r1 & ? & ?).
    apply shortest_path_length_Some in H2 as (r2 & ? & ?).
    split_and!; [by exists r1, d1|by exists r2, d2|by exists net].
Qed.

Lemma missing_distance_drops_trade_witness :
  unreachable_trade ∈ [example_trade; unreachable_trade]
  ∧ (¬ has_entry example_paths (location (example_ship 600)) (from_station unreachable_trade)
     ∨ ¬ has_entry example_paths (from_station unreachable_trade) (to_station unreachable_trade))
  ∧ net_profit (set_net_profit example_paths (example_ship 600) unreachable_trade) = None
  ∧ set_net_profit example_paths (example_ship 600) unreachable_trade
    ∉ filter_order_matches_low_profit
        (calculate_net_profit [example_trade; unreachable_trade] example_paths
           (example_ship 600)).
Proof.
  assert (unreachable_trade ∈ [example_trade; unreachable_trade]) as H1.
  { apply elem_of_cons. right. apply elem_of_cons. by left. }
  assert (¬ has_entry example_paths (location (example_ship 600))
              (from_station unreachable_trade)
          ∨ ¬ has_entry example_paths (from_station unreachable_trade)
                (to_station unreachable_trade)) as H2.
  { right. apply shortest_path_length_None. reflexivity. }
  split; [exact H1|]. split; [exact H2|].
  exact (proj2 (proj1 (proj2 (missing_distance_drops_trade example_paths (example_ship 600)
                  [example_trade; unreachable_trade])) unreachable_trade H1 H2)).
Defined.

(** On the same list the reachable trade stays, with its net profit. *)
Example pathfinder_example :
  filter_order_matches_low_profit
    (calculate_net_profit [example_trade; unreachable_trade] example_paths (example_ship 600))
  = [with_net_profit example_trade (Some (gross_profit example_trade - (5 + 7))%Q)].
Proof. reflexivity. Qed.

End NetProfit.

(** ** Time, risk and weight of an edge *)

Section EdgeData.

Import Graph.

Local Open Scope R_scope.

Lemma fdiv_Ok (a b : R) : b ≠ 0 → fdiv a b = Ok (a / b).
Proof. intros Hb. unfold fdiv. by destruct (Req_dec_T b 0). Qed.

Lemma log_Ok (x : R) : 0 < x → log x = Ok (ln x).
Proof. intros Hx. unfold log. by destruct (Rlt_dec 0 x). Qed.

Lemma ln_nonneg (x : R) : 1 <= x → 0 <= ln x.
Proof.
  intros [Hx| <-]; [|rewrite ln_1; lra].
  rewrite <- ln_1. left. apply ln_increasing; lra.
Qed.

Lemma AU_IN_M_large : 1 < AU_IN_M.
Proof. unfold AU_IN_M. lra. Qed.

(** The deceleration rate and the drop-out speed are positive when the two
    speeds are. *)
Lemma k_decel_pos (w : R) : 0 < w → 0 < Rmin (w / 3) 2.
Proof. intros Hw. apply Rmin_glb_lt; lra. Qed.

Lemma dropout_pos (s : R) : 0 < s → 0 < Rmin (s / 2) 100.
Proof. intros Hs. apply Rmin_glb_lt; lra. Qed.

(** A warp at least as long as [minimum_dist]: the ship cruises. *)
Lemma time_in_warp_long (warp_dist w s : R) :
  0 < w → 0 < s →
  AU_IN_M + w * AU_IN_M / Rmin (w / 3) 2 <= warp_dist →
  calculate_time_in_warp warp_dist w s
  = Ok ((warp_dist - (AU_IN_M + w * AU_IN_M / Rmin (w / 3) 2)) / (w * AU_IN_M)
        + ln (w * AU_IN_M / w) / w
        + ln (w * AU_IN_M / Rmin (s / 2) 100) / Rmin (w / 3) 2).
Proof.
  intros Hw Hs Hlong. unfold calculate_time_in_warp.
  pose proof (k_decel_pos w Hw) as Hk. pose proof (dropout_pos s Hs) as Hd.
  pose proof AU_IN_M_large as Hau.
  assert (0 < w * AU_IN_M) as Hms by (apply Rmult_lt_0_compat; lra).
  rewrite (fdiv_Ok _ (Rmin (w / 3) 2)) by lra. simpl.
  destruct (Rlt_dec warp_dist _) as [Hshort|_]; [lra|].
  rewrite (fdiv_Ok _ (w * AU_IN_M)) by lra. simpl.
  rewrite (fdiv_Ok _ w) by lra. simpl.
  rewrite log_Ok; [simpl|].
  2:{ apply Rdiv_lt_0_compat; lra. }
  rewrite (fdiv_Ok _ w) by lra. simpl.
  rewrite (fdiv_Ok _ (Rmin (s / 2) 100)) by lra. simpl.
  rewrite log_Ok; [simpl|].
  2:{ apply Rdiv_lt_0_compat; lra. }
  by rewrite (fdiv_Ok _ (Rmin (w / 3) 2)) by lra.
Qed.

(** A shorter warp: the ship never reaches its warp speed. *)
Lemma time_in_warp_short (warp_dist w s : R) :
  0 < w → 0 < s → 0 < warp_dist →
  warp_dist < AU_IN_M + w * AU_IN_M / Rmin (w / 3) 2 →
  calculate_time_in_warp warp_dist w s
  = Ok (0
        + ln (warp_dist * w * Rmin (w / 3) 2 / (w + Rmin (w / 3) 2) / w) / w
        + ln (warp_dist * w * Rmin (w / 3) 2 / (w + Rmin (w / 3) 2) / Rmin (s / 2) 100)
          / Rmin (w / 3) 2).
Proof.
  intros Hw Hs Hdist Hshort. unfold calculate_time_in_warp.
  pose proof (k_decel_pos w Hw) as Hk. pose proof (dropout_pos s Hs) as Hd.
  rewrite (fdiv_Ok _ (Rmin (w / 3) 2)) by lra. simpl.
  destruct (Rlt_dec warp_dist _) as [_|Hlong]; [|lra].
  rewrite (fdiv_Ok _ (w + Rmin (w / 3) 2)) by lra. simpl.
  assert (0 < warp_dist * w * Rmin (w / 3) 2 / (w + Rmin (w / 3) 2)) as Hms.
  { apply Rdiv_lt_0_compat; [|lra]. repeat apply Rmult_lt_0_compat; lra. }
  rewrite (fdiv_Ok _ w) by lra. simpl.
  rewrite log_Ok; [simpl|].
  2:{ apply Rdiv_lt_0_compat; lra. }
  rewrite (fdiv_Ok _ w) by lra. simpl.
  rewrite (fdiv_Ok _ (Rmin (s / 2) 100)) by lra. simpl.
  rewrite log_Ok; [simpl|].
  2:{ apply Rdiv_lt_0_compat; lra. }
  by rewrite (fdiv_Ok _ (Rmin (w / 3) 2)) by lra.
Qed.

Lemma time_in_warp_long_nonneg (warp_dist w s t : R) :
  0 < w → 0 < s → Rmin (s / 2) 100 <= w * AU_IN_M →
  AU_IN_M + w * AU_IN_M / Rmin (w / 3) 2 <= warp_dist →
  calculate_time_in_warp warp_dist w s = Ok t → 0 <= t.
Proof.
  intros Hw Hs Hdrop Hlong. rewrite time_in_warp_long by done. intros [= <-].
  pose proof (k_decel_pos w Hw) as Hk. pose proof (dropout_pos s Hs) as Hd.
  pose proof AU_IN_M_large as Hau.
  assert (0 < w * AU_IN_M) as Hms by (apply Rmult_lt_0_compat; lra).
  assert (0 <= (warp_dist - (AU_IN_M + w * AU_IN_M / Rmin (w / 3) 2)) / (w * AU_IN_M)).
  { apply Rle_mult_inv_pos; lra. }
  assert (0 <= ln (w * AU_IN_M / w) / w).
  { apply Rle_mult_inv_pos; [|done]. apply ln_nonneg.
    replace (w * AU_IN_M / w) with AU_IN_M by (field; lra). lra. }
  assert (0 <= ln (w * AU_IN_M / Rmin (s / 2) 100) / Rmin (w / 3) 2).
  { apply Rle_mult_inv_pos; [|done]. apply ln_nonneg.
    apply (Rmult_le_reg_r (Rmin (s / 2) 100)); [done|].
    replace (w * AU_IN_M / Rmin (s / 2) 100 * Rmin (s / 2) 100) with (w * AU_IN_M)
      by (field; lra).
    lra. }
  lra.
Qed.

Lemma calculate_risk_pos (stations : gmap Z Station) (v : Z) (gankers : gmap string R)
  (data : Station) (r : R) :
  stations !! v = Some data →
  security data <= 1 →
  (∀ name bonus, gankers !! name = Some bonus → 0 <= bonus) →
  calculate_risk stations v gankers = Ok r → 0 < r.
Proof.
  intros Hv Hsec Hbonus. unfold calculate_risk, station_data. rewrite Hv. simpl.
  intros [= <-].
  assert (0 <= default 0 (gankers !! default EmptyString (solar_system_name data))) as Hb.
  { destruct (gankers !! _) as [b|] eqn:E; simpl; [by eapply Hbonus|lra]. }
  destruct (Rlt_dec _ _), (Rlt_dec _ _); lra.
Qed.

End EdgeData.

Section EdgeResults.

Import Graph.

Local Open Scope R_scope.

(** An edge joins two known stations. *)
Lemma pairs_of_elem (l : list Z) (u v : Z) : (u, v) ∈ pairs_of l → u ∈ l ∧ v ∈ l.
Proof.
  induction l as [|x l IH]; simpl; intros H; [by apply elem_of_nil in H|].
  apply elem_of_app in H as [H|H].
  - apply list_elem_of_In, in_map_iff in H as (y & [= <- <-] & Hy).
    apply list_elem_of_In in Hy. split; [by left|by right].
  - destruct (IH H). split; by right.
Qed.

Lemma stations_by_system_sound (stations : gmap Z Station) (k : Z) (l : list Z) (u : Z) :
  stations_by_system stations !! k = Some l → u ∈ l → is_Some (stations !! u).
Proof.
  unfold stations_by_system.
  assert (∀ (entries : list (Z * Station)) (m : gmap Z (list Z)),
    (∀ k l u, m !! k = Some l → u ∈ l → is_Some (stations !! u)) →
    (∀ e, e ∈ entries → stations !! e.1 = Some e.2) →
    fold_left
      (fun by_system '(station_id, station_data) =>
         <[solar_system_id station_data :=
             default [] (by_system !! solar_system_id station_data) ++ [station_id]]>
           by_system)
      entries m !! k = Some l →
    u ∈ l → is_Some (stations !! u)) as Hgen.
  { induction entries as [|[i d] entries IH]; intros m Hm Hentries; simpl.
    - apply Hm.
    - apply IH.
      + intros k' l' u' Hk' Hu'.
        destruct (decide (solar_system_id d = k')) as [<-|Hne].
        * rewrite lookup_insert_eq in Hk'. injection Hk' as <-.
          apply elem_of_app in Hu' as [Hu'|Hu'].
          -- destruct (m !! solar_system_id d) as [g|] eqn:Hg; simpl in Hu'.
             ++ by eapply Hm.
             ++ by apply elem_of_nil in Hu'.
          -- apply list_elem_of_singleton in Hu' as ->.
             specialize (Hentries (i, d)). simpl in Hentries.
             rewrite Hentries; [done|by left].
        * rewrite lookup_insert_ne in Hk' by done. by eapply Hm.
      + intros e He. apply Hentries. by right. }
  apply Hgen.
  - intros k' l' u' Hk'. by rewrite lookup_empty in Hk'.
  - intros [i d] He. by apply elem_of_map_to_list in He.
Qed.

Lemma is_edge_stations (stations : gmap Z Station) (connections : list (Z * Z)) (u v : Z) :
  is_edge stations connections u v →
  is_Some (stations !! u) ∧ is_Some (stations !! v).
Proof.
  assert (∀ a b, (a, b) ∈ added_edges stations connections →
            is_Some (stations !! a) ∧ is_Some (stations !! b)) as Hadded.
  { intros a b Hab. unfold added_edges in Hab. apply elem_of_app in Hab as [Hab|Hab].
    - apply list_elem_of_In, in_flat_map in Hab as ([k l] & Hkl & Hab).
      apply list_elem_of_In, elem_of_map_to_list in Hkl.
      apply list_elem_of_In, pairs_of_elem in Hab as [Ha Hb].
      split; by eapply stations_by_system_sound.
    - by apply list_elem_of_filter in Hab as [? _]. }
  intros [H|H]; apply Hadded in H; tauto.
Qed.

(** The time in warp is not negative when the speed that the ship reaches
    is at least the warp rate and the drop-out speed: neither logarithm is
    negative then. *)
Lemma time_in_warp_nonneg (warp_dist w s : R) :
  0 < w → 0 < s →
  w <= reached_speed warp_dist w →
  Rmin (s / 2) 100 <= reached_speed warp_dist w →
  ∃ t, calculate_time_in_warp warp_dist w s = Ok t ∧ 0 <= t.
Proof.
  intros Hw Hs Hrate Hdrop. unfold reached_speed in Hrate, Hdrop.
  pose proof (k_decel_pos w Hw) as Hk. pose proof (dropout_pos s Hs) as Hd.
  destruct (Rlt_dec warp_dist _) as [Hshort|Hlong].
  - set (v := warp_dist * w * Rmin (w / 3) 2 / (w + Rmin (w / 3) 2)) in *.
    assert (0 < warp_dist) as Hdist.
    { destruct (Rlt_le_dec 0 warp_dist) as [|Hle]; [done|]. exfalso.
      assert (0 < w * Rmin (w / 3) 2 / (w + Rmin (w / 3) 2)) as Hc.
      { apply Rdiv_lt_0_compat; [apply Rmult_lt_0_compat|]; lra. }
      assert (v = warp_dist * (w * Rmin (w / 3) 2 / (w + Rmin (w / 3) 2))) as Hv
        by (unfold v; field; lra).
      assert (warp_dist * (w * Rmin (w / 3) 2 / (w + Rmin (w / 3) 2))
              <= 0 * (w * Rmin (w / 3) 2 / (w + Rmin (w / 3) 2)))
        by (apply Rmult_le_compat_r; lra).
      lra. }
    eexists. split; [by apply time_in_warp_short|]. fold v.
    assert (∀ c, 0 < c → c <= v → 0 <= ln (v / c)) as Hln.
    { intros c Hc Hcv. apply ln_nonneg. apply (Rmult_le_reg_r c); [done|].
      replace (v / c * c) with v by (field; lra). lra. }
    assert (0 <= ln (v / w) / w) by (apply Rle_mult_inv_pos; [by apply Hln|done]).
    assert (0 <= ln (v / Rmin (s / 2) 100) / Rmin (w / 3) 2)
      by (apply Rle_mult_inv_pos; [by apply Hln|done]).
    lra.
  - assert (AU_IN_M + w * AU_IN_M / Rmin (w / 3) 2 <= warp_dist) as Hlong' by lra.
    eexists. split; [by apply time_in_warp_long|].
    eapply time_in_warp_long_nonneg; [exact Hw|exact Hs|exact Hdrop|exact Hlong'|].
    by apply time_in_warp_long.
Qed.

(** C4, as the code has it.  For an edge of the graph, a destination whose
    security is at most
    1, danger bonuses and cost factors that are not negative and, when the
    two ends are in one solar system, positive speeds and a warp on which
    the ship reaches a speed of at least its warp rate and its drop-out
    speed: the attributes of the edge are computed, the time is 9 between
    two solar systems and at least 2 inside one, the risk is positive and
    the weight is not negative.  A long warp ([minimum_dist] or more)
    reaches the warp speed in m/s, which is above the warp rate; a shorter
    one reaches [warp_dist * k_accel * k_decel / (k_accel + k_decel)]. *)
Theorem edge_data_bounds (stations : gmap Z Station) (connections : list (Z * Z))
  (ship : ShipProfile) (u v : Z) (from_data to_data : Station) :
  is_edge stations connections u v →
  stations !! u = Some from_data →
  stations !! v = Some to_data →
  security to_data <= 1 →
  (∀ name bonus, default ∅ (gankers_areas ship) !! name = Some bonus → 0 <= bonus) →
  0 <= default 1 (player_cost ship) →
  0 <= default 1 (risk_cost ship) →
  (solar_system_id from_data = solar_system_id to_data →
   0 < default 1 (max_warp_speed ship)
   ∧ 0 < default 1 (max_subwarp_speed ship)
   ∧ default 1 (max_warp_speed ship)
     <= reached_speed (warp_distance (position from_data) (position to_data))
          (default 1 (max_warp_speed ship))
   ∧ Rmin (default 1 (max_subwarp_speed ship) / 2) 100
     <= reached_speed (warp_distance (position from_data) (position to_data))
          (default 1 (max_warp_speed ship))) →
  ∃ d,
    edge_data stations ship u v = Ok d
    ∧ (solar_system_id from_data ≠ solar_system_id to_data → time d = 9)
    ∧ (solar_system_id from_data = solar_system_id to_data → 2 <= time d)
    ∧ 0 <= time d
    ∧ 0 < risk d
    ∧ 0 <= weight d.
Proof.
  intros _ Hu Hv Hsec Hbonus Hplayer Hcost Hwarp.
  assert (∃ t, calculate_time stations u v ship = Ok t
               ∧ (solar_system_id from_data ≠ solar_system_id to_data → t = 9)
               ∧ (solar_system_id from_data = solar_system_id to_data → 2 <= t)
               ∧ 0 <= t) as (t & Ht & Hgate & Hsame & Htime).
  { unfold calculate_time, station_data. rewrite Hu, Hv. simpl.
    destruct (decide (solar_system_id from_data = solar_system_id to_data)) as [Heq|Hne].
    - rewrite bool_decide_eq_false_2 by (intros Hne; by apply Hne).
      destruct (Hwarp Heq) as (Hw & Hs & Hrate & Hdrop).
      destruct (time_in_warp_nonneg _ _ _ Hw Hs Hrate Hdrop) as (tw & -> & Htw). simpl.
      eexists. split; [done|]. split_and!; [done|intros _; lra|lra].
    - rewrite bool_decide_eq_true_2 by done.
      eexists. split; [done|]. split_and!; [done|done|lra]. }
  assert (∃ r, calculate_risk stations v (default ∅ (gankers_areas ship)) = Ok r)
    as [r Hr].
  { unfold calculate_risk, station_data. rewrite Hv. simpl. by eexists. }
  pose proof (calculate_risk_pos _ _ _ _ _ Hv Hsec Hbonus Hr) as Hrisk.
  unfold edge_data. rewrite Ht. simpl. rewrite Hr. simpl.
  eexists. split; [done|]. simpl. split_and!; [done|done|done|done|].
  apply Rplus_le_le_0_compat; apply Rmult_le_pos; lra.
Qed.

Lemma near_stations_edge : is_edge near_stations [] 1%Z 2%Z.
Proof. right. vm_compute. apply list_elem_of_here. Qed.

End EdgeResults.

Section ShortWarp.

Import Graph.

Local Open Scope R_scope.

Lemma ln_below_minus_3 (x : R) : 0 < x → x < 1 / 27 → ln x < -3.
Proof.
  intros Hpos Hx. replace (-3) with (Ropp 3) by lra.
  rewrite <- (ln_exp (Ropp 3)). apply ln_increasing; [done|].
  assert (exp 3 <= 27) as H3.
  { replace 3 with (1 + (1 + 1)) at 1 by lra. rewrite !exp_plus.
    pose proof exp_le_3 as He. pose proof (exp_pos 1) as Hp.
    assert (exp 1 * exp 1 <= 9) by nra. nra. }
  rewrite exp_Ropp. pose proof (exp_pos 3) as Hp.
  apply (Rlt_le_trans _ (1 / 27)); [done|].
  unfold Rdiv. rewrite Rmult_1_l. apply Rinv_le_contravar; done.
Qed.

Lemma near_stations_lookup :
  near_stations !! 1%Z = Some (near_station 0) ∧ near_stations !! 2%Z = Some (near_station 1).
Proof. split; reflexivity. Qed.

Lemma near_stations_distance :
  warp_distance (position (near_station 0)) (position (near_station 1)) = 1.
Proof.
  unfold warp_distance. simpl.
  replace ((0 - 1) * ((0 - 1) * 1) + (0 - 0) * ((0 - 0) * 1) + (0 - 0) * ((0 - 0) * 1))
    with 1 by lra.
  apply sqrt_1.
Qed.

(** C4 as stated fails: for two stations of one solar system that are one
    metre apart, and a ship with a warp speed of 3 AU/s and a sub-warp
    speed of 200 m/s, the time of the edge is below -1 and, with both cost
    factors 1, so is the weight. *)
Lemma short_warp_negative_time :
  is_edge near_stations [] 1%Z 2%Z
  ∧ ∃ d, edge_data near_stations example_profile 1%Z 2%Z = Ok d
         ∧ time d < -1 ∧ weight d < 0.
Proof.
  split; [apply near_stations_edge|].
  destruct near_stations_lookup as [H1 H2].
  unfold edge_data, calculate_time, calculate_risk, station_data.
  rewrite H1, H2. simpl.
  pose proof near_stations_distance as Hdist. simpl in Hdist. rewrite Hdist.
  assert (Rmin (3 / 3) 2 = 3 / 3) as Hk by (apply Rmin_left; lra).
  assert (Rmin (200 / 2) 100 = 200 / 2) as Hdrop by (apply Rmin_left; lra).
  rewrite time_in_warp_short; [|lra|lra|lra|].
  2:{ rewrite Hk. unfold AU_IN_M. lra. }
  simpl. rewrite Hk, Hdrop.
  destruct (Rlt_dec 1 (5 / 10)) as [?|_]; [lra|].
  destruct (Rlt_dec 1 (1 / 10)) as [?|_]; [lra|].
  eexists. split; [reflexivity|]. simpl.
  assert (ln (1 * 3 * (3 / 3) / (3 + 3 / 3) / 3) < 0) as Ha.
  { rewrite <- ln_1. apply ln_increasing; lra. }
  assert (ln (1 * 3 * (3 / 3) / (3 + 3 / 3) / (200 / 2)) < -3) as Hb.
  { apply ln_below_minus_3; lra. }
  rewrite lookup_empty. simpl. split; lra.
Qed.

Lemma gate_edge_example :
  is_edge far_stations [(1%Z, 2%Z)] 1%Z 2%Z
  ∧ edge_data far_stations example_profile 1%Z 2%Z = Ok gate_edge_data.
Proof.
  split.
  - left. unfold added_edges. apply elem_of_app. right.
    apply list_elem_of_filter. split; [|apply list_elem_of_here].
    split; by eexists.
  - assert (far_stations !! 1%Z = Some (far_station 30000142 0)) as H1 by reflexivity.
    assert (far_stations !! 2%Z = Some (far_station 30000144 0)) as H2 by reflexivity.
    unfold edge_data, calculate_time, calculate_risk, station_data.
    rewrite H1, H2. simpl.
    destruct (Rlt_dec 1 (5 / 10)) as [?|_]; [lra|].
    destruct (Rlt_dec 1 (1 / 10)) as [?|_]; [lra|].
    by rewrite lookup_empty.
Qed.

Lemma warp_stations_edge : is_edge warp_stations [] 1%Z 2%Z.
Proof. right. vm_compute. apply list_elem_of_here. Qed.

Lemma warp_stations_distance :
  warp_distance (position (near_station 0)) (position (near_station 1000)) = 1000.
Proof.
  unfold warp_distance. simpl.
  replace ((0 - 1000) * ((0 - 1000) * 1) + (0 - 0) * ((0 - 0) * 1) + (0 - 0) * ((0 - 0) * 1))
    with (1000 * 1000) by lra.
  apply sqrt_square. lra.
Qed.

(** On a warp of a kilometre the ship of the example reaches 750 m/s: more
    than its warp rate of 3 and its drop-out speed of 100. *)
Lemma warp_stations_speed :
  reached_speed (warp_distance (position (near_station 0)) (position (near_station 1000))) 3
  = 750.
Proof.
  rewrite warp_stations_distance. unfold reached_speed.
  assert (Rmin (3 / 3) 2 = 1) as -> by (rewrite Rmin_left; lra).
  destruct (Rlt_dec 1000 _) as [_|Hlong]; [lra|].
  exfalso. apply Hlong. unfold AU_IN_M. lra.
Qed.

Lemma edge_data_bounds_witness :
  ∃ d,
    edge_data warp_stations example_profile 1%Z 2%Z = Ok d
    ∧ (solar_system_id (near_station 0) ≠ solar_system_id (near_station 1000) → time d = 9)
    ∧ (solar_system_id (near_station 0) = solar_system_id (near_station 1000) → 2 <= time d)
    ∧ 0 <= time d
    ∧ 0 < risk d
    ∧ 0 <= weight d.
Proof.
  apply (edge_data_bounds warp_stations [] example_profile 1%Z 2%Z
           (near_station 0) (near_station 1000)).
  - apply warp_stations_edge.
  - reflexivity.
  - reflexivity.
  - simpl. lra.
  - intros name bonus. simpl. by rewrite lookup_empty.
  - simpl. lra.
  - simpl. lra.
  - intros _.
    change (0 < 3 ∧ 0 < 200
            ∧ 3 <= reached_speed
                     (warp_distance (position (near_station 0))
                        (position (near_station 1000))) 3
            ∧ Rmin (200 / 2) 100
              <= reached_speed
                   (warp_distance (position (near_station 0))
                      (position (near_station 1000))) 3).
    rewrite warp_stations_speed.
    assert (Rmin (200 / 2) 100 = 100) as -> by (rewrite Rmin_left; lra).
    lra.
Defined.

End ShortWarp.

(** ** The formatted route *)

Section FormattedRoute.

Import Graph.

Lemma combine_warp_gates_unfold (stations : gmap Z Station) (x : Z) (rest : list Z) :
  combine_warp_gates stations (x :: rest) = Ok (combined_from stations x rest).
Proof.
  unfold combine_warp_gates. revert x.
  induction rest as [|y rest IH]; intros x.
  - simpl. destruct (stations !! x) as [s|]; [|done]. by destruct (is_station s).
  - specialize (IH y). rewrite last_cons_cons.
    cbn [tail zip_with flat_map combined_from] in IH |- *.
    destruct (last (y :: rest)) as [l|]; [|done].
    destruct (stations !! l) as [s|].
    + destruct (is_station s); injection IH as <-; by rewrite ?app_assoc.
    + by injection IH as <-.
Qed.



(** The steps of the formatted route are entries of the combined path, in
    order. *)
Lemma format_from_sublist (stations : gmap Z Station) (solar_systems : gmap Z SolarSystem)
  (index : nat) (combined_path : list Z) (route : list LocationInfo) :
  format_from stations solar_systems index combined_path = Ok route →
  map location_id route `sublist_of` combined_path.
Proof.
  revert index route. induction combined_path as [|loc rest IH]; intros index route; simpl.
  - by intros [= <-].
  - destruct (get_location_info stations solar_systems loc index) as [info|] eqn:Hinfo;
      [|done]. simpl.
    destruct (format_from stations solar_systems (S index) rest) as [formatted|] eqn:Hrest;
      [|done]. simpl.
    intros [= <-]. specialize (IH _ _ Hrest).
    destruct info as [info|]; [|by apply sublist_cons].
    assert (location_id info = loc) as <-; [|by apply sublist_skip].
    unfold get_location_info in Hinfo.
    destruct (stations !! loc) as [s|].
    + destruct (region_name s); [|done]. by injection Hinfo as <-.
    + destruct (solar_systems !! loc); [|done]. by injection Hinfo as <-.
Qed.

End FormattedRoute.

Section FormattedRouteResults.

Import Graph.

Lemma combined_from_station (stations : gmap Z Station) (x : Z) (rest : list Z) (z : Z) :
  z ∈ x :: rest → station_node stations z → z ∈ combined_from stations x rest.
Proof.
  intros Hz (data & Hdata & Hst). revert x Hz.
  induction rest as [|y rest IH]; intros x Hz; simpl.
  - apply list_elem_of_singleton in Hz as ->. rewrite Hdata, Hst. by left.
  - apply elem_of_cons in Hz as [->|Hz].
    + apply elem_of_app. left. unfold combine_pair. rewrite Hdata, Hst. by left.
    + apply elem_of_app. right. by apply IH.
Qed.

Lemma combined_from_gates (stations : gmap Z Station) (x : Z) (rest : list Z)
  (l1 l2 : list Z) (g g' system : Z) :
  x :: rest = l1 ++ g :: g' :: l2 →
  gate_of stations system g → gate_of stations system g' →
  system ∈ combined_from stations x rest.
Proof.
  intros Heq (d & Hd & Hgate & Hsys) (d' & Hd' & Hgate' & Hsys').
  revert x rest Heq. induction l1 as [|a l1 IH]; intros x rest Heq.
  - injection Heq as -> ->. simpl. apply elem_of_app. left.
    unfold combine_pair. rewrite Hd, Hd', Hgate, Hgate'. simpl.
    rewrite bool_decide_eq_true_2 by congruence. rewrite Hsys. by left.
  - injection Heq as -> ->.
    destruct (l1 ++ g :: g' :: l2) as [|y rest'] eqn:Hrest.
    + by destruct l1.
    + simpl. apply elem_of_app. right. by apply IH.
Qed.


End FormattedRouteResults.

Section FormattedRouteExample.

Import Graph.

(** On the path [1; 2; 4; 10] the two gates of the first system become
    one step for the system, the lone gate of the second system is left out,
    and the station stays. *)
Example formatted_route_example :
  ∃ route,
    formatted_route route_nodes route_systems [1; 2; 4; 10] = Ok route
    ∧ map location_id route = [30000142; 10]
    ∧ map location route = ["The Forge - Jita"%string; "The Forge -  - Node"%string].
Proof. eexists. repeat split; reflexivity. Qed.

End FormattedRouteExample.

(** ** The matcher: which pairs become trades *)

Section MatcherPairs.

Import Market Arbitrage.

Lemma group_by_type_complete (orders : list Order) (o : Order) :
  o ∈ orders →
  ∃ group, group_by_type orders !! Market.type_id o = Some group ∧ o ∈ group.
Proof.
  unfold group_by_type.
  assert (∀ (m : gmap Z (list Order)),
    let r := fold_left
      (fun grouped order =>
         <[Market.type_id order :=
             default [] (grouped !! Market.type_id order) ++ [order]]> grouped)
      orders m in
    (∀ k g x, m !! k = Some g → x ∈ g → ∃ g', r !! k = Some g' ∧ x ∈ g')
    ∧ (o ∈ orders → ∃ g', r !! Market.type_id o = Some g' ∧ o ∈ g')) as Hgen.
  { induction orders as [|y orders IH]; intros m; simpl.
    - split; [by eauto|]. by intros ?%elem_of_nil.
    - destruct (IH (<[Market.type_id y :=
                       default [] (m !! Market.type_id y) ++ [y]]> m)) as [Hold Hnew].
      split.
      + intros k g x Hk Hx. destruct (decide (Market.type_id y = k)) as [<-|Hne].
        * eapply Hold; [apply lookup_insert_eq|]. rewrite Hk. simpl.
          apply elem_of_app. by left.
        * eapply Hold; [|done]. by rewrite lookup_insert_ne.
      + intros [->|Ho]%elem_of_cons; [|by apply Hnew].
        eapply Hold; [apply lookup_insert_eq|]. apply elem_of_app. right. by left. }
  intros Ho. by apply (Hgen ∅).
Qed.

Lemma create_trades_complete (sell_orders buy_orders : list Order) (s b : Order) (t : Trade) :
  s ∈ sell_orders → b ∈ buy_orders → Market.type_id s = Market.type_id b →
  match_orders s b = Some t → t ∈ create_trades sell_orders buy_orders.
Proof.
  intros Hs Hb Htype Hm. unfold create_trades.
  destruct (group_by_type_complete _ _ Hs) as (gs & Hgs & Hsg).
  destruct (group_by_type_complete _ _ Hb) as (gb & Hgb & Hbg).
  rewrite <- Htype in Hgb.
  apply list_elem_of_In, in_flat_map. exists (Market.type_id s). split.
  - apply list_elem_of_In, elem_of_elements, elem_of_intersection.
    split; apply elem_of_dom; by eexists.
  - apply in_flat_map. exists s. rewrite Hgs, Hgb. simpl.
    split; [by apply list_elem_of_In|].
    apply list_elem_of_In, list_elem_of_omap. by exists b.
Qed.

(** A trade of [create_trades] matches two orders of one type. *)
Lemma create_trades_type (sell_orders buy_orders : list Order) (t : Trade) :
  t ∈ create_trades sell_orders buy_orders →
  ∃ s b, s ∈ sell_orders ∧ b ∈ buy_orders ∧ Market.type_id s = Market.type_id b
         ∧ match_orders s b = Some t.
Proof.
  unfold create_trades. intros Ht.
  apply list_elem_of_In, in_flat_map in Ht as (k & _ & Ht).
  apply in_flat_map in Ht as (s & Hs & Ht).
  apply list_elem_of_In, list_elem_of_omap in Ht as (b & Hb & Hm).
  apply list_elem_of_In in Hs.
  destruct (group_by_type sell_orders !! k) as [gs|] eqn:Hgs; simpl in Hs;
    [|by apply elem_of_nil in Hs].
  destruct (group_by_type buy_orders !! k) as [gb|] eqn:Hgb; simpl in Hb;
    [|by apply elem_of_nil in Hb].
  destruct (group_by_type_sound _ _ _ _ Hgs Hs) as [? Hks].
  destruct (group_by_type_sound _ _ _ _ Hgb Hb) as [? Hkb].
  exists s, b. split_and!; [done|done|congruence|done].
Qed.

Lemma capped_twice_elem (side : list Order) (cargo_space : Z) (s : Order) :
  s ∈ filter_orders_for_capital_risk (filter_orders_for_cargo side cargo_space) MAX_CAPITAL
  ↔ ∃ o, o ∈ side ∧ capped_twice cargo_space o = Some s.
Proof.
  unfold filter_orders_for_capital_risk, filter_orders_for_cargo, capped_twice.
  rewrite list_elem_of_omap. split.
  - intros (o1 & Ho1 & Hs). apply list_elem_of_omap in Ho1 as (o & Ho & Ho1).
    exists o. split; [done|]. by rewrite Ho1.
  - intros (o & Ho & Hs). destruct (cap_for_cargo cargo_space o) as [o1|] eqn:Ho1; [|done].
    exists o1. split; [|done]. apply list_elem_of_omap. by exists o.
Qed.

(** The trades of the matcher are the matches of a capped sell order and a
    capped buy order of one type. *)
Lemma arbitrage_elem (orders : list Order) (cargo_space : Z) (t : Trade) :
  t ∈ arbitrage orders cargo_space
  ↔ ∃ so bo s b,
      so ∈ orders ∧ is_buy_order so = false ∧ bo ∈ orders ∧ is_buy_order bo = true
      ∧ capped_twice cargo_space so = Some s ∧ capped_twice cargo_space bo = Some b
      ∧ Market.type_id s = Market.type_id b
      ∧ match_orders s b = Some t.
Proof.
  unfold arbitrage. split.
  - intros Ht. apply create_trades_type in Ht as (s & b & Hs & Hb & Htype & Hm).
    apply capped_twice_elem in Hs as (so & Hso & Hcs).
    apply capped_twice_elem in Hb as (bo & Hbo & Hcb).
    apply elem_of_sort_by, list_elem_of_filter in Hso as [? ?].
    apply elem_of_sort_by, list_elem_of_filter in Hbo as [? ?].
    by exists so, bo, s, b.
  - intros (so & bo & s & b & Hso & Hsell & Hbo & Hbuy & Hcs & Hcb & Htype & Hm).
    eapply create_trades_complete; [| |done|done].
    + apply capped_twice_elem. exists so. split; [|done].
      apply elem_of_sort_by, list_elem_of_filter. by split.
    + apply capped_twice_elem. exists bo. split; [|done].
      apply elem_of_sort_by, list_elem_of_filter. by split.
Qed.

Lemma capped_twice_Some (cargo_space : Z) (o s : Order) :
  capped_twice cargo_space o = Some s →
  s = with_volume_remain o (volume_remain s) ∧ 1 ≤ volume_remain s ≤ volume_remain o.
Proof.
  unfold capped_twice. destruct (cap_for_cargo cargo_space o) as [o1|] eqn:H1; [|done].
  simpl. intros H2.
  apply cap_for_cargo_Some in H1 as (E1 & ? & _).
  apply cap_for_capital_risk_Some in H2 as (E2 & ? & _).
  rewrite E1 in E2. simpl in E2. split; [done|lia].
Qed.

End MatcherPairs.

Section MatcherPairsResults.

Import Market Arbitrage.

(** X1.  Every trade of the matcher buys from a sell order of the input and
    sells to a buy order of the input of the same item type: it has their
    ids, stations and prices and the item volume of the sell order, and its
    quantity is at least 1 and at most the remaining volume of either
    order. *)
Theorem arbitrage_trade_provenance (orders : list Order) (cargo_space : Z) :
  Forall
    (fun t =>
       ∃ so bo,
         so ∈ orders ∧ bo ∈ orders
         ∧ is_buy_order so = false ∧ is_buy_order bo = true
         ∧ Market.type_id so = Market.type_id bo ∧ type_id t = Market.type_id so
         ∧ from_order_id t = order_id so ∧ to_order_id t = order_id bo
         ∧ from_station t = location_id so ∧ to_station t = location_id bo
         ∧ from_price t = price so ∧ to_price t = price bo
         ∧ item_cargo_volume t = Market.item_cargo_volume so
         ∧ 1 ≤ quantity t ∧ quantity t ≤ volume_remain so ∧ quantity t ≤ volume_remain bo
         ∧ cargo t = (inject_Z (quantity t) * item_cargo_volume t)%Q)
    (arbitrage orders cargo_space).
Proof.
  apply Forall_forall. intros t Ht.
  apply arbitrage_elem in Ht as (so & bo & s & b & Hso & Hsell & Hbo & Hbuy & Hcs & Hcb & Ht & Hm).
  apply capped_twice_Some in Hcs as [Es ?]. apply capped_twice_Some in Hcb as [Eb ?].
  exists so, bo. unfold match_orders in Hm.
  destruct (Qlt_le_dec _ _); [done|]. destruct (Qlt_le_dec _ _); [done|].
  injection Hm as <-. rewrite Es, Eb in Ht |- *. simpl in *.
  split_and!; try done; lia.
Qed.

(** X2.  The trades the matcher finds do not depend on the order of the
    orders in the input: a permutation of the input gives the same trades,
    as a set. *)
Theorem arbitrage_order_independent (orders orders' : list Order) (cargo_space : Z)
  (t : Trade) :
  orders ≡ₚ orders' →
  t ∈ arbitrage orders cargo_space ↔ t ∈ arbitrage orders' cargo_space.
Proof.
  intros Hperm. rewrite !arbitrage_elem.
  split; intros (so & bo & s & b & Hso & Hsell & Hbo & Hbuy & Hrest);
    exists so, bo, s, b.
  - rewrite <- Hperm. tauto.
  - rewrite Hperm. tauto.
Qed.

Lemma arbitrage_order_independent_witness :
  example_orders ≡ₚ example_orders_shuffled
  ∧ (example_trade ∈ arbitrage example_orders 1000000
     ↔ example_trade ∈ arbitrage example_orders_shuffled 1000000).
Proof.
  assert (example_orders ≡ₚ example_orders_shuffled) as H.
  { unfold example_orders, example_orders_shuffled.
    apply (Permutation_cons_append
             [example_order 2 2 20 true 100 1000000; example_order 3 1 10 false 2 50]). }
  split; [exact H|].
  exact (arbitrage_order_independent example_orders example_orders_shuffled 1000000
           example_trade H).
Defined.

(** X3.  No pair is missed.  For a sell order and a buy order of the input
    of one item type that both pass the two filters, when the gross profit
    on the smaller of the two capped volumes is above the profit threshold
    by at least 1 ISK, the matcher returns a trade of these two orders for
    that quantity.  (The margin keeps the statement away from the threshold
    itself, where the rounding of the float product, which is of the order
    of 1e-7 ISK for orders that pass the capital filter, decides.) *)
Theorem arbitrage_finds_every_pair (orders : list Order) (cargo_space : Z)
  (so bo s b : Order) :
  so ∈ orders → bo ∈ orders → is_buy_order so = false → is_buy_order bo = true →
  Market.type_id so = Market.type_id bo →
  capped_twice cargo_space so = Some s → capped_twice cargo_space bo = Some b →
  (PROFIT_THRESHOLD + 1
   <= inject_Z (Z.min (volume_remain s) (volume_remain b))
      * (price bo * (1 - TAX_RATE) - price so))%Q →
  ∃ t, t ∈ arbitrage orders cargo_space
       ∧ from_order_id t = order_id so ∧ to_order_id t = order_id bo
       ∧ quantity t = Z.min (volume_remain s) (volume_remain b).
Proof.
  intros Hso Hbo Hsell Hbuy Htype Hcs Hcb Hmargin.
  destruct (capped_twice_Some _ _ _ Hcs) as [Es Hvs].
  destruct (capped_twice_Some _ _ _ Hcb) as [Eb Hvb].
  assert (price s = price so) as Eps by (by rewrite Es).
  assert (price b = price bo) as Epb by (by rewrite Eb).
  set (q := Z.min (volume_remain s) (volume_remain b)) in *.
  set (margin := (price bo * (1 - TAX_RATE) - price so)%Q) in *.
  assert (PROFIT_THRESHOLD <= inject_Z q * margin)%Q as Hprofit.
  { eapply Qle_trans; [|exact Hmargin].
    rewrite <- (Qplus_0_r PROFIT_THRESHOLD) at 1. by apply Qplus_le_r. }
  assert (0 < inject_Z q * margin)%Q as Hpos.
  { eapply Qlt_le_trans; [|exact Hprofit]. reflexivity. }
  assert (price so <= price bo * (1 - TAX_RATE))%Q as Hprice.
  { destruct (Qlt_le_dec (price bo * (1 - TAX_RATE)) (price so)) as [Hlt|Hle]; [|done].
    exfalso. apply (Qlt_not_le _ _ Hpos).
    assert (margin <= 0)%Q as Hneg.
    { unfold margin, Qminus. rewrite <- (Qplus_opp_r (price so)).
      apply Qplus_le_l. by apply Qlt_le_weak. }
    assert (0 <= inject_Z q)%Q as Hq.
    { change 0%Q with (inject_Z 0). rewrite <- Zle_Qle. unfold q. lia. }
    rewrite <- (Qmult_0_r (inject_Z q)).
    rewrite Qmult_comm, (Qmult_comm (inject_Z q)).
    by apply Qmult_le_compat_r. }
  destruct (match_orders s b) as [t|] eqn:Hm.
  - exists t. split.
    + apply arbitrage_elem. exists so, bo, s, b.
      split_and!; try done. by rewrite Es, Eb.
    + apply match_orders_Some in Hm as (-> & -> & _ & _ & _ & -> & _).
      by rewrite Es, Eb.
  - exfalso. unfold match_orders in Hm. rewrite Eps, Epb in Hm.
    destruct (Qlt_le_dec _ _) as [Hlt|_].
    { by apply Qlt_not_le in Hlt. }
    destruct (Qlt_le_dec _ _) as [Hlt|_]; [|done].
    by apply Qlt_not_le in Hlt.
Qed.

Lemma arbitrage_finds_every_pair_witness :
  ∃ t, t ∈ arbitrage example_orders 1000000
       ∧ from_order_id t = 1 ∧ to_order_id t = 2 ∧ quantity t = 1000000.
Proof.
  refine (arbitrage_finds_every_pair example_orders 1000000
            (example_order 1 1 10 false 1 1000000) (example_order 2 2 20 true 100 1000000)
            (example_order 1 1 10 false 1 1000000) (example_order 2 2 20 true 100 1000000)
            _ _ _ _ _ _ _ _).
  - apply list_elem_of_here.
  - apply list_elem_of_further, list_elem_of_here.
  - reflexivity.
  - reflexivity.
  - reflexivity.
  - reflexivity.
  - reflexivity.
  - vm_compute. discriminate.
Defined.

(** One order through both filters, in either order of the filters. *)
Lemma cap_commute (cargo_space max_amount : Z) (o : Order) :
  cap_for_cargo cargo_space o ≫= cap_for_capital_risk max_amount
  = cap_for_capital_risk max_amount o ≫= cap_for_cargo cargo_space.
Proof.
  unfold cap_for_cargo, cap_for_capital_risk.
  destruct (Qeq_bool (Market.item_cargo_volume o) 0) eqn:Hv;
    destruct (Qeq_bool (price o) 0) eqn:Hp; simpl.
  - done.
  - destruct (0 <? _); simpl; [by rewrite Hv|done].
  - destruct (0 <? _); simpl; [by rewrite Hp|done].
  - set (qa := Qfloor (inject_Z cargo_space / Market.item_cargo_volume o)).
    set (qb := Qfloor (inject_Z max_amount / price o)).
    destruct (Z.ltb_spec 0 (Z.min (volume_remain o) qa));
      destruct (Z.ltb_spec 0 (Z.min (volume_remain o) qb)); simpl; rewrite ?Hv, ?Hp; simpl.
    + fold qa qb.
      replace (Z.min (Z.min (volume_remain o) qb) qa)
        with (Z.min (Z.min (volume_remain o) qa) qb) by lia.
      by destruct (0 <? _).
    + fold qb. destruct (Z.ltb_spec 0 (Z.min (Z.min (volume_remain o) qa) qb)); [lia|done].
    + fold qa. destruct (Z.ltb_spec 0 (Z.min (Z.min (volume_remain o) qb) qa)); [lia|done].
    + done.
Qed.

Lemma omap_omap {A B C : Type} (f : A -> option B) (g : B -> option C) (l : list A) :
  omap g (omap f l) = omap (fun x => f x ≫= g) l.
Proof.
  induction l as [|x l IH]; simpl; [done|].
  destruct (f x) as [y|]; simpl; [|exact IH].
  destruct (g y); [f_equal|]; exact IH.
Qed.

Lemma omap_pointwise {A B : Type} (f g : A -> option B) (l : list A) :
  (∀ x, f x = g x) → omap f l = omap g l.
Proof.
  intros Hfg. induction l as [|x l IH]; simpl; [done|].
  rewrite <- (Hfg x). destruct (f x); [f_equal|]; exact IH.
Qed.

(** X4.  The two filters commute: capping for capital after capping for
    cargo leaves the same orders as capping for cargo after capping for
    capital. *)
Theorem filters_commute (orders : list Order) (cargo_space max_amount : Z) :
  filter_orders_for_capital_risk (filter_orders_for_cargo orders cargo_space) max_amount
  = filter_orders_for_cargo (filter_orders_for_capital_risk orders max_amount) cargo_space.
Proof.
  unfold filter_orders_for_capital_risk, filter_orders_for_cargo.
  rewrite !omap_omap. apply omap_pointwise. intros o. apply cap_commute.
Qed.

(** X5.  Each filter is idempotent: an order that a filter has capped
    passes the same filter again unchanged. *)
Theorem filters_idempotent (orders : list Order) (cargo_space max_amount : Z) :
  filter_orders_for_cargo (filter_orders_for_cargo orders cargo_space) cargo_space
  = filter_orders_for_cargo orders cargo_space
  ∧ filter_orders_for_capital_risk (filter_orders_for_capital_risk orders max_amount)
      max_amount
    = filter_orders_for_capital_risk orders max_amount.
Proof.
  unfold filter_orders_for_capital_risk, filter_orders_for_cargo.
  rewrite !omap_omap. split; apply omap_pointwise; intros o.
  - unfold cap_for_cargo.
    destruct (Qeq_bool (Market.item_cargo_volume o) 0) eqn:Hv; simpl; [done|].
    set (q := Qfloor (inject_Z cargo_space / Market.item_cargo_volume o)).
    destruct (Z.ltb_spec 0 (Z.min (volume_remain o) q)); simpl; [|done].
    rewrite Hv. fold q.
    replace (Z.min (Z.min (volume_remain o) q) q) with (Z.min (volume_remain o) q) by lia.
    by destruct (Z.ltb_spec 0 (Z.min (volume_remain o) q)); [|lia].
  - unfold cap_for_capital_risk.
    destruct (Qeq_bool (price o) 0) eqn:Hp; simpl; [done|].
    set (q := Qfloor (inject_Z max_amount / price o)).
    destruct (Z.ltb_spec 0 (Z.min (volume_remain o) q)); simpl; [|done].
    rewrite Hp. fold q.
    replace (Z.min (Z.min (volume_remain o) q) q) with (Z.min (volume_remain o) q) by lia.
    by destruct (Z.ltb_spec 0 (Z.min (volume_remain o) q)); [|lia].
Qed.

End MatcherPairsResults.

(** ** Trade selection: what is selected *)

Lemma for_each_Raise {S A : Type} (body : S -> A -> result (ctrl S))
  (l : list A) (s : S) (e : exn) :
  for_each body l s = Raise e → ∃ s' x, x ∈ l ∧ body s' x = Raise e.
Proof.
  revert s. induction l as [|x l IH]; intros s; simpl; [done|].
  destruct (body s x) as [[s1|s1]|e'] eqn:Hx.
  - intros H. destruct (IH _ H) as (s' & y & Hy & Hbody).
    exists s', y. split; [by right|done].
  - done.
  - intros [= <-]. exists s, x. split; [by left|done].
Qed.

Section SelectionProvenance.

Import Arbitrage Route.

Lemma index_Some_elem (stations : list Z) (x : Z) (i : nat) :
  index stations x = Some i → stations !! i = Some x.
Proof.
  revert i. induction stations as [|y stations IH]; intros i; simpl; [done|].
  destruct (bool_decide (y = x)) eqn:Hy.
  - apply bool_decide_eq_true in Hy. by intros [= <-]; subst.
  - destruct (index stations x) as [j|]; simpl; [|done].
    intros [= <-]. by apply IH.
Qed.

Lemma on_the_way_stations (stations : list Z) (trade : Trade) :
  on_the_way stations trade = true →
  from_station trade ∈ stations ∧ to_station trade ∈ stations
  ∧ from_station trade ≠ to_station trade.
Proof.
  unfold on_the_way.
  destruct (index stations (from_station trade)) as [i|] eqn:Hi; [|done].
  destruct (index stations (to_station trade)) as [j|] eqn:Hj; [|done].
  intros Hlt%bool_decide_eq_true. split_and!.
  - eapply list_elem_of_lookup_2. by apply index_Some_elem.
  - eapply list_elem_of_lookup_2. by apply index_Some_elem.
  - intros Heq. rewrite Heq, Hj in Hi. injection Hi as ->. lia.
Qed.

Lemma select_body_Raise (ship : Pathfinder.Ship) (s : Selection) (trade : Trade) (e : exn) :
  select_body ship s trade = Raise e →
  e = ZeroDivisionError
  ∧ ((item_cargo_volume trade == 0)%Q ∨ (from_price trade == 0)%Q).
Proof.
  unfold select_body, floordiv.
  destruct (Qeq_bool (item_cargo_volume trade) 0) eqn:Hv; simpl.
  { intros [= <-]. split; [done|]. left. by apply Qeq_bool_iff. }
  destruct (Qeq_bool (from_price trade) 0) eqn:Hp; simpl.
  { intros [= <-]. split; [done|]. right. by apply Qeq_bool_iff. }
  destruct (bool_decide _); [done|]. by destruct (_ || _).
Qed.

Lemma select_body_accepts (ship : Pathfinder.Ship) (s : Selection) (trade : Trade)
  (c : ctrl Selection) :
  select_body ship s trade = Ok c →
  optimized_trades (ctrl_state c) = optimized_trades s
  ∨ ∃ q, 1 ≤ q ≤ quantity trade
         ∧ optimized_trades (ctrl_state c) = optimized_trades s ++ [requantified trade q].
Proof.
  unfold select_body, floordiv.
  destruct (Qeq_bool (item_cargo_volume trade) 0); simpl; [done|].
  destruct (Qeq_bool (from_price trade) 0); simpl; [done|].
  set (max_quantity := Z.min (quantity trade) _).
  assert (max_quantity ≤ quantity trade) as Hq by (unfold max_quantity; lia).
  clearbody max_quantity.
  destruct (bool_decide (max_quantity ≤ 0)) eqn:Hskip.
  { intros [= <-]. by left. }
  apply bool_decide_eq_false in Hskip.
  destruct (_ || _); intros [= <-]; right; exists max_quantity; simpl; split; (lia || done).
Qed.

(** X6.  Every trade that [select_trades] returns is a trade of the input
    whose buying station comes before its selling station in the skeleton,
    with a new quantity between 1 and the quantity of the input trade (and
    the cargo and gross profit of that quantity).  [select_trades] raises
    only [ZeroDivisionError], and only when such a trade has the item
    volume 0 or the buying price 0. *)
Theorem select_trades_requantifies (stations : list Z) (trades : list Trade)
  (ship : Pathfinder.Ship) :
  match select_trades stations trades ship with
  | Ok selected =>
      Forall
        (fun u =>
           ∃ t q, t ∈ trades ∧ on_the_way stations t = true
                  ∧ from_station t ≠ to_station t
                  ∧ 1 ≤ q ≤ quantity t ∧ u = requantified t q)
        selected
  | Raise e =>
      e = ZeroDivisionError
      ∧ ∃ t, t ∈ trades ∧ on_the_way stations t = true
             ∧ ((item_cargo_volume t == 0)%Q ∨ (from_price t == 0)%Q)
  end.
Proof.
  unfold select_trades.
  set (filtered := sort_by _ _).
  assert (∀ t, t ∈ filtered → t ∈ trades ∧ on_the_way stations t = true) as Hsub.
  { intros t Ht. apply elem_of_sort_by, list_elem_of_filter in Ht. tauto. }
  set (s0 := Build_Selection _ _ _ _).
  destruct (for_each (select_body ship) filtered s0) as [s|e] eqn:Hloop; simpl.
  - apply (for_each_invariant (select_body ship)
             (fun s => Forall
                (fun u =>
                   ∃ t q, t ∈ trades ∧ on_the_way stations t = true
                          ∧ from_station t ≠ to_station t
                          ∧ 1 ≤ q ≤ quantity t ∧ u = requantified t q)
                (optimized_trades s)) filtered s0 s); [|constructor|done].
    intros s1 x c Hs1 Hx Hbody. destruct (Hsub x Hx) as [Hin Hway].
    apply select_body_accepts in Hbody as [->|(q & Hq & ->)]; [done|].
    apply Forall_app. split; [done|]. apply Forall_singleton.
    pose proof (on_the_way_stations _ _ Hway) as (_ & _ & Hne).
    exists x, q. split_and!; try done; lia.
  - apply for_each_Raise in Hloop as (s' & x & Hx & Hbody).
    apply select_body_Raise in Hbody as [-> Hzero]. split; [done|].
    destruct (Hsub x Hx). by exists x.
Qed.

End SelectionProvenance.

(** ** The actions of a route *)

Section Actions.

Import Arbitrage Route.

Lemma step_gains_refl (trades : list Trade) (step : RouteStep) : step_gains trades step step.
Proof.
  split; [done|]. split; [done|]. exists []. split; [by rewrite app_nil_r|constructor].
Qed.

Lemma step_gains_trans (trades : list Trade) (a b c : RouteStep) :
  step_gains trades a b → step_gains trades b c → step_gains trades a c.
Proof.
  intros (Hl1 & Hn1 & add1 & Ha1 & Hf1) (Hl2 & Hn2 & add2 & Ha2 & Hf2).
  split; [congruence|]. split; [congruence|].
  exists (add1 ++ add2). split; [by rewrite Ha2, Ha1, app_assoc|].
  apply Forall_app. split; [done|]. by rewrite <- Hl1.
Qed.

Lemma step_gains_with_action (trades : list Trade) (old new : RouteStep) (a : Action) :
  step_gains trades old new →
  (∃ t, t ∈ trades
        ∧ (a = buy_action t ∧ from_station t = location_id old
           ∨ a = sell_action t ∧ to_station t = location_id old)) →
  step_gains trades old (with_action new a).
Proof.
  intros (Hl & Hn & added & Ha & Hf) Hnew. split; [done|]. split; [done|].
  exists (added ++ [a]). simpl. split; [by rewrite Ha, app_assoc|].
  apply Forall_app. split; [done|]. by apply Forall_singleton.
Qed.

Lemma visit_steps_gains (trades : list Trade) (t : Trade) (bought : gset Z) (route : Route) :
  t ∈ trades → Forall2 (step_gains trades) route (visit_steps t bought route).2.
Proof.
  intros Ht. revert bought. induction route as [|step rest IH]; intros bought; simpl.
  - constructor.
  - destruct (bool_decide (from_station t = location_id step)) eqn:Hfrom.
    + apply bool_decide_eq_true in Hfrom.
      set (step1 := with_action step _).
      assert (step_gains trades step step1) as H1.
      { apply step_gains_with_action; [apply step_gains_refl|].
        exists t. split; [done|]. by left. }
      destruct (_ && _) eqn:Hto.
      * apply andb_true_iff in Hto as [Hto _]. apply bool_decide_eq_true in Hto.
        specialize (IH ({[type_id t]} ∪ bought)).
        destruct (visit_steps t ({[type_id t]} ∪ bought) rest) as [b' rest'].
        simpl in *. constructor; [|done].
        apply step_gains_with_action; [done|]. exists t. split; [done|]. by right.
      * specialize (IH ({[type_id t]} ∪ bought)).
        destruct (visit_steps t ({[type_id t]} ∪ bought) rest) as [b' rest'].
        simpl in *. by constructor.
    + destruct (_ && _) eqn:Hto.
      * apply andb_true_iff in Hto as [Hto _]. apply bool_decide_eq_true in Hto.
        specialize (IH bought). destruct (visit_steps t bought rest) as [b' rest'].
        simpl in *. constructor; [|done].
        apply step_gains_with_action; [apply step_gains_refl|].
        exists t. split; [done|]. by right.
      * specialize (IH bought). destruct (visit_steps t bought rest) as [b' rest'].
        simpl in *. constructor; [apply step_gains_refl|done].
Qed.

Lemma visit_all_gains (trades l : list Trade) (bought : gset Z) (route : Route) :
  (∀ t, t ∈ l → t ∈ trades) →
  Forall2 (step_gains trades) route
    (fold_left (fun '(bought_items, route) trade => visit_steps trade bought_items route)
       l (bought, route)).2.
Proof.
  revert bought route. induction l as [|t l IH]; intros bought route Hl; simpl.
  - apply Forall2_same_length_lookup. split; [done|].
    intros i x y Hx Hy. rewrite Hx in Hy. injection Hy as <-. apply step_gains_refl.
  - pose proof (visit_steps_gains trades t bought route (Hl t (list_elem_of_here _ _))) as H1.
    destruct (visit_steps t bought route) as [b1 r1]. simpl in H1.
    assert (∀ u, u ∈ l → u ∈ trades) as Hl' by (intros u Hu; apply Hl; by right).
    specialize (IH b1 r1 Hl').
    eapply Forall2_trans; [|exact H1|exact IH].
    intros a b c. apply step_gains_trans.
Qed.

Lemma action_le_total (a b : Action) : action_le a b = false → action_le b a = true.
Proof.
  unfold action_le.
  rewrite (String.compare_antisym (action_type b) (action_type a)).
  destruct (String.compare (action_type a) (action_type b)); simpl; try done.
  rewrite (String.compare_antisym (item b) (item a)).
  destruct (String.compare (item a) (item b)); simpl; try done.
  intros Hle. apply Qle_bool_iff.
  destruct (Qlt_le_dec (price a) (price b)) as [Hlt|Hge]; [|done].
  apply Qlt_le_weak, Qle_bool_iff in Hlt. congruence.
Qed.

(** X7.  [set_actions] keeps the steps of the route, their location ids and
    names, and changes only the actions: the actions of a step of the
    result are the actions it had and, added to them, buy actions of trades
    that start at the step and sell actions of trades that end there, all
    sorted by (action_type, item, price). *)
Theorem set_actions_adds_sorted_actions (route : Route) (trades : list Trade) :
  Forall2
    (fun old new =>
       location_id new = location_id old
       ∧ station_name new = station_name old
       ∧ Sorted (fun a b => action_le a b = true) (actions new)
       ∧ ∃ added,
           actions new ≡ₚ actions old ++ added
           ∧ Forall
               (fun a =>
                  ∃ t, t ∈ trades
                       ∧ (a = buy_action t ∧ from_station t = location_id old
                          ∨ a = sell_action t ∧ to_station t = location_id old))
               added)
    route (set_actions route trades).
Proof.
  unfold set_actions.
  pose proof (visit_all_gains trades trades ∅ route (fun t Ht => Ht)) as Hgains.
  destruct (fold_left _ trades (∅, route)) as [b r]. simpl in Hgains.
  apply Forall2_fmap_r. eapply Forall2_impl; [exact Hgains|].
  intros old new (Hl & Hn & added & Ha & Hf). simpl.
  split_and!; [done|done| |].
  - apply sort_by_sorted. apply action_le_total.
  - exists added. split; [|done]. by rewrite sort_by_perm, Ha.
Qed.

End Actions.

Section SellAfterBuy.

Import Arbitrage Route.

Lemma has_buy_cons (step : RouteStep) (route : Route) (T : Z) :
  has_buy (step :: route) T ↔ has_buy [step] T ∨ has_buy route T.
Proof.
  unfold has_buy. split.
  - intros (s & a & [->|Hs]%elem_of_cons & Ha).
    + left. exists step, a. split; [by left|done].
    + right. by exists s, a.
  - intros [(s & a & Hs%list_elem_of_singleton & Ha)|(s & a & Hs & Ha)].
    + subst s. exists step, a. split; [by left|done].
    + exists s, a. split; [by right|done].
Qed.

Lemma has_buy_with_action (step : RouteStep) (a : Action) (T : Z) :
  has_buy [step] T → has_buy [with_action step a] T.
Proof.
  intros (s & b & Hs%list_elem_of_singleton & Hb & Hbuy). subst s.
  exists (with_action step a), b. split; [by left|]. split; [|done].
  simpl. apply elem_of_app. by left.
Qed.

Lemma has_buy_buy_action (step : RouteStep) (t : Trade) :
  has_buy [with_action step (buy_action t)] (type_id t).
Proof.
  exists (with_action step (buy_action t)), (buy_action t).
  split; [by left|]. split; [|done]. simpl. apply elem_of_app. right. by left.
Qed.

Lemma visit_steps_cons (t : Trade) (bought : gset Z) (step : RouteStep) (rest : Route) :
  visit_steps t bought (step :: rest)
  = let b1 := if bool_decide (from_station t = location_id step)
              then {[type_id t]} ∪ bought else bought in
    let step0 := if bool_decide (from_station t = location_id step)
                 then with_action step (buy_action t) else step in
    let step1 := if bool_decide (to_station t = location_id step0)
                    && bool_decide (type_id t ∈ b1)
                 then with_action step0 (sell_action t) else step0 in
    ((visit_steps t b1 rest).1, step1 :: (visit_steps t b1 rest).2).
Proof.
  simpl. destruct (bool_decide (from_station t = location_id step)); simpl.
  - by destruct (visit_steps t ({[type_id t]} ∪ bought) rest).
  - by destruct (visit_steps t bought rest).
Qed.

Lemma visit_steps_covered (t : Trade) (known : Z -> Prop) (bought : gset Z) (route : Route) :
  (∀ T, T ∈ bought → known T ∨ has_buy route T) →
  sells_covered known route →
  (∀ T, T ∈ (visit_steps t bought route).1 →
        known T ∨ has_buy (visit_steps t bought route).2 T)
  ∧ sells_covered known (visit_steps t bought route).2
  ∧ (∀ T, has_buy route T → has_buy (visit_steps t bought route).2 T).
Proof.
  revert known bought. induction route as [|step rest IH]; intros known bought Hb Hs.
  - simpl. split_and!; [done|done|done].
  - rewrite visit_steps_cons. cbv zeta.
    set (b1 := if bool_decide (from_station t = location_id step)
               then {[type_id t]} ∪ bought else bought).
    set (step0 := if bool_decide (from_station t = location_id step)
                  then with_action step (buy_action t) else step).
    set (step1 := if _ && _ then _ else step0).
    assert (∀ T, has_buy [step] T → has_buy [step0] T) as Hkeep0.
    { intros T HT. unfold step0. destruct (bool_decide _); [|done].
      by apply has_buy_with_action. }
    assert (∀ T, has_buy [step0] T → has_buy [step1] T) as Hkeep1.
    { intros T HT. unfold step1. destruct (_ && _); [|done]. by apply has_buy_with_action. }
    assert (∀ T, T ∈ b1 → T ∈ bought ∨ has_buy [step0] T) as Hb1.
    { intros T HT. unfold b1 in HT. unfold step0.
      destruct (bool_decide _); [|by left].
      apply elem_of_union in HT as [ ->%elem_of_singleton|HT]; [|by left].
      right. apply has_buy_buy_action. }
    set (known' := fun T => known T ∨ has_buy [step1] T).
    assert (∀ T, T ∈ b1 → known' T ∨ has_buy rest T) as Hb'.
    { intros T HT. destruct (Hb1 T HT) as [HT'|HT'].
      - destruct (Hb T HT') as [?|[?|?]%has_buy_cons]; [by left; left| |by right].
        left. right. by apply Hkeep1, Hkeep0.
      - left. right. by apply Hkeep1. }
    assert (sells_covered known' rest) as Hs'.
    { intros s a Hin Ha Hsell.
      destruct (Hs s a) as [?|[?|?]%has_buy_cons]; [by right|done|done|by left; left| |by right].
      left. right. by apply Hkeep1, Hkeep0. }
    destruct (IH known' b1 Hb' Hs') as (IH1 & IH2 & IH3).
    simpl. split_and!.
    + intros T HT. destruct (IH1 T HT) as [[?|?]|?]; [by left| |].
      * right. apply has_buy_cons. by left.
      * right. apply has_buy_cons. by right.
    + intros s a [->|Hin]%elem_of_cons Ha Hsell.
      * assert (a ∈ actions step ∨ (a = sell_action t ∧ type_id t ∈ b1)) as [Hold|[-> Hnew]].
        { unfold step1 in Ha. destruct (_ && _) eqn:Hto.
          - apply andb_true_iff in Hto as [_ Hin%bool_decide_eq_true].
            simpl in Ha. apply elem_of_app in Ha as [Ha| ->%list_elem_of_singleton];
              [|by right].
            left. unfold step0 in Ha. destruct (bool_decide _); [|done].
            simpl in Ha. apply elem_of_app in Ha as [Ha| ->%list_elem_of_singleton];
              [done|done].
          - left. unfold step0 in Ha. destruct (bool_decide _); [|done].
            simpl in Ha. apply elem_of_app in Ha as [Ha| ->%list_elem_of_singleton];
              [done|done]. }
        -- destruct (Hs step a) as [?|[?|?]%has_buy_cons]; [by left|done|done|by left| |].
           ++ right. apply has_buy_cons. left. by apply Hkeep1, Hkeep0.
           ++ right. apply has_buy_cons. right. by apply IH3.
        -- simpl. destruct (Hb' _ Hnew) as [[?|?]|?]; [by left| |].
           ++ right. apply has_buy_cons. by left.
           ++ right. apply has_buy_cons. right. by apply IH3.
      * destruct (IH2 s a Hin Ha Hsell) as [[?|?]|?]; [by left| |].
        -- right. apply has_buy_cons. by left.
        -- right. apply has_buy_cons. by right.
    + intros T [?|?]%has_buy_cons; apply has_buy_cons.
      * left. by apply Hkeep1, Hkeep0.
      * right. by apply IH3.
Qed.

(** X8.  On a route whose steps have no actions yet (as the formatted
    route has them), [set_actions] adds no sell action without a buy
    action: for every sell action of the result some step of the result has
    a buy action for the same item type. *)
Theorem set_actions_sells_what_was_bought (route : Route) (trades : list Trade) :
  Forall (fun step => actions step = []) route →
  ∀ step a,
    step ∈ set_actions route trades → a ∈ actions step → action_type a = "sell"%string →
    has_buy (set_actions route trades) (action_type_id a).
Proof.
  intros Hempty. unfold set_actions.
  assert (∀ l bought r,
    (∀ T, T ∈ bought → False ∨ has_buy r T) → sells_covered (fun _ => False) r →
    sells_covered (fun _ => False)
      (fold_left (fun '(bought_items, route) trade => visit_steps trade bought_items route)
         l (bought, r)).2) as Hfold.
  { induction l as [|t l IH]; intros bought r Hb Hs; simpl; [done|].
    destruct (visit_steps_covered t (fun _ => False) bought r Hb Hs) as (H1 & H2 & _).
    destruct (visit_steps t bought r) as [b1 r1]. by apply IH. }
  specialize (Hfold trades ∅ route).
  destruct (fold_left _ trades (∅, route)) as [b r]. simpl in Hfold.
  assert (sells_covered (fun _ => False) r) as Hr.
  { apply Hfold.
    - intros T HT. by apply not_elem_of_empty in HT.
    - intros s a Hs Ha. rewrite Forall_forall in Hempty. rewrite (Hempty s Hs) in Ha.
      by apply elem_of_nil in Ha. }
  intros step a Hstep Ha Hsell.
  apply list_elem_of_fmap in Hstep as (s & -> & Hs). simpl in Ha.
  apply elem_of_sort_by in Ha.
  destruct (Hr s a Hs Ha Hsell) as [[]|(s' & a' & Hs' & Ha' & Hbuy)].
  exists {| location_id := location_id s';
            station_name := station_name s';
            actions := sort_by action_le (actions s') |}, a'.
  split; [|split; [|done]].
  - apply list_elem_of_fmap. by exists s'.
  - simpl. by apply elem_of_sort_by.
Qed.

Lemma set_actions_sells_what_was_bought_witness :
  Forall (fun step => actions step = []) example_route
  ∧ ∀ step a,
      step ∈ set_actions example_route [example_trade] → a ∈ actions step →
      action_type a = "sell"%string →
      has_buy (set_actions example_route [example_trade]) (action_type_id a).
Proof.
  assert (Forall (fun step => actions step = []) example_route) as H.
  { repeat first [apply List.Forall_nil | apply List.Forall_cons]; reflexivity. }
  split; [exact H|].
  exact (set_actions_sells_what_was_bought example_route [example_trade] H).
Defined.

(** On the example the buy is put at station 10 and the sell at station
    20. *)
Example set_actions_example :
  map actions (set_actions example_route [example_trade])
  = [[buy_action example_trade]; [sell_action example_trade]].
Proof. reflexivity. Qed.

End SellAfterBuy.

(** ** The figures of the returned route *)

Section RouteFigures.

Import Arbitrage Route.

Lemma evaluate_Some (trades : list Trade) (graph : Graph) (ship : Pathfinder.Ship)
  (trade : Trade) (e : Evaluation) :
  evaluate trades graph ship trade = Ok (Some e) →
  select_trades [Pathfinder.location ship; from_station trade; to_station trade] trades ship
  = Ok (eval_trades e)
  ∧ eval_trades e ≠ []
  ∧ find_path graph (Pathfinder.location ship) (from_station trade) (to_station trade)
    = Some (eval_path e)
  ∧ sum_over_path graph fst (eval_path e) = Ok (risk (eval_info e))
  ∧ sum_over_path graph snd (eval_path e) = Ok (transport_time (eval_info e))
  ∧ info_gross_profit (eval_info e) = sum_Q (map gross_profit (eval_trades e))
  ∧ (0 < info_gross_profit (eval_info e))%Q
  ∧ capital (eval_info e)
    = (default 0 (Pathfinder.ship_cost ship)
       + sum_Q (map (fun t => from_price t * inject_Z (quantity t)) (eval_trades e)))%Q
  ∧ ¬ (transport_time (eval_info e) == 0)%Q
  ∧ info_net_profit (eval_info e)
    = (info_gross_profit (eval_info e) - risk (eval_info e) * capital (eval_info e))%Q
  ∧ profit_rate (eval_info e)
    = (info_net_profit (eval_info e) / transport_time (eval_info e))%Q.
Proof.
  unfold evaluate.
  destruct (select_trades _ trades ship) as [selected|] eqn:Hsel; [|done]. simpl.
  destruct (bool_decide (selected = [])) eqn:Hnil; [done|]. simpl.
  apply bool_decide_eq_false in Hnil.
  destruct (Qle_bool (sum_Q (map gross_profit selected)) 0) eqn:Hgross; [done|].
  destruct (find_path _ _ _ _) as [path|] eqn:Hpath; [|done].
  destruct (sum_over_path graph fst path) as [r|] eqn:Hr; [|done]. simpl.
  destruct (sum_over_path graph snd path) as [tt|] eqn:Ht; [|done]. simpl.
  destruct (Qeq_bool tt 0) eqn:Hzero; [done|].
  intros [= <-]. simpl. split_and!; try done.
  - destruct (Qlt_le_dec 0 (sum_Q (map gross_profit selected))) as [|Hle]; [done|].
    apply Qle_bool_iff in Hle. congruence.
  - by apply Qeq_bool_false.
Qed.

Lemma evaluate_Raise (trades : list Trade) (graph : Graph) (ship : Pathfinder.Ship)
  (trade : Trade) (e : exn) :
  evaluate trades graph ship trade = Raise e → e = ZeroDivisionError ∨ e = KeyError.
Proof.
  unfold evaluate.
  destruct (select_trades _ trades ship) as [selected|e'] eqn:Hsel; simpl.
  - destruct (_ || _); [done|].
    destruct (find_path _ _ _ _) as [path|]; [|done].
    assert (∀ attribute e', sum_over_path graph attribute path = Raise e' → e' = KeyError)
      as Hsum.
    { intros attribute e' H. apply for_each_Raise in H as (s & [u v] & _ & H).
      destruct (edge graph u v); [done|]. by injection H as <-. }
    destruct (sum_over_path graph fst path) as [r|e1] eqn:Hr; simpl.
    + destruct (sum_over_path graph snd path) as [tt|e2] eqn:Ht; simpl.
      * by destruct (Qeq_bool tt 0).
      * intros [= <-]. right. by eapply Hsum.
    + intros [= <-]. right. by eapply Hsum.
  - intros [= <-]. left. unfold select_trades in Hsel.
    destruct (for_each _ _ _) as [s|e1] eqn:Hloop; [done|]. simpl in Hsel.
    injection Hsel as <-. apply for_each_Raise in Hloop as (s & x & _ & Hbody).
    unfold select_body, floordiv in Hbody.
    destruct (Qeq_bool (item_cargo_volume x) 0); simpl in Hbody; [by injection Hbody|].
    destruct (Qeq_bool (from_price x) 0); simpl in Hbody; [by injection Hbody|].
    destruct (bool_decide _); [done|]. by destruct (_ || _).
Qed.

Lemma evaluate_each_elem {A B : Type} (f : A -> result (option B)) (l : list A)
  (results : list B) (b : B) :
  evaluate_each f l = Ok results → b ∈ results → ∃ x, x ∈ l ∧ f x = Ok (Some b).
Proof.
  revert results. induction l as [|x l IH]; intros results; simpl.
  - intros [= <-] Hb. by apply elem_of_nil in Hb.
  - destruct (f x) as [r|] eqn:Hx; [|done]. simpl.
    destruct (evaluate_each f l) as [rest|]; [|done]. simpl.
    intros [= <-] Hb.
    assert (b ∈ rest → ∃ y, y ∈ x :: l ∧ f y = Ok (Some b)) as Hrest.
    { intros Hin. destruct (IH rest eq_refl Hin) as (y & Hy & Hfy).
      exists y. split; [by right|done]. }
    destruct r as [b'|]; [|by apply Hrest].
    apply elem_of_cons in Hb as [->|Hb]; [|by apply Hrest].
    exists x. split; [by left|done].
Qed.

Lemma evaluate_each_Raise {A B : Type} (f : A -> result (option B)) (l : list A) (e : exn) :
  evaluate_each f l = Raise e → ∃ x, x ∈ l ∧ f x = Raise e.
Proof.
  induction l as [|x l IH]; simpl; [done|].
  destruct (f x) as [r|e'] eqn:Hx; simpl.
  - destruct (evaluate_each f l) as [rest|e']; simpl; [done|].
    intros [= <-]. destruct (IH eq_refl) as (y & Hy & Hfy).
    exists y. split; [by right|done].
  - intros [= <-]. exists x. split; [by left|done].
Qed.

Lemma unseen_elem (ship : Pathfinder.Ship) (seen : gset (Z * Z * Z)) (l : list Trade)
  (t : Trade) :
  t ∈ unseen ship seen l → t ∈ l.
Proof.
  revert seen. induction l as [|x l IH]; intros seen; simpl; [done|].
  destruct (bool_decide _).
  - intros H. right. by eapply IH.
  - intros [->|H]%elem_of_cons; [by left|]. right. by eapply IH.
Qed.

(** X10.  [find_path] gives a path exactly when both legs have one.  When
    the first leg ends at the station where the second starts, the path is
    the first leg followed by the second without its first station: the
    station where the legs meet is there once. *)
Theorem find_path_joins_legs (graph : Graph) (a b c : Z) :
  match find_path graph a b c with
  | Some path =>
      ∃ first_leg second_leg,
        shortest_path graph a b = Some first_leg
        ∧ shortest_path graph b c = Some second_leg
        ∧ path = removelast first_leg ++ second_leg
        ∧ (last first_leg = Some b → head second_leg = Some b →
           path = first_leg ++ tail second_leg)
  | None => shortest_path graph a b = None ∨ shortest_path graph b c = None
  end.
Proof.
  unfold find_path.
  destruct (shortest_path graph a b) as [p1|]; simpl; [|by left].
  destruct (shortest_path graph b c) as [p2|]; simpl; [|by right].
  exists p1, p2. split_and!; try done.
  intros Hlast Hhead. apply last_Some in Hlast as [l ->].
  destruct p2 as [|x p2]; [done|]. injection Hhead as ->.
  rewrite removelast_last. simpl. by rewrite <- app_assoc.
Qed.

End RouteFigures.

(** ** The pool of trades for the route *)

Section Pool.

Import Arbitrage Pathfinder.

Lemma in_one_region_true (graph : NavigationGraph) (t : Trade) :
  in_one_region graph t = Ok true ↔ same_region graph t.
Proof.
  unfold in_one_region, same_region. split.
  - destruct (stations graph !! from_station t) as [f|]; [|done].
    destruct (stations graph !! to_station t) as [d|]; [|done].
    destruct (solar_systems graph !! _) as [sf|] eqn:Hsf; [|done].
    destruct (solar_systems graph !! Graph.solar_system_id d) as [sd|] eqn:Hsd; [|done].
    intros [= Hreg%bool_decide_eq_true]. by exists f, d, sf, sd.
  - intros (f & d & sf & sd & -> & -> & -> & -> & Hreg).
    by rewrite bool_decide_eq_true_2.
Qed.

Lemma in_one_region_Raise (graph : NavigationGraph) (t : Trade) (e : exn) :
  in_one_region graph t = Raise e ↔ e = KeyError ∧ system_missing graph t.
Proof.
  unfold in_one_region, system_missing. split.
  - destruct (stations graph !! from_station t) as [f|]; [|done].
    destruct (stations graph !! to_station t) as [d|]; [|done].
    destruct (solar_systems graph !! _) as [sf|] eqn:Hsf.
    + destruct (solar_systems graph !! Graph.solar_system_id d) as [sd|] eqn:Hsd; [done|].
      intros [= <-]. split; [done|]. exists f, d. split_and!; [done..|by right].
    + intros [= <-]. split; [done|]. exists f, d. split_and!; [done..|by left].
  - intros [-> (f & d & -> & -> & [Hf|Hd])].
    + by rewrite Hf.
    + destruct (solar_systems graph !! Graph.solar_system_id f) as [sf|] eqn:Hf; [|done].
      by rewrite Hd.
Qed.

Lemma same_region_filter (order_matches : list Trade) (graph : NavigationGraph) :
  match filter_order_matches_same_region order_matches graph with
  | Ok out =>
      out `sublist_of` order_matches
      ∧ (∀ t, t ∈ out → same_region graph t)
      ∧ (∀ t, t ∈ order_matches → same_region graph t → t ∈ out)
      ∧ (∀ t, t ∈ order_matches → ¬ system_missing graph t)
  | Raise e => e = KeyError ∧ ∃ t, t ∈ order_matches ∧ system_missing graph t
  end.
Proof.
  induction order_matches as [|x l IH]; simpl.
  - split_and!; [done|..]; intros t Ht; by apply elem_of_nil in Ht.
  - destruct (in_one_region graph x) as [keep|e] eqn:Hx; simpl.
    + assert (¬ system_missing graph x) as Hnot.
      { intros Hm. assert (in_one_region graph x = Raise KeyError) as Hr
          by (by apply in_one_region_Raise). congruence. }
      destruct (filter_order_matches_same_region l graph) as [out|e]; simpl.
      * destruct IH as (Hsub & Hall & Hcomplete & Hnone).
        assert (∀ t, t ∈ x :: l → ¬ system_missing graph t) as Hnone'.
        { intros t [->|Ht]%elem_of_cons; [done|by apply Hnone]. }
        destruct keep.
        -- apply in_one_region_true in Hx. split_and!; [by apply sublist_skip| | |done].
           ++ intros t [->|Ht]%elem_of_cons; [done|by apply Hall].
           ++ intros t [->|Ht]%elem_of_cons Hs; [by left|]. right. by apply Hcomplete.
        -- split_and!; [by apply sublist_cons|done| |done].
           intros t [->|Ht]%elem_of_cons Hs; [|by apply Hcomplete].
           apply in_one_region_true in Hs. congruence.
      * destruct IH as (-> & t & Ht & Hm). split; [done|].
        exists t. split; [by right|done].
    + apply in_one_region_Raise in Hx as [-> Hm]. split; [done|].
      exists x. split; [by left|done].
Qed.

Lemma worth_hauling_profitable (graph : NavigationGraph) (ship : Ship) (t : Trade) :
  from_station t ∈ nodes graph → to_station t ∈ nodes graph → same_region graph t →
  (is_profitable (set_net_profit (paths graph) ship t) = true ↔ worth_hauling graph ship t).
Proof.
  intros Hf Ht Hreg. unfold worth_hauling, set_net_profit. split.
  - intros Hp. apply is_profitable_net_profit in Hp as (net & Hnet & Hpos).
    destruct (Graph.shortest_path_length (paths graph) (location ship) (from_station t))
      as [d1|]; [|done].
    destruct (Graph.shortest_path_length (paths graph) (from_station t) (to_station t))
      as [d2|]; [|done].
    simpl in Hnet. injection Hnet as <-.
    split_and!; [done..|]. by exists d1, d2.
  - intros (_ & _ & _ & d1 & d2 & -> & -> & Hpos & _).
    unfold is_profitable. simpl.
    destruct (Qlt_le_dec _ _) as [_|Hle]; [|by apply Qlt_not_le in Hpos].
    rewrite andb_true_r. apply negb_true_iff.
    destruct (Qeq_bool _ 0) eqn:E; [|done].
    apply Qeq_bool_iff in E. rewrite E in Hpos. by apply Qlt_irrefl in Hpos.
Qed.

(** X11.  [pathfinder] returns, in the order of the input, the trades that
    are worth hauling (both stations are nodes of the graph, in solar
    systems of one region, both distances are known and net_profit =
    gross_profit - (distance to the source + distance from source to
    destination) is positive), each with that net profit set and all other
    fields as they were; trades that are not worth hauling are left out.
    It raises, and then [KeyError], exactly when a trade with both stations
    among the nodes and in the station table has a station whose solar
    system is not in the table of solar systems. *)
Theorem pathfinder_pool (order_matches : list Trade) (graph : NavigationGraph) (ship : Ship) :
  match pathfinder order_matches graph ship with
  | Ok pool =>
      (∃ kept, kept `sublist_of` order_matches
               ∧ pool = map (set_net_profit (paths graph) ship) kept
               ∧ Forall (worth_hauling graph ship) kept
               ∧ ∀ t, t ∈ order_matches → worth_hauling graph ship t → t ∈ kept)
      ∧ ∀ t, t ∈ order_matches →
             from_station t ∈ nodes graph → to_station t ∈ nodes graph →
             ¬ system_missing graph t
  | Raise e =>
      e = KeyError
      ∧ ∃ t, t ∈ order_matches
             ∧ from_station t ∈ nodes graph ∧ to_station t ∈ nodes graph
             ∧ system_missing graph t
  end.
Proof.
  unfold pathfinder.
  pose proof (same_region_filter
                (filter_order_matches_not_in_graph order_matches graph) graph) as Hregion.
  destruct (filter_order_matches_same_region _ graph) as [regional|e]; simpl.
  - destruct Hregion as (Hsub & Hall & Hcomplete & Hnone).
    assert (∀ t, t ∈ regional →
              from_station t ∈ nodes graph ∧ to_station t ∈ nodes graph
              ∧ same_region graph t ∧ t ∈ order_matches) as Hreg.
    { intros t Ht. pose proof (elem_of_sublist _ _ _ Ht Hsub) as Hin.
      apply list_elem_of_filter in Hin as [[? ?] ?]. split_and!; [done|done| |done].
      by apply Hall. }
    split.
    + exists (filter (fun t => is_profitable (set_net_profit (paths graph) ship t) = true)
                regional).
      split_and!.
      * etrans; [apply sublist_filter|]. etrans; [exact Hsub|]. apply sublist_filter.
      * unfold filter_order_matches_low_profit, calculate_net_profit.
        clear. induction regional as [|x l IH]; [done|].
        cbn [map]. rewrite !filter_cons. destruct (decide _); [|done].
        cbn [map]. by f_equal.
      * apply Forall_forall. intros t [Hp Ht]%list_elem_of_filter.
        destruct (Hreg t Ht) as (? & ? & ? & _). by apply worth_hauling_profitable.
      * intros t Ht Hw. pose proof Hw as (Hf & Hd & Hr & _).
        apply list_elem_of_filter. split; [by apply worth_hauling_profitable|].
        apply Hcomplete; [|done]. apply list_elem_of_filter. by split.
    + intros t Ht Hf Hd. apply Hnone. apply list_elem_of_filter. by split.
  - destruct Hregion as (-> & t & [[? ?] ?]%list_elem_of_filter & Hm). split; [done|].
    by exists t.
Qed.

End Pool.

(** ** The edges of the graph *)

Section Edges.

Import Graph.

Lemma stations_by_system_lookup (stations : gmap Z Station) (system : Z) :
  stations_by_system stations !! system
  = match system_group (map_to_list stations) system with
    | [] => None
    | group => Some group
    end.
Proof.
  unfold stations_by_system. generalize (map_to_list stations). intros entries.
  induction entries as [|[i d] entries IH] using rev_ind.
  - cbn [fold_left]. by rewrite lookup_empty.
  - rewrite fold_left_app. cbn [fold_left]. unfold system_group in *.
    rewrite filter_app, fmap_app.
    destruct (decide (solar_system_id d = system)) as [Heq|Hne].
    + rewrite Heq, lookup_insert_eq, IH. rewrite filter_cons_True by done.
      cbn [filter fmap list_fmap]. rewrite filter_nil. simpl.
      destruct ((filter _ entries).*1) as [|x l]; simpl; [done|].
      by destruct (l ++ [i]).
    + rewrite lookup_insert_ne, IH by done. rewrite filter_cons_False by done.
      rewrite filter_nil. simpl. by rewrite app_nil_r.
Qed.

Lemma system_group_elem (stations : gmap Z Station) (system u : Z) :
  u ∈ system_group (map_to_list stations) system
  ↔ ∃ data, stations !! u = Some data ∧ solar_system_id data = system.
Proof.
  unfold system_group. rewrite list_elem_of_fmap. split.
  - intros ([i d] & -> & [Hsys Hin]%list_elem_of_filter).
    exists d. split; [by apply elem_of_map_to_list|done].
  - intros (d & Hd & Hsys). exists (u, d). split; [done|].
    apply list_elem_of_filter. split; [done|]. by apply elem_of_map_to_list.
Qed.

Lemma system_group_NoDup (stations : gmap Z Station) (system : Z) :
  NoDup (system_group (map_to_list stations) system).
Proof.
  unfold system_group. pose proof (NoDup_fst_map_to_list stations) as Hnd.
  revert Hnd. generalize (map_to_list stations). intros entries.
  induction entries as [|e entries IH]; intros Hnd; [constructor|].
  apply NoDup_cons in Hnd as [Hnot Hnd]. specialize (IH Hnd).
  rewrite filter_cons. destruct (decide _); [|done].
  cbn [fmap list_fmap]. apply NoDup_cons. split; [|done].
  intros Hin. apply Hnot. apply list_elem_of_fmap in Hin as (e' & -> & Hin).
  apply list_elem_of_filter in Hin as [_ Hin]. apply list_elem_of_fmap. by exists e'.
Qed.

Lemma pairs_of_either (l : list Z) (u v : Z) :
  NoDup l →
  ((u, v) ∈ pairs_of l ∨ (v, u) ∈ pairs_of l) ↔ u ∈ l ∧ v ∈ l ∧ u ≠ v.
Proof.
  induction l as [|x l IH]; intros Hnd; simpl.
  - split; [intros [H|H]; by apply elem_of_nil in H|].
    intros (H & _). by apply elem_of_nil in H.
  - apply NoDup_cons in Hnd as [Hx Hnd]. specialize (IH Hnd).
    assert (∀ a b, (a, b) ∈ map (pair x) l ↔ a = x ∧ b ∈ l) as Hmap.
    { intros a b. rewrite list_elem_of_In, in_map_iff. split.
      - intros (y & [= <- <-] & Hy). split; [done|]. by apply list_elem_of_In.
      - intros [-> Hb]. exists b. split; [done|]. by apply list_elem_of_In. }
    rewrite !elem_of_app, !Hmap, !elem_of_cons. split.
    + intros [[[-> Hv]|H]|[[-> Hu]|H]].
      * split_and!; [by left|by right|]. intros ->. done.
      * destruct (proj1 IH (or_introl H)) as (? & ? & ?). split_and!; [by right|by right|done].
      * split_and!; [by right|by left|]. intros ->. done.
      * destruct (proj1 IH (or_intror H)) as (? & ? & ?). split_and!; [by right|by right|done].
    + intros ([->|Hu] & [->|Hv] & Hne).
      * done.
      * left. left. done.
      * right. left. done.
      * destruct (proj2 IH) as [H|H]; [done| |].
        -- left. by right.
        -- right. by right.
Qed.

(** X12.  Two nodes are joined by an edge of the graph exactly when both
    are in the station table and either they are two different nodes of one
    solar system or the stargate connections list them as a pair, in one
    direction or the other. *)
Theorem is_edge_iff (stations : gmap Z Station) (connections : list (Z * Z)) (u v : Z) :
  is_edge stations connections u v
  ↔ ∃ from_data to_data,
      stations !! u = Some from_data ∧ stations !! v = Some to_data
      ∧ ((u ≠ v ∧ solar_system_id from_data = solar_system_id to_data)
         ∨ (u, v) ∈ connections ∨ (v, u) ∈ connections).
Proof.
  assert (∀ a b, (a, b) ∈ flat_map (fun '(_, system_stations) => pairs_of system_stations)
                       (map_to_list (stations_by_system stations))
            ↔ ∃ system, (a, b) ∈ pairs_of (system_group (map_to_list stations) system))
    as Hintra.
  { intros a b. rewrite list_elem_of_In, in_flat_map. split.
    - intros ([k l] & Hkl & Hab). apply list_elem_of_In, elem_of_map_to_list in Hkl.
      rewrite stations_by_system_lookup in Hkl. exists k. apply list_elem_of_In.
      destruct (system_group _ k); [done|]. by injection Hkl as <-.
    - intros (k & Hab). exists (k, system_group (map_to_list stations) k).
      split; [|by apply list_elem_of_In].
      apply list_elem_of_In, elem_of_map_to_list. rewrite stations_by_system_lookup.
      destruct (system_group _ k); [by apply elem_of_nil in Hab|done]. }
  assert (∀ a b, (a, b) ∈ added_edges stations connections
            ↔ (∃ system, (a, b) ∈ pairs_of (system_group (map_to_list stations) system))
              ∨ (is_Some (stations !! a) ∧ is_Some (stations !! b) ∧ (a, b) ∈ connections))
    as Hadded.
  { intros a b. unfold added_edges. rewrite elem_of_app, Hintra, list_elem_of_filter.
    tauto. }
  unfold is_edge. rewrite !Hadded. split.
  - intros H.
    assert ((∃ system, (u, v) ∈ pairs_of (system_group (map_to_list stations) system)
                       ∨ (v, u) ∈ pairs_of (system_group (map_to_list stations) system))
            ∨ (is_Some (stations !! u) ∧ is_Some (stations !! v)
               ∧ ((u, v) ∈ connections ∨ (v, u) ∈ connections)))
      as [(k & Hk)|([su Hu] & [sv Hv] & Hc)].
    { destruct H as [[[k Hk]|(Hu & Hv & Hc)]|[[k Hk]|(Hv & Hu & Hc)]].
      - left. exists k. by left.
      - right. split_and!; [done|done|by left].
      - left. exists k. by right.
      - right. split_and!; [done|done|by right]. }
    + apply pairs_of_either in Hk as (Hu & Hv & Hne); [|apply system_group_NoDup].
      apply system_group_elem in Hu as (su & Hu & Hsu).
      apply system_group_elem in Hv as (sv & Hv & Hsv).
      exists su, sv. split_and!; [done|done|]. left. split; [done|congruence].
    + exists su, sv. split_and!; [done|done|by right].
  - intros (su & sv & Hu & Hv & [[Hne Hsys]|Hc]).
    + assert ((u, v) ∈ pairs_of (system_group (map_to_list stations) (solar_system_id su))
              ∨ (v, u) ∈ pairs_of (system_group (map_to_list stations) (solar_system_id su)))
        as [H|H].
      { apply pairs_of_either; [apply system_group_NoDup|].
        split_and!; [| |done]; apply system_group_elem; by eexists. }
      * left. left. by eexists.
      * right. left. by eexists.
    + destruct Hc as [Hc|Hc]; [left|right]; right; split_and!; by eauto.
Qed.

End Edges.

(** ** Travel time *)

Section WarpTime.

Import Graph.

Local Open Scope R_scope.

Lemma ln_monotone (x y : R) : 0 < x → x <= y → ln x <= ln y.
Proof. intros Hx [Hlt| <-]; [|lra]. left. by apply ln_increasing. Qed.

(** The time of acceleration and deceleration grows with the speed that
    the ship reaches. *)
Lemma speed_time_monotone (v1 v2 w k d : R) :
  0 < w → 0 < k → 0 < d → 0 < v1 → v1 <= v2 →
  ln (v1 / w) / w + ln (v1 / d) / k <= ln (v2 / w) / w + ln (v2 / d) / k.
Proof.
  intros Hw Hk Hd Hv1 Hv.
  assert (∀ c, 0 < c → v1 / c <= v2 / c ∧ 0 < v1 / c) as Hdiv.
  { intros c Hc. split; [|by apply Rdiv_lt_0_compat].
    apply Rmult_le_compat_r; [|done]. left. by apply Rinv_0_lt_compat. }
  assert (∀ a b c, 0 < c → a <= b → a / c <= b / c) as Hquot.
  { intros a b c Hc Hab. apply Rmult_le_compat_r; [|done]. left. by apply Rinv_0_lt_compat. }
  apply Rplus_le_compat; apply Hquot; try done; apply ln_monotone; by apply Hdiv.
Qed.

(** Below [minimum_dist] the speed that the ship reaches stays below its
    warp speed. *)
Lemma short_warp_speed (warp_dist w : R) :
  0 < w → warp_dist < AU_IN_M + w * AU_IN_M / Rmin (w / 3) 2 →
  warp_dist * w * Rmin (w / 3) 2 / (w + Rmin (w / 3) 2) < w * AU_IN_M.
Proof.
  intros Hw Hshort. pose proof (k_decel_pos w Hw) as Hk.
  set (k := Rmin (w / 3) 2) in *.
  replace (w * AU_IN_M)
    with ((AU_IN_M + w * AU_IN_M / k) * (w * k / (w + k))) by (field; lra).
  replace (warp_dist * w * k / (w + k)) with (warp_dist * (w * k / (w + k))) by (field; lra).
  apply Rmult_lt_compat_r; [|done].
  apply Rdiv_lt_0_compat; [|lra]. apply Rmult_lt_0_compat; lra.
Qed.

(** X13.  With positive speeds, the time in warp is returned for every
    positive distance and never gets smaller when the distance grows,
    also from a warp shorter than [minimum_dist] to one that is not. *)
Theorem time_in_warp_monotone (d1 d2 w s : R) :
  0 < w → 0 < s → 0 < d1 → d1 <= d2 →
  ∃ t1 t2,
    calculate_time_in_warp d1 w s = Ok t1
    ∧ calculate_time_in_warp d2 w s = Ok t2
    ∧ t1 <= t2.
Proof.
  intros Hw Hs Hd1 Hd.
  pose proof (k_decel_pos w Hw) as Hk. pose proof (dropout_pos s Hs) as Hdrop.
  pose proof AU_IN_M_large as Hau.
  assert (0 < w * AU_IN_M) as Hms by (apply Rmult_lt_0_compat; lra).
  assert (∀ d, 0 < d → 0 < d * w * Rmin (w / 3) 2 / (w + Rmin (w / 3) 2)) as Hspeed.
  { intros d Hpos. apply Rdiv_lt_0_compat; [|lra]. repeat apply Rmult_lt_0_compat; lra. }
  assert (∀ d, AU_IN_M + w * AU_IN_M / Rmin (w / 3) 2 <= d →
               0 <= (d - (AU_IN_M + w * AU_IN_M / Rmin (w / 3) 2)) / (w * AU_IN_M)) as Hcruise.
  { intros d Hlong. apply Rle_mult_inv_pos; lra. }
  destruct (Rlt_dec d1 (AU_IN_M + w * AU_IN_M / Rmin (w / 3) 2)) as [Hshort1|Hlong1];
    destruct (Rlt_dec d2 (AU_IN_M + w * AU_IN_M / Rmin (w / 3) 2)) as [Hshort2|Hlong2].
  - eexists _, _. split; [by apply time_in_warp_short|].
    split; [apply time_in_warp_short; lra|].
    assert (d1 * w * Rmin (w / 3) 2 / (w + Rmin (w / 3) 2)
            <= d2 * w * Rmin (w / 3) 2 / (w + Rmin (w / 3) 2)) as Hv.
    { apply Rmult_le_compat_r; [left; apply Rinv_0_lt_compat; lra|].
      repeat apply Rmult_le_compat_r; lra. }
    pose proof (speed_time_monotone _ _ w (Rmin (w / 3) 2) (Rmin (s / 2) 100)
                  Hw Hk Hdrop (Hspeed d1 Hd1) Hv) as Hle.
    lra.
  - eexists _, _. split; [by apply time_in_warp_short|].
    split; [apply time_in_warp_long; lra|].
    pose proof (Hcruise d2 ltac:(lra)) as Hc.
    pose proof (speed_time_monotone _ (w * AU_IN_M) w (Rmin (w / 3) 2) (Rmin (s / 2) 100)
                  Hw Hk Hdrop (Hspeed d1 Hd1)
                  (Rlt_le _ _ (short_warp_speed d1 w Hw Hshort1))) as Hle.
    lra.
  - lra.
  - eexists _, _. split; [apply time_in_warp_long; lra|].
    split; [apply time_in_warp_long; lra|].
    assert ((d1 - (AU_IN_M + w * AU_IN_M / Rmin (w / 3) 2)) / (w * AU_IN_M)
            <= (d2 - (AU_IN_M + w * AU_IN_M / Rmin (w / 3) 2)) / (w * AU_IN_M)).
    { apply Rmult_le_compat_r; [left; by apply Rinv_0_lt_compat|lra]. }
    lra.
Qed.

Lemma time_in_warp_monotone_witness :
  ∃ t1 t2,
    calculate_time_in_warp 1 3 200 = Ok t1
    ∧ calculate_time_in_warp 2 3 200 = Ok t2
    ∧ t1 <= t2.
Proof. apply (time_in_warp_monotone 1 2 3 200); lra. Defined.

Lemma warp_distance_sym (p q : R * R * R) : warp_distance p q = warp_distance q p.
Proof.
  destruct p as [[x1 y1] z1], q as [[x2 y2] z2]. unfold warp_distance. f_equal. ring.
Qed.

Lemma warp_distance_zero (p q : R * R * R) : warp_distance p q = 0 ↔ p = q.
Proof.
  destruct p as [[x1 y1] z1], q as [[x2 y2] z2]. unfold warp_distance. split.
  - intros H.
    pose proof (pow2_ge_0 (x1 - x2)) as Hx. pose proof (pow2_ge_0 (y1 - y2)) as Hy.
    pose proof (pow2_ge_0 (z1 - z2)) as Hz.
    apply sqrt_eq_0 in H; [|lra].
    assert (∀ a, a ^ 2 = 0 → a = 0) as Hsquare.
    { intros a Ha. simpl in Ha. rewrite Rmult_1_r in Ha.
      by destruct (Rmult_integral _ _ Ha). }
    assert (x1 - x2 = 0) by (apply Hsquare; lra).
    assert (y1 - y2 = 0) by (apply Hsquare; lra).
    assert (z1 - z2 = 0) by (apply Hsquare; lra).
    repeat f_equal; lra.
  - intros [= -> -> ->].
    replace ((x2 - x2) ^ 2 + (y2 - y2) ^ 2 + (z2 - z2) ^ 2) with 0 by ring.
    apply sqrt_0.
Qed.

Lemma time_in_warp_zero (w s : R) :
  0 < w → 0 < s → calculate_time_in_warp 0 w s = Raise ValueError.
Proof.
  intros Hw Hs. unfold calculate_time_in_warp.
  pose proof (k_decel_pos w Hw) as Hk. pose proof AU_IN_M_large as Hau.
  assert (0 < w * AU_IN_M / Rmin (w / 3) 2) as Hdecel.
  { apply Rdiv_lt_0_compat; [|done]. apply Rmult_lt_0_compat; lra. }
  rewrite (fdiv_Ok _ (Rmin (w / 3) 2)) by lra. simpl.
  destruct (Rlt_dec 0 _) as [_|Hlong]; [|lra].
  rewrite (fdiv_Ok _ (w + Rmin (w / 3) 2)) by lra. simpl.
  rewrite (fdiv_Ok _ w) by lra. simpl.
  unfold log. destruct (Rlt_dec 0 _) as [Hpos|_]; [|done].
  exfalso. revert Hpos. replace (0 * w * Rmin (w / 3) 2 / (w + Rmin (w / 3) 2) / w) with 0
    by (field; lra). lra.
Qed.

(** X14.  For two nodes of one solar system and a ship with positive
    speeds, the travel time is returned exactly when the two positions
    differ: between two nodes at one position the logarithm of zero raises
    [ValueError]. *)
Theorem calculate_time_same_position (stations : gmap Z Station) (u v : Z)
  (from_data to_data : Station) (ship : ShipProfile) :
  stations !! u = Some from_data →
  stations !! v = Some to_data →
  solar_system_id from_data = solar_system_id to_data →
  0 < default 1 (max_warp_speed ship) →
  0 < default 1 (max_subwarp_speed ship) →
  (position from_data = position to_data →
   calculate_time stations u v ship = Raise ValueError)
  ∧ (position from_data ≠ position to_data →
     ∃ t, calculate_time stations u v ship = Ok t).
Proof.
  intros Hu Hv Hsys Hw Hs. unfold calculate_time, station_data. rewrite Hu, Hv. simpl.
  rewrite bool_decide_eq_false_2 by (intros Hne; by apply Hne).
  split.
  - intros Hpos. apply warp_distance_zero in Hpos. rewrite Hpos.
    by rewrite time_in_warp_zero.
  - intros Hpos.
    assert (0 < warp_distance (position from_data) (position to_data)) as Hdist.
    { destruct (Rle_lt_or_eq_dec 0 (warp_distance (position from_data) (position to_data)))
        as [Hlt|Heq]; [|done|].
      - destruct (position from_data) as [[x1 y1] z1], (position to_data) as [[x2 y2] z2].
        apply sqrt_pos.
      - symmetry in Heq. by apply warp_distance_zero in Heq. }
    destruct (time_in_warp_monotone _ _ _ _ Hw Hs Hdist (Rle_refl _)) as (t & _ & -> & _).
    simpl. by eexists.
Qed.

Lemma calculate_time_same_position_witness :
  (position (near_station 0) = position (near_station 1) →
   calculate_time near_stations 1%Z 2%Z example_profile = Raise ValueError)
  ∧ (position (near_station 0) ≠ position (near_station 1) →
     ∃ t, calculate_time near_stations 1%Z 2%Z example_profile = Ok t).
Proof.
  apply (calculate_time_same_position near_stations 1%Z 2%Z (near_station 0) (near_station 1)
           example_profile); [done|done|done|simpl; lra|simpl; lra].
Defined.

(** X15.  The travel time between two nodes is the same in both
    directions, and so is the exception when there is none. *)
Theorem calculate_time_symmetric (stations : gmap Z Station) (u v : Z) (ship : ShipProfile) :
  calculate_time stations u v ship = calculate_time stations v u ship.
Proof.
  unfold calculate_time, station_data.
  destruct (stations !! u) as [from_data|], (stations !! v) as [to_data|]; simpl; try done.
  rewrite (warp_distance_sym (position to_data) (position from_data)).
  destruct (decide (solar_system_id from_data = solar_system_id to_data)) as [Heq|Hne].
  - rewrite !bool_decide_eq_false_2; [done| |]; intros Hne; by apply Hne.
  - by rewrite !bool_decide_eq_true_2.
Qed.

End WarpTime.

(** ** Risk *)

Section Risk.

Import Graph.

Local Open Scope R_scope.

(** X16.  The risk of a node never grows with its security: of two nodes
    of the table, the one with the higher security has at most the risk of
    the other, when [gankers_areas] adds no more to it. *)
Theorem calculate_risk_antitone (stations : gmap Z Station) (gankers : gmap string R)
  (v1 v2 : Z) (data1 data2 : Station) :
  stations !! v1 = Some data1 →
  stations !! v2 = Some data2 →
  security data1 <= security data2 →
  ganker_bonus gankers data2 <= ganker_bonus gankers data1 →
  ∃ r1 r2,
    calculate_risk stations v1 gankers = Ok r1
    ∧ calculate_risk stations v2 gankers = Ok r2
    ∧ r2 <= r1.
Proof.
  intros Hv1 Hv2 Hsec Hbonus. unfold calculate_risk, station_data. rewrite Hv1, Hv2. simpl.
  eexists _, _. split; [done|]. split; [done|].
  unfold ganker_bonus in Hbonus.
  destruct (Rlt_dec (security data1) _), (Rlt_dec (security data1) _),
    (Rlt_dec (security data2) _), (Rlt_dec (security data2) _); lra.
Qed.

Lemma calculate_risk_antitone_witness :
  ∃ r1 r2,
    calculate_risk near_stations 1%Z ∅ = Ok r1
    ∧ calculate_risk near_stations 2%Z ∅ = Ok r2
    ∧ r2 <= r1.
Proof.
  apply (calculate_risk_antitone near_stations ∅ 1%Z 2%Z (near_station 0) (near_station 1));
    [done|done|simpl; lra|unfold ganker_bonus; rewrite !lookup_empty; simpl; lra].
Defined.

End Risk.

(** ** The steps of the formatted route *)

Section Steps.

Import Graph.

Lemma get_location_info_cases (stations : gmap Z Station)
  (solar_systems : gmap Z SolarSystem) (loc : Z) (index : nat) :
  match get_location_info stations solar_systems loc index with
  | Ok (Some info) =>
      id info = index ∧ location_id info = loc ∧ actions info = []
      ∧ (is_Some (stations !! loc) ∨ is_Some (solar_systems !! loc))
      ∧ (∀ data, stations !! loc = Some data → is_Some (region_name data))
  | Ok None => stations !! loc = None ∧ solar_systems !! loc = None
  | Raise e => e = KeyError ∧ ∃ data, stations !! loc = Some data ∧ region_name data = None
  end.
Proof.
  unfold get_location_info. destruct (stations !! loc) as [data|] eqn:Hloc.
  - destruct (region_name data) as [region|] eqn:Hregion.
    + simpl. split_and!; [done|done|done|by left|]. intros ? [= <-]. by rewrite Hregion.
    + split; [done|]. by exists data.
  - destruct (solar_systems !! loc) as [system|] eqn:Hsys; [|done].
    simpl. split_and!; [done|done|done|by right|done].
Qed.

Lemma format_from_steps (stations : gmap Z Station) (solar_systems : gmap Z SolarSystem)
  (index : nat) (combined_path : list Z) :
  match format_from stations solar_systems index combined_path with
  | Ok route =>
      map (fun info => (id info, location_id info)) route
      = known_locations stations solar_systems index combined_path
      ∧ Forall (fun info => actions info = []) route
      ∧ (∀ loc data, loc ∈ combined_path → stations !! loc = Some data →
                     is_Some (region_name data))
  | Raise e =>
      e = KeyError
      ∧ ∃ loc data, loc ∈ combined_path ∧ stations !! loc = Some data
                    ∧ region_name data = None
  end.
Proof.
  revert index. induction combined_path as [|loc rest IH]; intros index.
  - simpl. split_and!; [done|constructor|]. by intros ? ? ?%elem_of_nil.
  - cbn [format_from]. unfold known_locations. cbn [length seq zip_with].
    pose proof (get_location_info_cases stations solar_systems loc index) as Hinfo.
    destruct (get_location_info stations solar_systems loc index) as [[info|]|e]; simpl.
    + destruct Hinfo as (Hid & Hloc & Hactions & Hknown & Hregion).
      specialize (IH (S index)).
      destruct (format_from stations solar_systems (S index) rest) as [formatted|e]; simpl.
      * destruct IH as (Hsteps & Hempty & Hregions).
        rewrite filter_cons_True by done. rewrite Hid, Hloc, Hsteps.
        split_and!; [done|by constructor|].
        intros loc' data [->|Hin]%elem_of_cons Hdata; [by apply Hregion|by eapply Hregions].
      * destruct IH as (-> & loc' & data & Hin & Hdata & Hnone).
        split; [done|]. exists loc', data. split_and!; [by right|done|done].
    + destruct Hinfo as [Hstation Hsystem]. specialize (IH (S index)).
      destruct (format_from stations solar_systems (S index) rest) as [formatted|e]; simpl.
      * destruct IH as (Hsteps & Hempty & Hregions).
        rewrite filter_cons_False.
        2:{ simpl. rewrite Hstation, Hsystem. intros [[? [=]]|[? [=]]]. }
        split_and!; [done|done|].
        intros loc' data [->|Hin]%elem_of_cons Hdata; [congruence|by eapply Hregions].
      * destruct IH as (-> & loc' & data & Hin & Hdata & Hnone).
        split; [done|]. exists loc', data. split_and!; [by right|done|done].
    + destruct Hinfo as (-> & data & Hdata & Hnone).
      split; [done|]. exists loc, data. split_and!; [by left|done|done].
Qed.

(** X17.  The formatted route has one step for every entry of the combined
    path that is a key of the station table or of the solar-system table, in
    the order of the combined path; the [id] of a step is the position of
    its entry in the combined path, so that the ids skip the entries that
    are in neither table; every step has an empty list of actions.  The
    call raises [IndexError] on the empty path and [KeyError] when an entry
    of the combined path is a station without [region_name], and nothing
    else. *)
Theorem formatted_route_steps (stations : gmap Z Station)
  (solar_systems : gmap Z SolarSystem) (path : list Z) :
  match formatted_route stations solar_systems path with
  | Ok route =>
      ∃ combined_path,
        combine_warp_gates stations path = Ok combined_path
        ∧ map (fun info => (id info, location_id info)) route
          = known_locations stations solar_systems 0 combined_path
        ∧ Forall (fun info => actions info = []) route
        ∧ (∀ loc data, loc ∈ combined_path → stations !! loc = Some data →
                       is_Some (region_name data))
  | Raise e =>
      (e = IndexError ∧ path = [])
      ∨ (e = KeyError
         ∧ ∃ combined_path loc data,
             combine_warp_gates stations path = Ok combined_path
             ∧ loc ∈ combined_path ∧ stations !! loc = Some data
             ∧ region_name data = None)
  end.
Proof.
  unfold formatted_route. destruct path as [|x rest].
  - simpl. by left.
  - rewrite combine_warp_gates_unfold. simpl.
    pose proof (format_from_steps stations solar_systems 0 (combined_from stations x rest))
      as Hsteps.
    destruct (format_from stations solar_systems 0 (combined_from stations x rest))
      as [route|e].
    + by exists (combined_from stations x rest).
    + destruct Hsteps as (-> & loc & data & Hin & Hdata & Hnone). right.
      split; [done|]. by exists (combined_from stations x rest), loc, data.
Qed.

Lemma combined_from_stations (stations : gmap Z Station) (x : Z) (rest : list Z) :
  Forall (station_node stations) (x :: rest) →
  combined_from stations x rest = x :: rest.
Proof.
  revert x. induction rest as [|y rest IH]; intros x Hall.
  - apply Forall_cons in Hall as [(data & Hdata & Hst) _]. simpl. by rewrite Hdata, Hst.
  - apply Forall_cons in Hall as [(data & Hdata & Hst) Hrest].
    cbn [combined_from]. rewrite (IH _ Hrest). unfold combine_pair. by rewrite Hdata, Hst.
Qed.

Lemma combined_from_length (stations : gmap Z Station) (x : Z) (rest : list Z) :
  (length (combined_from stations x rest) ≤ length (x :: rest))%nat.
Proof.
  revert x. induction rest as [|y rest IH]; intros x.
  - simpl. destruct (stations !! x) as [data|]; [|simpl; lia].
    destruct (is_station data); simpl; lia.
  - cbn [combined_from]. rewrite length_app. specialize (IH y).
    assert (length (combine_pair stations x y) ≤ 1)%nat; [|simpl in *; lia].
    unfold combine_pair. destruct (stations !! x) as [sx|]; [|simpl; lia].
    destruct (is_station sx); [simpl; lia|].
    destruct (stations !! y) as [sy|]; [|simpl; lia].
    destruct (_ && _); simpl; lia.
Qed.

(** X18.  A path of stations only is its own combined path, and no
    combined path is longer than its path. *)
Theorem combine_warp_gates_stations (stations : gmap Z Station) (path : list Z) :
  path ≠ [] →
  (∃ combined_path,
     combine_warp_gates stations path = Ok combined_path
     ∧ (length combined_path ≤ length path)%nat)
  ∧ (Forall (station_node stations) path → combine_warp_gates stations path = Ok path).
Proof.
  intros Hne. destruct path as [|x rest]; [done|]. rewrite combine_warp_gates_unfold. split.
  - eexists. split; [done|]. apply combined_from_length.
  - intros Hall. by rewrite combined_from_stations.
Qed.

Lemma combine_warp_gates_stations_witness :
  (∃ combined_path,
     combine_warp_gates route_nodes [10; 10] = Ok combined_path
     ∧ (length combined_path ≤ length [10; 10])%nat)
  ∧ (Forall (station_node route_nodes) [10; 10]
     → combine_warp_gates route_nodes [10; 10] = Ok [10; 10]).
Proof. apply (combine_warp_gates_stations route_nodes [10; 10]). done. Defined.

End Steps.

(** ** What the search returns *)

Section RouteOutcome.

Import Arbitrage Route.

Lemma formatted_route_Raise (graph : Graph) (path : list Z) (e : exn) :
  formatted_route graph path = Raise e → e = IndexError ∨ e = KeyError.
Proof.
  unfold formatted_route, Graph.formatted_route. destruct path as [|x rest].
  - intros [= <-]. by left.
  - rewrite combine_warp_gates_unfold. simpl. intros Hformat.
    pose proof (format_from_steps (stations graph) (solar_systems graph) 0
                  (combined_from (stations graph) x rest)) as Hsteps.
    rewrite Hformat in Hsteps. destruct Hsteps as [-> _]. by right.
Qed.

(** X9.  When [route] returns, every evaluation has returned, and either
    no evaluated skeleton has a positive profit rate and the result is
    [(None, None)], or the result is a route without steps together with the
    figures of the first evaluated skeleton among those with the largest
    profit rate: the formatted route of that skeleton has no step.  The
    figures are those of a trade of the input: the gross profit is the sum
    over the trades selected for it (at least one) and is positive, the
    capital is the ship cost plus their buying cost, the transport time is
    not 0, net_profit = gross_profit - risk * capital and profit_rate =
    net_profit / transport_time > 0.  [route] never raises [ValueError], and
    it raises [AttributeError] only for the formatted route, with at least
    one step, of an evaluated skeleton. *)
Theorem route_figures (trades : list Trade) (graph : Graph) (ship : Pathfinder.Ship) :
  match route trades graph ship with
  | Ok (best_route, best_route_info) =>
      ∃ evals,
        evaluated_skeletons trades graph ship = Ok evals
        ∧ match best_route_info with
          | None => best_route = None ∧ ∀ e, e ∈ evals → (rate e <= 0)%Q
          | Some info =>
              ∃ i e trade,
                first_best evals i e
                ∧ info = eval_info e
                ∧ best_route = Some []
                ∧ formatted_route graph (eval_path e) = Ok []
                ∧ trade ∈ trades
                ∧ find_path graph (Pathfinder.location ship) (from_station trade)
                    (to_station trade)
                  = Some (eval_path e)
                ∧ select_trades
                    [Pathfinder.location ship; from_station trade; to_station trade]
                    (sort_by (key_desc capital_density) trades) ship
                  = Ok (eval_trades e)
                ∧ eval_trades e ≠ []
                ∧ sum_over_path graph fst (eval_path e) = Ok (risk info)
                ∧ sum_over_path graph snd (eval_path e) = Ok (transport_time info)
                ∧ info_gross_profit info = sum_Q (map gross_profit (eval_trades e))
                ∧ (0 < info_gross_profit info)%Q
                ∧ capital info
                  = (default 0 (Pathfinder.ship_cost ship)
                     + sum_Q (map (fun t => from_price t * inject_Z (quantity t))
                                (eval_trades e)))%Q
                ∧ ¬ (transport_time info == 0)%Q
                ∧ info_net_profit info
                  = (info_gross_profit info - risk info * capital info)%Q
                ∧ profit_rate info = (info_net_profit info / transport_time info)%Q
                ∧ (0 < profit_rate info)%Q
          end
  | Raise exn =>
      exn = ZeroDivisionError ∨ exn = KeyError ∨ exn = IndexError
      ∨ (exn = AttributeError
         ∧ ∃ trade e steps,
             trade ∈ trades
             ∧ evaluate (sort_by (key_desc capital_density) trades) graph ship trade
               = Ok (Some e)
             ∧ formatted_route graph (eval_path e) = Ok steps
             ∧ steps ≠ [])
  end.
Proof.
  unfold route, evaluated_skeletons.
  set (sorted := sort_by _ trades). set (s0 := Build_Search _ _ _ _).
  assert (∀ t, t ∈ take MAX_TRADES_TO_CONSIDER sorted → t ∈ trades) as Hsorted.
  { intros t Ht. apply elem_of_take in Ht as (k & Ht & _).
    by apply list_elem_of_lookup_2, elem_of_sort_by in Ht. }
  destruct (for_each _ _ s0) as [s|exn] eqn:Hloop; simpl.
  - assert (holds graph s0 None) as H0 by done.
    destruct (route_loop _ _ _ _ _ _ _ H0 Hloop) as (evals & Hevals & Hs).
    simpl in Hevals. exists evals. split; [done|].
    pose proof (improve_first_best evals) as Hbest.
    destruct Hs as (_ & Hinfo & Hroute & Hformat).
    destruct (fold_left improve evals None) as [e|]; simpl in Hinfo, Hroute;
      rewrite Hinfo, Hroute; [|done].
    destruct Hbest as [i Hfirst].
    pose proof Hfirst as (Hi & Hpos & _).
    apply list_elem_of_lookup_2 in Hi.
    destruct (evaluate_each_elem _ _ _ _ Hevals Hi) as (trade & Htrade & Heval).
    apply unseen_elem, Hsorted in Htrade.
    apply evaluate_Some in Heval as (? & ? & ? & ? & ? & ? & ? & ? & ? & ? & ?).
    exists i, e, trade. split_and!; try done. by apply Hformat.
  - apply for_each_Raise in Hloop as (s & trade & Htrade & Hbody).
    unfold route_body in Hbody. destruct (bool_decide _); [done|]. simpl in Hbody.
    destruct (evaluate sorted graph ship trade) as [[e|]|exn'] eqn:Heval;
      simpl in Hbody; [| done |].
    + destruct (compare_with_best graph _ e) as [s2|exn'] eqn:Hcompare; [done|].
      simpl in Hbody. injection Hbody as ->.
      apply compare_with_best_Raise in Hcompare as [Hformat|[-> (steps & Hsteps & Hne)]].
      * apply formatted_route_Raise in Hformat as [->| ->]; tauto.
      * do 3 right. split; [done|]. exists trade, e, steps.
        split_and!; [by apply Hsorted|done|done|done].
    + injection Hbody as ->. apply evaluate_Raise in Heval as [->| ->]; tauto.
Qed.

End RouteOutcome.


(** ** Repeated steps of the formatted route *)

Section Repeats.

Import Graph.

















End Repeats.
